(** * Timetabling by simulated annealing: a shallow embedding of [main.py]

    The optimisation engine of the program (slot parsing and its cache, the
    cost function, the random construction and neighbourhood operators and
    the annealing loop) is transcribed function by function.  Python values
    are modelled as follows.

    - [str] is [string], read as a sequence of code points below 256.
    - [int] is [Z]; the weights and every cost are integers.
    - a [dict] is a [gmap], a [set] is a [gset]; the one dictionary that is
      iterated ([faculty_schedule]) is an insertion-ordered association list.
    - a [list] of assignments is a mutable object: it lives in a heap and is
      passed by reference, so that aliasing is visible.
    - the floats drawn by [random.random()] are the dyadic rationals
      [k / 2^53]; the literals they are compared with are the exact values
      of the corresponding doubles, so every comparison is exact.
    - the temperature arithmetic of the annealing loop ([T *= alpha],
      [math.exp]) is a parameter of the development. *)

From Stdlib Require Import QArith Ascii.
From stdpp Require Import gmap strings list fin_maps sorting.

Local Open Scope string_scope.
Local Open Scope Z_scope.

(** ** Strings *)

Module Str.

(** [s.split(sep)] for a one-character separator: every piece, empty ones
    included; the result is never empty. *)
Fixpoint split (sep : ascii) (s : string) : list string :=
  match s with
  | EmptyString => [EmptyString]
  | String c s' =>
      if Ascii.eqb c sep then EmptyString :: split sep s'
      else match split sep s' with
           | h :: t => String c h :: t
           | [] => [String c EmptyString]
           end
  end.

(** [s.split(sep, 1)]: cut at the first separator, if there is one. *)
Fixpoint split1 (sep : ascii) (s : string) : list string :=
  match s with
  | EmptyString => [EmptyString]
  | String c s' =>
      if Ascii.eqb c sep then [EmptyString; s']
      else match split1 sep s' with
           | h :: t => String c h :: t
           | [] => [String c EmptyString]
           end
  end.

Fixpoint mem (c : ascii) (s : string) : bool :=
  match s with
  | EmptyString => false
  | String d s' => Ascii.eqb d c || mem c s'
  end.

(** The characters [int()] skips around a number. *)
Definition is_space (c : ascii) : bool :=
  let n := nat_of_ascii c in
  ((9 <=? n) && (n <=? 13) || (n =? 32) || (n =? 133) || (n =? 160))%nat.

Definition digit_of (c : ascii) : option Z :=
  let n := Z.of_nat (nat_of_ascii c) in
  if (48 <=? n) && (n <=? 57) then Some (n - 48) else None.

Fixpoint lstrip (s : string) : string :=
  match s with
  | EmptyString => EmptyString
  | String c s' => if is_space c then lstrip s' else s
  end.

Fixpoint rstrip (s : string) : string :=
  match s with
  | EmptyString => EmptyString
  | String c s' =>
      match rstrip s' with
      | EmptyString => if is_space c then EmptyString else String c EmptyString
      | r => String c r
      end
  end.

Definition strip (s : string) : string := rstrip (lstrip s).

(** Decimal digits, single underscores allowed between two digits.
    [seen] tells whether the previous character was a digit. *)
Fixpoint digits (acc : Z) (seen : bool) (s : string) : option Z :=
  match s with
  | EmptyString => if seen then Some acc else None
  | String c s' =>
      match digit_of c with
      | Some d => digits (10 * acc + d) true s'
      | None => if Ascii.eqb c "_" && seen then digits acc false s' else None
      end
  end.

(** The number of decimal digits in a string, and the largest number of
    digits that [int] converts, [sys.int_info.default_max_str_digits]:
    beyond it, CPython (3.11, and the security releases of 3.7 to 3.10)
    raises [ValueError]. *)
Fixpoint ndigits (s : string) : Z :=
  match s with
  | EmptyString => 0
  | String c s' => (if digit_of c is Some _ then 1 else 0) + ndigits s'
  end.

Definition max_str_digits : Z := 4300.

Definition number (r : string) : option Z :=
  if max_str_digits <? ndigits r then None else digits 0 false r.

(** [int(s)] in base ten; [None] stands for [ValueError]. *)
Definition int (s : string) : option Z :=
  match strip s with
  | String "+" r => number r
  | String "-" r => Z.opp <$> number r
  | t => number t
  end.

End Str.

(** ** Data model *)

(** An assignment is the tuple [(course, slot, room)]. *)
Definition assignment : Type := string * string * string.

Definition course_of (a : assignment) : string := a.1.1.
Definition slot_of (a : assignment) : string := a.1.2.
Definition room_of (a : assignment) : string := a.2.

(** The keys of the [WEIGHTS] dictionary. *)
Record weights := {
  teacher_slot_conflict : Z;
  room_slot_conflict : Z;
  not_preferred : Z;
  back_to_back : Z;
  gap : Z;
  too_many_sessions_day : Z;
  missing_teacher : Z;
  malformed_slot : Z
}.

Definition default_WEIGHTS : weights := {|
  teacher_slot_conflict := 20000;
  room_slot_conflict := 20000;
  not_preferred := 2;
  back_to_back := 1;
  gap := 1;
  too_many_sessions_day := 10;
  missing_teacher := 20000;
  malformed_slot := 20000
|}.

(** The module globals that the engine only reads. *)
Record globals := {
  courses : list string;
  faculty : gmap string string;
  rooms : list string;
  slots : list string;
  preferred_slots : gmap string (list string);
  WEIGHTS : weights
}.

(** The random source: an infinite tape of raw draws and a cursor; every
    call of the [random] module consumes one cell. *)
Record random_source := { tape : nat -> N; cursor : nat }.

(** A list object is named by its address in the heap. *)
Definition loc := nat.

(** What the engine writes: the global [requirements], the two caches, the
    random source and the heap of list objects. *)
Record world := {
  requirements : gmap string Z;
  _slot_parsed : gmap string (string * Z);
  _course_teacher_cache : gmap string string;
  random : random_source;
  heap : list (list assignment)
}.

Definition set_requirements (v : gmap string Z) (w : world) : world :=
  {| requirements := v; _slot_parsed := _slot_parsed w;
     _course_teacher_cache := _course_teacher_cache w;
     random := random w; heap := heap w |}.
Definition set_slot_parsed (v : gmap string (string * Z)) (w : world) : world :=
  {| requirements := requirements w; _slot_parsed := v;
     _course_teacher_cache := _course_teacher_cache w;
     random := random w; heap := heap w |}.
Definition set_course_teacher_cache (v : gmap string string) (w : world) : world :=
  {| requirements := requirements w; _slot_parsed := _slot_parsed w;
     _course_teacher_cache := v;
     random := random w; heap := heap w |}.
Definition set_random (v : random_source) (w : world) : world :=
  {| requirements := requirements w; _slot_parsed := _slot_parsed w;
     _course_teacher_cache := _course_teacher_cache w;
     random := v; heap := heap w |}.
Definition set_heap (v : list (list assignment)) (w : world) : world :=
  {| requirements := requirements w; _slot_parsed := _slot_parsed w;
     _course_teacher_cache := _course_teacher_cache w;
     random := random w; heap := v |}.

(** ** Exceptions and the monad of the engine *)

Inductive exn := ValueError | IndexError | ZeroDivisionError | UnboundLocalError.

Inductive result (A : Type) :=
  | Ok (a : A)
  | Raise (e : exn).
Arguments Ok {A} a.
Arguments Raise {A} e.

(** A computation runs in a world and leaves a world, also when it raises. *)
Definition M (A : Type) : Type := world -> result A * world.

#[export] Instance M_ret : MRet M := λ A a w, (Ok a, w).
#[export] Instance M_bind : MBind M := λ A B f m w,
  match m w with
  | (Ok a, w') => f a w'
  | (Raise e, w') => (Raise e, w')
  end.

Definition raise {A} (e : exn) : M A := λ w, (Raise e, w).
Definition gets {A} (f : world -> A) : M A := λ w, (Ok (f w), w).
Definition modify (f : world -> world) : M unit := λ w, (Ok (), f w).

(** [try: m  except Exception: ...]: the outcome of [m] as a value. *)
Definition try {A} (m : M A) : M (result A) := λ w,
  match m w with
  | (r, w') => (Ok r, w')
  end.

(** [for x in l: body x] *)
Fixpoint for_ {A} (l : list A) (body : A -> M unit) : M unit :=
  match l with
  | [] => mret ()
  | x :: l' => body x;; for_ l' body
  end.

(** [for x in l: acc = body acc x], for loops that carry local variables. *)
Fixpoint for_acc {A S} (l : list A) (body : S -> A -> M S) (acc : S) : M S :=
  match l with
  | [] => mret acc
  | x :: l' => acc' ← body acc x; for_acc l' body acc'
  end.

(** [for _ in range(count): body]; a non-positive count runs no turn. *)
Definition for_range (count : Z) (body : M unit) : M unit :=
  for_ (replicate (Z.to_nat count) ()) (λ _, body).

(** ** The heap of list objects *)

(** A fresh list object holding [l]: [[]], [list(x)], [x[:]]. *)
Definition new_list (l : list assignment) : M loc := λ w,
  (Ok (length (heap w)), set_heap (heap w ++ [l])%list w).

(** The elements of the list object at [r]. *)
Definition elements_of (r : loc) : M (list assignment) :=
  gets (λ w, default [] (heap w !! r)).

(** [r[i]] *)
Definition getitem (r : loc) (i : nat) : M assignment :=
  l ← elements_of r;
  match l !! i with
  | Some a => mret a
  | None => raise IndexError
  end.

(** [r[i] = a] *)
Definition setitem (r : loc) (i : nat) (a : assignment) : M unit :=
  l ← elements_of r;
  if decide (i < length l)%nat
  then modify (λ w, set_heap (<[r := <[i := a]> l]> (heap w)) w)
  else raise IndexError.

(** [r.append(a)] *)
Definition append (r : loc) (a : assignment) : M unit :=
  l ← elements_of r;
  modify (λ w, set_heap (<[r := (l ++ [a])%list]> (heap w)) w).

(** ** The [random] module *)

Definition two53 : Z := 9007199254740992.

(** One raw draw. *)
Definition next_raw : M N := λ w,
  let g := random w in
  (Ok (tape g (cursor g)), set_random {| tape := tape g; cursor := S (cursor g) |} w).

(** [random.random()]: a double [k / 2^53] with [0 <= k < 2^53]. *)
Definition random_random : M Q :=
  k ← next_raw;
  mret (Qmake (Z.of_N k mod two53) (Z.to_pos two53)).

(** [_randbelow(n)] for [n > 0]. *)
Definition randbelow (n : nat) : M nat :=
  k ← next_raw;
  mret (N.to_nat k mod n)%nat.

(** [random.choice(seq)] *)
Definition random_choice {A} (seq : list A) : M A :=
  match seq with
  | [] => raise IndexError
  | x :: _ =>
      i ← randbelow (length seq);
      mret (nth i seq x)
  end.

(** [random.randrange(n)] *)
Definition random_randrange (n : nat) : M nat :=
  if decide (0 < n)%nat then randbelow n else raise ValueError.

(** [random.sample(range(n), 2)], by the pool method of the library: the
    first pick is replaced in the pool by the last element.  (Above 21
    elements the library redraws the second pick until it differs from the
    first; the pairs that can come out are the same.) *)
Definition random_sample2 (n : nat) : M (nat * nat) :=
  if decide (2 <= n)%nat then
    i ← randbelow n;
    j ← randbelow (n - 1);
    mret (i, if decide (j = i) then (n - 1)%nat else j)
  else raise ValueError.

(** Comparison of doubles, and the float literals of the program. *)
Definition float_lt (x y : Q) : bool :=
  Qnum x * Zpos (Qden y) <? Qnum y * Zpos (Qden x).

Definition float_0_45 : Q := Qmake 8106479329266893 18014398509481984.
Definition float_0_85 : Q := Qmake 7656119366529843 9007199254740992.
Definition float_0_7 : Q := Qmake 3152519739159347 4503599627370496.
Definition float_0_8 : Q := Qmake 3602879701896397 4503599627370496.
Definition float_0_25 : Q := Qmake 1 4.

(** ** Local data of the cost function *)

(** [f(d.setdefault(k, v0))] on an insertion-ordered dictionary, where [f]
    updates the stored value in place. *)
Fixpoint setdefault_with {V} (k : string) (v0 : V) (f : V -> V)
    (d : list (string * V)) : list (string * V) :=
  match d with
  | [] => [(k, f v0)]
  | (k', v) :: d' =>
      if decide (k' = k) then (k', f v) :: d'
      else (k', v) :: setdefault_with k v0 f d'
  end.

Record cost_locals := {
  penalty : Z;
  used_faculty : gset (string * string);
  used_rooms : gset (string * string);
  faculty_schedule : list (string * list (string * list Z))
}.

Definition add_penalty (p : Z) (st : cost_locals) : cost_locals :=
  {| penalty := penalty st + p; used_faculty := used_faculty st;
     used_rooms := used_rooms st; faculty_schedule := faculty_schedule st |}.
Definition add_used_faculty (k : string * string) (st : cost_locals) : cost_locals :=
  {| penalty := penalty st; used_faculty := {[k]} ∪ used_faculty st;
     used_rooms := used_rooms st; faculty_schedule := faculty_schedule st |}.
Definition add_used_rooms (k : string * string) (st : cost_locals) : cost_locals :=
  {| penalty := penalty st; used_faculty := used_faculty st;
     used_rooms := {[k]} ∪ used_rooms st; faculty_schedule := faculty_schedule st |}.
Definition record_start (teacher day : string) (start_minutes : Z)
    (st : cost_locals) : cost_locals :=
  {| penalty := penalty st; used_faculty := used_faculty st;
     used_rooms := used_rooms st;
     faculty_schedule :=
       setdefault_with teacher []
         (setdefault_with day [] (λ starts, (starts ++ [start_minutes])%list))
         (faculty_schedule st) |}.

(** ** Floats of the annealing schedule

    The temperature is a double that is multiplied, compared with [1e-8]
    and fed to [math.exp]; the development is parametric in these
    operations. *)
Record float_model := {
  float : Type;
  float_mul : float -> float -> float;
  le_1e_8 : float -> bool;
  (** [u < math.exp(-delta / max(T, 1e-9))] *)
  metropolis : Z -> float -> Q -> bool
}.

(** The three parallel lists of [history]. *)
Record history := {
  h_iter : list nat;
  h_current_cost : list Z;
  h_best_cost : list Z
}.

Record sa_locals (F : float_model) := {
  current : loc;
  current_cost : Z;
  best : loc;
  best_cost : Z;
  T : float F;
  hist : history
}.
Arguments current {F} _.
Arguments current_cost {F} _.
Arguments best {F} _.
Arguments best_cost {F} _.
Arguments T {F} _.
Arguments hist {F} _.

(** What [generate_timetable] hands to the user interface: the error box,
    or the result of the search. *)
Inductive outcome :=
  | ShowError (msg : string)
  | Done (best_tt : loc) (best_cost : Z) (h : history) (init_cost : Z).

(** ** The engine *)

Section Engine.

Variable g : globals.

(** The body of [parse_slot] below the cache test: the work done on a
    cache miss.  Every failure is a [ValueError]: too few or too many pieces
    to unpack, or a field that [int] rejects. *)
Definition parse_fresh (slot : string) : result (string * Z) :=
  match Str.split1 " " slot with
  | [day; time_range] =>
      let start_str := hd "" (Str.split "-" time_range) in
      match Str.split ":" start_str with
      | [h; m] =>
          match Str.int h, Str.int m with
          | Some hh, Some mm => Ok (day, hh * 60 + mm)
          | _, _ => Raise ValueError
          end
      | _ => Raise ValueError
      end
  | _ => Raise ValueError
  end.

Definition parse_slot (slot : string) : M (string * Z) :=
  cache ← gets _slot_parsed;
  match cache !! slot with
  | Some v => mret v
  | None =>
      match parse_fresh slot with
      | Ok v =>
          modify (λ w, set_slot_parsed (<[slot := v]> (_slot_parsed w)) w);;
          mret v
      | Raise e => raise e
      end
  end.

Definition refresh_caches : M unit :=
  modify (set_slot_parsed ∅);;
  for_ (slots g) (λ s, try (parse_slot s);; mret ());;
  modify (set_course_teacher_cache ∅);;
  for_ (courses g) (λ c,
    modify (λ w, set_course_teacher_cache
                   (<[c := default "" (faculty g !! c)]> (_course_teacher_cache w)) w)).

(** One turn of the loop over the timetable. *)
Definition cost_step (st : cost_locals) (a : assignment) : M cost_locals :=
  let '(course, slot, room) := a in
  local_course_teacher ← gets _course_teacher_cache;
  let teacher := default "" (local_course_teacher !! course) in
  if decide (teacher = "") then
    mret (add_penalty (missing_teacher (WEIGHTS g)) st)
  else
    let key_fac := (teacher, slot) in
    let st :=
      if decide (key_fac ∈ used_faculty st)
      then add_penalty (teacher_slot_conflict (WEIGHTS g)) st
      else add_used_faculty key_fac st in
    let key_room := (room, slot) in
    let st :=
      if decide (key_room ∈ used_rooms st)
      then add_penalty (room_slot_conflict (WEIGHTS g)) st
      else add_used_rooms key_room st in
    let st :=
      match preferred_slots g !! teacher with
      | Some (p :: ps) =>
          if decide (slot ∈ p :: ps) then st
          else add_penalty (not_preferred (WEIGHTS g)) st
      | _ => st
      end in
    r ← try (parse_slot slot);
    match r with
    | Ok (day, start_minutes) => mret (record_start teacher day start_minutes st)
    | Raise _ => mret (add_penalty (malformed_slot (WEIGHTS g)) st)
    end.

(** The penalty of one consecutive pair, [starts[i] - starts[i - 1]]. *)
Definition pair_penalty (starts : list Z) (i : nat) : Z :=
  let diff := default 0 (starts !! i) - default 0 (starts !! (i - 1)%nat) in
  if (0 <? diff) && (diff <=? 60) then back_to_back (WEIGHTS g)
  else if 60 <? diff then gap (WEIGHTS g)
  else 0.

(** The body of the loop over the days of one teacher; [starts.sort()] is
    a merge sort. *)
Definition day_penalty (starts : list Z) : Z :=
  let starts := merge_sort Z.le starts in
  let n := length starts in
  (if (5 <=? n)%nat then too_many_sessions_day (WEIGHTS g) * (Z.of_nat n - 4) else 0)
  + foldr (λ i acc, pair_penalty starts i + acc) 0 (seq 1 (n - 1)).

Definition day_level (schedule : list (string * list (string * list Z))) : Z :=
  foldr (λ '(teacher, days) acc,
           foldr (λ '(day, starts) acc, day_penalty starts + acc) 0 days + acc)
        0 schedule.

Definition cost_function (timetable : loc) : M Z :=
  tt ← elements_of timetable;
  st ← for_acc tt cost_step
         {| penalty := 0; used_faculty := ∅; used_rooms := ∅; faculty_schedule := [] |};
  mret (penalty st + day_level (faculty_schedule st)).

(** [random_solution]: the list [timetable] is a new object, filled by
    [append]; a slot is drawn from the preferences of the teacher with
    probability 0.8 when there are some. *)
Definition random_solution : M loc :=
  timetable ← new_list [];
  for_ (courses g) (λ course,
    count ← gets (λ w, default 1 (requirements w !! course));
    for_range count (
      let teacher := default "" (faculty g !! course) in
      slot ← match preferred_slots g !! teacher with
             | Some (p :: ps) =>
                 u ← random_random;
                 if float_lt u float_0_8 then random_choice (p :: ps)
                 else random_choice (slots g)
             | _ => random_choice (slots g)
             end;
      room ← random_choice (rooms g);
      append timetable (course, slot, room)));;
  mret timetable.

Definition len (r : loc) : M nat :=
  l ← elements_of r; mret (length l).

(** The three moves of [neighbor_solution], on the copy [new_tt]. *)
Definition swap_move (new_tt : loc) (L : nat) : M unit :=
  '(i, j) ← random_sample2 L;
  '(c1, s1, r1) ← getitem new_tt i;
  '(c2, s2, r2) ← getitem new_tt j;
  u ← random_random;
  if float_lt u float_0_7 then
    setitem new_tt i (c1, s2, r1);;
    setitem new_tt j (c2, s1, r2)
  else
    a ← getitem new_tt j;
    b ← getitem new_tt i;
    setitem new_tt i a;;
    setitem new_tt j b.

Definition slot_move (new_tt : loc) (L : nat) : M unit :=
  idx ← random_randrange L;
  '(c, _, r) ← getitem new_tt idx;
  let teacher := default "" (faculty g !! c) in
  new_slot ← match preferred_slots g !! teacher with
             | Some (p :: ps) =>
                 u ← random_random;
                 if float_lt u float_0_7 then random_choice (p :: ps)
                 else random_choice (slots g)
             | _ => random_choice (slots g)
             end;
  u ← random_random;
  if float_lt u float_0_25 then setitem new_tt idx (c, new_slot, r)
  else
    room ← random_choice (rooms g);
    setitem new_tt idx (c, new_slot, room).

Definition room_move (new_tt : loc) (L : nat) : M unit :=
  idx ← random_randrange L;
  '(c, s, _) ← getitem new_tt idx;
  room ← random_choice (rooms g);
  setitem new_tt idx (c, s, room).

Definition neighbor_solution (timetable : loc) : M loc :=
  tt ← elements_of timetable;
  if decide (tt = []) then new_list []
  else
    new_tt ← new_list tt;
    move ← random_random;
    L ← len new_tt;
    (if float_lt move float_0_45 && bool_decide (2 <= L)%nat then swap_move new_tt L
     else if float_lt move float_0_85 then slot_move new_tt L
     else room_move new_tt L);;
    mret new_tt.

Variable F : float_model.

Definition set_T (t : float F) (st : sa_locals F) : sa_locals F :=
  {| current := current st; current_cost := current_cost st; best := best st;
     best_cost := best_cost st; T := t; hist := hist st |}.

Definition log_history (it : nat) (st : sa_locals F) : sa_locals F :=
  {| current := current st; current_cost := current_cost st; best := best st;
     best_cost := best_cost st; T := T st;
     hist := {| h_iter := (h_iter (hist st) ++ [it])%list;
                h_current_cost := (h_current_cost (hist st) ++ [current_cost st])%list;
                h_best_cost := (h_best_cost (hist st) ++ [best_cost st])%list |} |}.

(** The acceptance step: the neighbour becomes current, and best when it
    improves on the best cost. *)
Definition accept (neighbor : loc) (neighbor_cost : Z) (st : sa_locals F)
    : M (sa_locals F) :=
  if neighbor_cost <? best_cost st then
    cur ← elements_of neighbor;
    b ← new_list cur;
    mret {| current := neighbor; current_cost := neighbor_cost; best := b;
            best_cost := neighbor_cost; T := T st; hist := hist st |}
  else
    mret {| current := neighbor; current_cost := neighbor_cost; best := best st;
            best_cost := best_cost st; T := T st; hist := hist st |}.

(** The test that guards the redraw of the live plot,
    [live_plot and (it % update_interval == 0 or it == 1)]: the remainder
    raises when the interval is 0.  The redraw itself acts on the figure
    only; the calls to the plotting library are taken to return and to leave
    the state of the engine alone. *)
Definition live_update (live_plot : bool) (update_interval : Z) : M unit :=
  if live_plot && (update_interval =? 0) then raise ZeroDivisionError else mret ().

(** The main loop, [for it in range(1, max_iter + 1)], with [todo] turns
    left; the two [break]s end it early. *)
Fixpoint sa_loop (live_plot : bool) (update_interval : Z) (alpha : float F)
    (stop_if_zero : bool) (todo it : nat) (st : sa_locals F) : M (sa_locals F) :=
  match todo with
  | O => mret st
  | S todo' =>
      if le_1e_8 F (T st) then mret st
      else
        neighbor ← neighbor_solution (current st);
        neighbor_cost ← cost_function neighbor;
        let delta := neighbor_cost - current_cost st in
        accepted ← (if delta <? 0 then mret true
                    else u ← random_random; mret (metropolis F delta (T st) u));
        st ← (if accepted : bool then accept neighbor neighbor_cost st else mret st);
        let st := log_history it st in
        live_update live_plot update_interval;;
        if stop_if_zero && (best_cost st =? 0) then mret st
        else sa_loop live_plot update_interval alpha stop_if_zero todo' (S it)
               (set_T (float_mul F (T st) alpha) st)
  end.

(** [simulated_annealing]; the timer is left out, and [update_interval] is
    taken as an integer (the program always passes one; it is read only
    when [live_plot] is set).  After the loop the final update of the live
    plot reads [it], which is unbound when the loop had no turn to make. *)
Definition simulated_annealing (max_iter : Z) (T0 alpha : float F)
    (stop_if_zero live_plot : bool) (update_interval : Z)
    : M (loc * Z * history) :=
  init ← random_solution;
  init_cost ← cost_function init;
  cur ← elements_of init;
  init_best ← new_list cur;
  st ← sa_loop live_plot update_interval alpha stop_if_zero (Z.to_nat max_iter) 1%nat
         {| current := init; current_cost := init_cost; best := init_best;
            best_cost := init_cost; T := T0;
            hist := {| h_iter := []; h_current_cost := []; h_best_cost := [] |} |};
  (if live_plot && (max_iter <? 1) then raise UnboundLocalError else mret ());;
  mret (best st, best_cost st, hist st).

(** [generate_timetable], up to the search result; [float_500] and
    [float_0_9997] are the doubles [500.0] and [0.9997]. *)
Definition generate_timetable (float_500 float_0_9997 : float F) : M outcome :=
  if bool_decide (courses g = []) || bool_decide (faculty g = ∅)
     || bool_decide (rooms g = []) || bool_decide (slots g = [])
  then mret (ShowError "Please enter all inputs first!")
  else
    modify (set_requirements (list_to_map ((λ c, (c, 2)) <$> courses g)));;
    refresh_caches;;
    init_sol ← random_solution;
    init_cost ← cost_function init_sol;
    let max_iter := 120000 in
    let update_interval :=
      if 50000 <? max_iter then 50 else if 20000 <? max_iter then 20 else 5 in
    '(best_tt, best_cost_tt, h) ←
      simulated_annealing max_iter float_500 float_0_9997 true true update_interval;
    mret (Done best_tt best_cost_tt h init_cost).

End Engine.

(** ** Worlds and inputs to run the engine on *)

(** The tape that replays [l] and then yields zeros. *)
Definition tape_of (l : list N) : nat -> N := λ i, nth i l 0%N.

(** The state of the module when it is loaded, with a given tape. *)
Definition fresh_world (l : list N) : world := {|
  requirements := ∅;
  _slot_parsed := ∅;
  _course_teacher_cache := ∅;
  random := {| tape := tape_of l; cursor := 0 |};
  heap := []
|}.

(** A float model over the rationals, to run the annealing loop:
    multiplication and the comparison with [1e-8] are exact, and
    [exp (- x)] is replaced by [1 / (1 + x)]. *)
Definition Qfloat : float_model := {|
  float := Q;
  float_mul := Qmult;
  le_1e_8 := λ t, Qle_bool t (Qmake 1 100000000);
  metropolis := λ delta t u,
    let t' := if Qle_bool t (Qmake 1 1000000000) then Qmake 1 1000000000 else t in
    float_lt u (Qinv (1 + inject_Z delta / t'))%Q
|}.

(** Two courses with their teachers, two rooms, three slots; a solution
    without conflict for them; and the world in which [refresh_caches] has
    run with that solution in the heap. *)
Definition demo : globals := {|
  courses := ["AI"; "DB"];
  faculty := {["AI" := "Ali"; "DB" := "Sara"]};
  rooms := ["Lab1"; "Lab2"];
  slots := ["Mon 09:00-10:00"; "Mon 10:00-11:00"; "Tue 09:00-10:00"];
  preferred_slots := {["Ali" := ["Mon 09:00-10:00"]]};
  WEIGHTS := default_WEIGHTS
|}.

Definition demo_solution : list assignment :=
  [("AI", "Mon 09:00-10:00", "Lab1"); ("DB", "Mon 09:00-10:00", "Lab2");
   ("DB", "Tue 09:00-10:00", "Lab1")].

Definition demo_world : world :=
  (refresh_caches demo (set_heap [demo_solution] (fresh_world []))).2.

(** The same catalogue without a room, and a catalogue with neither a
    course nor a room. *)
Definition demo_no_rooms : globals := {|
  courses := courses demo; faculty := faculty demo; rooms := [];
  slots := slots demo; preferred_slots := preferred_slots demo;
  WEIGHTS := WEIGHTS demo
|}.

Definition demo_empty : globals := {|
  courses := []; faculty := ∅; rooms := []; slots := slots demo;
  preferred_slots := ∅; WEIGHTS := default_WEIGHTS
|}.

(** ** Predicates used in the statements *)

(** Every entry of the slot cache is what parsing its key gives. *)
Definition cache_consistent (c : gmap string (string * Z)) : Prop :=
  ∀ k v, c !! k = Some v -> parse_fresh k = Ok v.

(** What [parse_slot] reads in a label: the day up to the first space, then
    two fields separated by a colon, then nothing or a dash and anything. *)
Definition reads_as (label day : string) (hh mm : Z) : Prop :=
  ∃ h m rest,
    label = day ++ " " ++ h ++ ":" ++ m ++ rest
    ∧ Str.mem " " day = false
    ∧ Str.mem "-" h = false ∧ Str.mem ":" h = false
    ∧ Str.mem "-" m = false ∧ Str.mem ":" m = false
    ∧ (rest = "" ∨ ∃ r, rest = String "-" r)
    ∧ Str.int h = Some hh ∧ Str.int m = Some mm.

(** The shape ["<Day> <HH:MM>-<HH:MM>"] of the specification, read
    generously: a day, a space, and two times separated by a dash, each
    made of two non-empty runs of digits around a colon. *)
Fixpoint all_digits (s : string) : bool :=
  match s with
  | EmptyString => true
  | String c s' => bool_decide (is_Some (Str.digit_of c)) && all_digits s'
  end.

Definition is_hh_mm (s : string) : bool :=
  match Str.split ":" s with
  | [h; m] => negb (String.eqb h "") && all_digits h
              && negb (String.eqb m "") && all_digits m
  | _ => false
  end.

Definition spec_shape (label : string) : bool :=
  match Str.split1 " " label with
  | [day; range] =>
      match Str.split "-" range with
      | [start; stop] => is_hh_mm start && is_hh_mm stop
      | _ => false
      end
  | _ => false
  end.

(** The day-level rule in the words of the specification: the differences
    of consecutive start minutes of a sorted bucket, and the penalty counted
    from them. *)
Fixpoint differences (sorted : list Z) : list Z :=
  match sorted with
  | a :: (b :: _) as rest => (b - a) :: differences rest
  | _ => []
  end.

Definition count_if (P : Z -> Prop) `{∀ d, Decision (P d)} (l : list Z) : Z :=
  Z.of_nat (length (filter P l)).

Definition spec_bucket (W : weights) (sorted : list Z) : Z :=
  (if decide (5 <= length sorted)%nat
   then too_many_sessions_day W * (Z.of_nat (length sorted) - 4) else 0)
  + back_to_back W * count_if (λ d, 0 < d ∧ d <= 60) (differences sorted)
  + gap W * count_if (λ d, 60 < d) (differences sorted).

(** The buckets of [faculty_schedule], one per teacher and day. *)
Definition buckets (schedule : list (string * list (string * list Z))) : list (list Z) :=
  schedule ≫= (λ '(_, days), snd <$> days).

Definition Zsum (l : list Z) : Z := foldr Z.add 0 l.

(** What one turn of the cost loop computes when the slot cache is
    consistent: [cost_step] with the teacher cache [tc] and with
    [parse_fresh] in the place of [parse_slot] (lemma [cost_step_run]). *)
Definition step_on (g : globals) (tc : gmap string string) (st : cost_locals)
    (a : assignment) : cost_locals :=
  let '(course, slot, room) := a in
  let teacher := default "" (tc !! course) in
  if decide (teacher = "") then add_penalty (missing_teacher (WEIGHTS g)) st
  else
    let st :=
      if decide ((teacher, slot) ∈ used_faculty st)
      then add_penalty (teacher_slot_conflict (WEIGHTS g)) st
      else add_used_faculty (teacher, slot) st in
    let st :=
      if decide ((room, slot) ∈ used_rooms st)
      then add_penalty (room_slot_conflict (WEIGHTS g)) st
      else add_used_rooms (room, slot) st in
    let st :=
      match preferred_slots g !! teacher with
      | Some (p :: ps) =>
          if decide (slot ∈ p :: ps) then st
          else add_penalty (not_preferred (WEIGHTS g)) st
      | _ => st
      end in
    match parse_fresh slot with
    | Ok (day, start_minutes) => record_start teacher day start_minutes st
    | Raise _ => add_penalty (malformed_slot (WEIGHTS g)) st
    end.

Definition cost_value (g : globals) (tc : gmap string string)
    (tt : list assignment) : Z :=
  let st := foldl (step_on g tc)
              {| penalty := 0; used_faculty := ∅; used_rooms := ∅;
                 faculty_schedule := [] |} tt in
  penalty st + day_level g (faculty_schedule st).

(** Weights under which a zero cost is informative: the four hard
    penalties are positive and no weight is negative. *)
Definition penalising (W : weights) : Prop :=
  0 < teacher_slot_conflict W ∧ 0 < room_slot_conflict W
  ∧ 0 < missing_teacher W ∧ 0 < malformed_slot W
  ∧ 0 <= not_preferred W ∧ 0 <= back_to_back W ∧ 0 <= gap W
  ∧ 0 <= too_many_sessions_day W.

(** The teacher of a course, [faculty.get(course, "")]. *)
Definition teacher_of (g : globals) (course : string) : string :=
  default "" (faculty g !! course).

(** The teacher cache as [refresh_caches] leaves it. *)
Definition teacher_cache_fresh (g : globals) (tc : gmap string string) : Prop :=
  ∀ c, tc !! c = if decide (c ∈ courses g) then Some (teacher_of g c) else None.

(** The world after one draw, and the float that [random.random()] draws
    in a world. *)
Definition advance (w : world) : world :=
  set_random {| tape := tape (random w); cursor := S (cursor (random w)) |} w.

Definition draw_float (w : world) : Q :=
  Qmake (Z.of_N (tape (random w) (cursor (random w))) mod two53) (Z.to_pos two53).

(** Footprints.  [same_globals]: the global [requirements] and the caches
    are unchanged.  [touches_only r]: moreover the heap has the same
    objects, all unchanged but the one at [r].  [extends]: moreover every
    object of the first world is unchanged in the second. *)
Definition same_globals (w w' : world) : Prop :=
  requirements w' = requirements w
  ∧ _slot_parsed w' = _slot_parsed w
  ∧ _course_teacher_cache w' = _course_teacher_cache w.

Definition touches_only (r : loc) (w w' : world) : Prop :=
  same_globals w w'
  ∧ length (heap w') = length (heap w)
  ∧ ∀ r', r' ≠ r -> heap w' !! r' = heap w !! r'.

Definition extends (w w' : world) : Prop :=
  same_globals w w'
  ∧ (length (heap w) <= length (heap w'))%nat
  ∧ ∀ r, (r < length (heap w))%nat -> heap w' !! r = heap w !! r.

(** The courses of the sessions that [random_solution] instantiates, in
    order, and their number; [spec_cardinality] is the number that the
    specification gives, with its default of 2. *)
Definition sessions (g : globals) (req : gmap string Z) : list string :=
  courses g ≫= (λ c, replicate (Z.to_nat (default 1 (req !! c))) c).

Definition cardinality (g : globals) (req : gmap string Z) : Z :=
  Zsum ((λ c, Z.max 0 (default 1 (req !! c))) <$> courses g).

Definition spec_cardinality (g : globals) (req : gmap string Z) : Z :=
  Zsum ((λ c, default 2 (req !! c)) <$> courses g).

(** The history of a run: iterations numbered from 1, and best costs that
    never go up and never go below the best cost [bc] reached. *)
Definition non_increasing (l : list Z) : Prop :=
  ∀ i j x y, (i < j)%nat -> l !! i = Some x -> l !! j = Some y -> y <= x.

Definition hist_ok (h : history) (bc : Z) : Prop :=
  h_iter h = seq 1 (length (h_best_cost h))
  ∧ non_increasing (h_best_cost h)
  ∧ Forall (λ x, bc <= x) (h_best_cost h).

(** ** The penalty of the loop, counted

    The teacher that the cost function reads for an assignment, and the
    events that it charges. *)
Definition teacher_in (tc : gmap string string) (a : assignment) : string :=
  default "" (tc !! course_of a).

Definition has_teacher (tc : gmap string string) (a : assignment) : Prop :=
  teacher_in tc a ≠ "".

Definition unpreferred (g : globals) (tc : gmap string string) (a : assignment) : Prop :=
  match preferred_slots g !! teacher_in tc a with
  | Some (p :: ps) => slot_of a ∉ p :: ps
  | _ => False
  end.

Definition malformed (a : assignment) : Prop :=
  match parse_fresh (slot_of a) with
  | Ok _ => False
  | Raise _ => True
  end.

#[export] Instance has_teacher_dec tc a : Decision (has_teacher tc a).
Proof. unfold has_teacher. apply _. Defined.

#[export] Instance unpreferred_dec g tc a : Decision (unpreferred g tc a).
Proof. unfold unpreferred. repeat case_match; apply _. Defined.

#[export] Instance malformed_dec a : Decision (malformed a).
Proof. unfold malformed. case_match; apply _. Defined.

Definition key_fac (tc : gmap string string) (a : assignment) : string * string :=
  (teacher_in tc a, slot_of a).

Definition key_room (a : assignment) : string * string := (room_of a, slot_of a).

Definition how_many {A} (P : A -> Prop) `{∀ a, Decision (P a)} (l : list A) : Z :=
  Z.of_nat (length (filter P l)).

Definition distinct (l : list (string * string)) : Z :=
  Z.of_nat (size (list_to_set l : gset (string * string))).

(** The penalty of the loop over the timetable in closed form: one
    [missing_teacher] per assignment without a teacher and, among the
    others, one conflict per repetition of a (teacher, slot) pair and of a
    (room, slot) pair, one [not_preferred] per slot outside a non-empty
    preference list, and one [malformed_slot] per label that does not
    parse. *)
Definition loop_penalty (g : globals) (tc : gmap string string)
    (tt : list assignment) : Z :=
  let A := filter (has_teacher tc) tt in
  let n := Z.of_nat (length A) in
  missing_teacher (WEIGHTS g) * (Z.of_nat (length tt) - n)
  + teacher_slot_conflict (WEIGHTS g) * (n - distinct (key_fac tc <$> A))
  + room_slot_conflict (WEIGHTS g) * (n - distinct (key_room <$> A))
  + not_preferred (WEIGHTS g) * how_many (unpreferred g tc) A
  + malformed_slot (WEIGHTS g) * how_many malformed A.

(** ** The day-level penalty, counted

    [d.get(k)] on an insertion-ordered dictionary, the start minutes that
    [faculty_schedule] holds for a teacher and a day, and its keys. *)
Fixpoint alist_get {V} (k : string) (d : list (string * V)) : option V :=
  match d with
  | [] => None
  | (k', v) :: d' => if decide (k' = k) then Some v else alist_get k d'
  end.

Definition sched_get (sch : list (string * list (string * list Z)))
    (k : string * string) : list Z :=
  default [] (alist_get k.1 sch ≫= alist_get k.2).

Definition sched_keys (sch : list (string * list (string * list Z)))
    : list (string * string) :=
  sch ≫= (λ '(t, days), (λ dl, (t, dl.1)) <$> days).

Definition sched_record (r : string * string * Z)
    (sch : list (string * list (string * list Z)))
    : list (string * list (string * list Z)) :=
  setdefault_with r.1.1 []
    (setdefault_with r.1.2 [] (λ starts, (starts ++ [r.2])%list)) sch.

Definition sched_wf (sch : list (string * list (string * list Z))) : Prop :=
  NoDup sch.*1 ∧ Forall (λ td, NoDup td.2.*1) sch.

(** The sessions that the loop records, in order: teacher, day and start
    minute of every assignment that has a teacher and a slot that parses. *)
Definition recorded (tc : gmap string string) (tt : list assignment)
    : list (string * string * Z) :=
  omap (λ a, if decide (has_teacher tc a)
             then match parse_fresh (slot_of a) with
                  | Ok (day, m) => Some (teacher_in tc a, day, m)
                  | Raise _ => None
                  end
             else None) tt.

(** The start minutes recorded for a teacher and a day. *)
Definition starts_of (rec : list (string * string * Z)) (k : string * string) : list Z :=
  omap (λ r, if decide (r.1 = k) then Some r.2 else None) rec.

(** The cost in closed form: the penalty of the loop, plus the rule of the
    specification on the sorted start minutes of every teacher and day that
    has a session. *)
Definition closed_cost (g : globals) (tc : gmap string string)
    (tt : list assignment) : Z :=
  loop_penalty g tc tt
  + Zsum ((λ k, spec_bucket (WEIGHTS g) (merge_sort Z.le (starts_of (recorded tc tt) k)))
            <$> remove_dups (recorded tc tt).*1).

(** Weights of which none is negative. *)
Definition non_negative (W : weights) : Prop :=
  0 <= teacher_slot_conflict W ∧ 0 <= room_slot_conflict W
  ∧ 0 <= missing_teacher W ∧ 0 <= malformed_slot W
  ∧ 0 <= not_preferred W ∧ 0 <= back_to_back W ∧ 0 <= gap W
  ∧ 0 <= too_many_sessions_day W.

(** ** The neighbourhood

    The edits that [neighbor_solution] makes to a solution [l]: the slots
    of two positions exchanged, two positions exchanged, a new slot (from
    the catalogue or from the preferences of the teacher) with the room kept
    or drawn again, or a new room. *)
Inductive edit (g : globals) (l : list assignment) : list assignment -> Prop :=
  | swap_slots i j c1 s1 r1 c2 s2 r2 :
      i ≠ j -> l !! i = Some (c1, s1, r1) -> l !! j = Some (c2, s2, r2) ->
      edit g l (<[j := (c2, s1, r2)]> (<[i := (c1, s2, r1)]> l))
  | swap_assignments i j a b :
      i ≠ j -> l !! i = Some a -> l !! j = Some b ->
      edit g l (<[j := a]> (<[i := b]> l))
  | new_slot idx c s r slot room :
      l !! idx = Some (c, s, r) ->
      slot ∈ slots g
      ∨ (∃ p, preferred_slots g !! teacher_of g c = Some p ∧ slot ∈ p) ->
      room = r ∨ room ∈ rooms g ->
      edit g l (<[idx := (c, slot, room)]> l)
  | new_room idx c s r room :
      l !! idx = Some (c, s, r) -> room ∈ rooms g ->
      edit g l (<[idx := (c, s, room)]> l).

(** An assignment drawn from the catalogues: its room is a room of the
    catalogue, its slot a slot of the catalogue or of a preference list. *)
Definition from_catalogues (g : globals) (a : assignment) : Prop :=
  room_of a ∈ rooms g
  ∧ (slot_of a ∈ slots g
     ∨ ∃ teacher p, preferred_slots g !! teacher = Some p ∧ slot_of a ∈ p).

(** ** What the search keeps

    A complete timetable for the sessions [S]: one assignment per session,
    drawn from the catalogues. *)
Definition complete (g : globals) (S : list string) (l : list assignment) : Prop :=
  course_of <$> l ≡ₚ S ∧ Forall (from_catalogues g) l.

(** The local variables of the annealing loop at the head of a turn, in a
    world: the caches are those of the start, [current] and [best] are
    complete timetables whose costs are [current_cost] and [best_cost]. *)
Definition sa_state (g : globals) (F : float_model) (tc : gmap string string)
    (S : list string) (st : sa_locals F) (w : world) : Prop :=
  cache_consistent (_slot_parsed w)
  ∧ _course_teacher_cache w = tc
  ∧ best_cost st <= current_cost st
  ∧ ∃ lc lb, heap w !! current st = Some lc ∧ heap w !! best st = Some lb
      ∧ complete g S lc ∧ complete g S lb
      ∧ current_cost st = cost_value g tc lc
      ∧ best_cost st = cost_value g tc lb.

(** The shape of a history: three lists of one length, iterations numbered
    from 1, each best cost at most the current cost of its iteration, the
    last best cost being [bc]; and, when the search stops at cost zero, no
    zero before the last entry. *)
Definition hist_shape (h : history) (bc : Z) (stop_if_zero : bool) : Prop :=
  length (h_current_cost h) = length (h_best_cost h)
  ∧ h_iter h = seq 1 (length (h_best_cost h))
  ∧ (∀ i b c, h_best_cost h !! i = Some b -> h_current_cost h !! i = Some c -> b <= c)
  ∧ (h_best_cost h = [] ∨ last (h_best_cost h) = Some bc)
  ∧ (stop_if_zero = true ->
     ∀ i x, h_best_cost h !! i = Some x -> (S i < length (h_best_cost h))%nat -> x ≠ 0).

(** The history at the head of a turn: as [hist_shape], and without any
    zero when the search stops at cost zero. *)
Definition hist_running (h : history) (bc : Z) (stop_if_zero : bool) : Prop :=
  length (h_current_cost h) = length (h_best_cost h)
  ∧ h_iter h = seq 1 (length (h_best_cost h))
  ∧ (∀ i b c, h_best_cost h !! i = Some b -> h_current_cost h !! i = Some c -> b <= c)
  ∧ (h_best_cost h = [] ∨ last (h_best_cost h) = Some bc)
  ∧ (stop_if_zero = true -> Forall (λ x, x ≠ 0) (h_best_cost h)).

(** ** The analysis

    One turn of the loop of [analyze_results] and of [generate_timetable]
    that counts the preferred-slot matches: [acc] is
    [(pref_hits, total_with_prefs)]. *)
Definition count_preference (g : globals) (acc : Z * Z) (a : assignment) : Z * Z :=
  let teacher := default "" (faculty g !! course_of a) in
  match preferred_slots g !! teacher with
  | Some p => (if decide (slot_of a ∈ p) then acc.1 + 1 else acc.1, acc.2 + 1)
  | None => acc
  end.

Definition preference_matches (g : globals) (best_tt : list assignment) : Z * Z :=
  foldl (count_preference g) (0, 0) best_tt.

(** [analyze_results], up to the numbers that its summary prints: the cost
    of the timetable, [pref_hits] and [total_with_prefs]. *)
Definition analyze_results (g : globals) (best_tt : loc) : M (Z * Z * Z) :=
  best_cost ← cost_function g best_tt;
  tt ← elements_of best_tt;
  let '(pref_hits, total_with_prefs) := preference_matches g tt in
  mret (best_cost, pref_hits, total_with_prefs).

(** The teacher of the course of an assignment has an entry in
    [preferred_slots]; the slot of the assignment is in that entry. *)
Definition has_preferences (g : globals) (a : assignment) : Prop :=
  is_Some (preferred_slots g !! teacher_of g (course_of a)).

Definition preference_met (g : globals) (a : assignment) : Prop :=
  match preferred_slots g !! teacher_of g (course_of a) with
  | Some p => slot_of a ∈ p
  | None => False
  end.

#[export] Instance has_preferences_dec g a : Decision (has_preferences g a).
Proof. unfold has_preferences. apply _. Defined.

#[export] Instance preference_met_dec g a : Decision (preference_met g a).
Proof. unfold preference_met. case_match; apply _. Defined.

(** A timetable with an assignment that misses the preference of its
    teacher, and the world that holds it. *)
Definition demo_unpreferred : list assignment :=
  [("AI", "Tue 09:00-10:00", "Lab1"); ("DB", "Mon 09:00-10:00", "Lab2")].

Definition demo_unpreferred_world : world :=
  set_heap [demo_unpreferred] demo_world.

(** Six sessions of one teacher on one day, two of them starting at the
    same minute, and the world that holds them. *)
Definition demo_long_day : list assignment :=
  [("AI", "Mon 10:00-11:00", "Lab1"); ("AI", "Mon 09:00-10:00", "Lab1");
   ("AI", "Mon 12:00-13:00", "Lab1"); ("AI", "Mon 09:00-09:30", "Lab1");
   ("AI", "Mon 13:00-14:00", "Lab1"); ("AI", "Mon 14:00-15:00", "Lab1")].

Definition demo_long_day_world : world := set_heap [demo_long_day] demo_world.

(** The demonstration world before [refresh_caches] has filled the teacher
    cache. *)
Definition demo_stale_world : world := set_course_teacher_cache ∅ demo_world.

(** ["1" * n], to try [int] on long runs of digits. *)
Definition digit_run (n : nat) : string := Nat.iter n (String "1") "".

(** ** A program logic for the monad

    [wp m w Q E]: run from [w], [m] either returns [a] in a world [w'] with
    [Q a w'], or raises [e] in a world [w'] with [E e w']. *)
Definition wp {A} (m : M A) (w : world) (Q : A -> world -> Prop)
    (E : exn -> world -> Prop) : Prop :=
  match m w with
  | (Ok a, w') => Q a w'
  | (Raise e, w') => E e w'
  end.

(** Postconditions of computations that cannot raise. *)
Definition never : exn -> world -> Prop := λ _ _, False.

(** * Proofs *)

Example split_ex1 : Str.split "-" "a--b" = ["a"; ""; "b"].
Proof. reflexivity. Qed.

Example split_ex2 : Str.split1 " " " Mon 1" = [""; "Mon 1"].
Proof. reflexivity. Qed.

Example int_ex :
  Str.int "  +12 " = Some 12 /\ Str.int "1_0" = Some 10 /\ Str.int "1__0" = None
  /\ Str.int "007" = Some 7 /\ Str.int "-5" = Some (-5) /\ Str.int "+ 5" = None
  /\ Str.int "" = None /\ Str.int "5 5" = None /\ Str.int "_1" = None
  /\ Str.int "1_" = None.
Proof. repeat split; reflexivity. Qed.

(** A run of 4300 digits is converted, a longer one is refused, and so is
    a slot label whose hour is that long. *)
Example int_limit :
  is_Some (Str.int (digit_run 4300))
  /\ Str.int (digit_run 4301) = None
  /\ parse_fresh ("Mon " ++ digit_run 4301 ++ ":00-10:00") = Raise ValueError.
Proof.
  split; [apply (bool_decide_unpack _); vm_compute; exact I|].
  split; vm_compute; reflexivity.
Qed.

Section Logic.

Context {A B : Type}.
Implicit Types (w : world) (E : exn -> world -> Prop).

Lemma bind_run (m : M A) (f : A -> M B) w :
  (m ≫= f) w =
  match m w with
  | (Ok a, w') => f a w'
  | (Raise e, w') => (Raise e, w')
  end.
Proof. reflexivity. Qed.

Lemma wp_run (m : M A) w Q E r w' :
  wp m w Q E -> m w = (r, w') ->
  match r with Ok a => Q a w' | Raise e => E e w' end.
Proof. unfold wp. intros H Hr. rewrite Hr in H. exact H. Qed.

Lemma wp_ret (a : A) w Q E : Q a w -> wp (mret a) w Q E.
Proof. intros H. exact H. Qed.

Lemma wp_bind (m : M A) (f : A -> M B) w Q E :
  wp m w (λ a w', wp (f a) w' Q E) E -> wp (m ≫= f) w Q E.
Proof.
  unfold wp. rewrite bind_run. destruct (m w) as [[a|e] w']; auto.
Qed.

Lemma wp_mono (m : M A) w (Q Q' : A -> world -> Prop) E E' :
  wp m w Q E ->
  (∀ a w', Q a w' -> Q' a w') ->
  (∀ e w', E e w' -> E' e w') ->
  wp m w Q' E'.
Proof.
  unfold wp. destruct (m w) as [[a|e] w']; auto.
Qed.

Lemma wp_post (m : M A) w (Q Q' : A -> world -> Prop) E :
  wp m w Q E -> (∀ a w', Q a w' -> Q' a w') -> wp m w Q' E.
Proof. intros H HQ. eapply wp_mono; eauto. Qed.

Lemma wp_gets (f : world -> A) w Q E : Q (f w) w -> wp (gets f) w Q E.
Proof. intros H. exact H. Qed.

Lemma wp_raise (e : exn) w (Q : A -> world -> Prop) E : E e w -> wp (raise e) w Q E.
Proof. intros H. exact H. Qed.

Lemma wp_try (m : M A) w (Q : result A -> world -> Prop) E :
  wp m w (λ a, Q (Ok a)) (λ e, Q (Raise e)) -> wp (try m) w Q E.
Proof.
  unfold wp, try. destruct (m w) as [[a|e] w']; auto.
Qed.

End Logic.

Lemma wp_modify (f : world -> world) w (Q : unit -> world -> Prop) E :
  Q () (f w) -> wp (modify f) w Q E.
Proof. intros H. exact H. Qed.

(** A loop keeps an invariant indexed by the elements already visited. *)
Lemma wp_for_ {A} (I : list A -> world -> Prop) (l : list A) (body : A -> M unit)
    w E :
  I [] w ->
  (∀ done x w, I done w -> wp (body x) w (λ _, I (done ++ [x])%list) E) ->
  wp (for_ l body) w (λ _, I l) E.
Proof.
  revert I w. induction l as [|x l IH]; intros I w H0 Hstep; simpl.
  - apply wp_ret. exact H0.
  - apply wp_bind. eapply wp_mono; [apply (Hstep [] x w H0) | | auto].
    intros [] w' Hw'. simpl in Hw'.
    apply (IH (λ done, I (x :: done))); [exact Hw'|].
    intros done y w'' Hd. apply (Hstep (x :: done)). exact Hd.
Qed.

Lemma wp_for_acc {A S} (I : list A -> S -> world -> Prop) (l : list A)
    (body : S -> A -> M S) (acc : S) w E :
  I [] acc w ->
  (∀ done x acc w, I done acc w ->
     wp (body acc x) w (λ acc', I (done ++ [x])%list acc') E) ->
  wp (for_acc l body acc) w (I l) E.
Proof.
  revert I acc w. induction l as [|x l IH]; intros I acc w H0 Hstep; simpl.
  - apply wp_ret. exact H0.
  - apply wp_bind. eapply wp_mono; [apply (Hstep [] x acc w H0) | | auto].
    intros acc' w' Hw'. simpl in Hw'.
    apply (IH (λ done, I (x :: done))); [exact Hw'|].
    intros done y acc'' w'' Hd. apply (Hstep (x :: done)). exact Hd.
Qed.

(** ** Strings: splitting and [int] *)

Lemma mem_app c (a b : string) : Str.mem c (a ++ b) = Str.mem c a || Str.mem c b.
Proof.
  induction a as [|d a IH]; simpl; [reflexivity|].
  rewrite IH. apply orb_assoc.
Qed.

Lemma split1_nosep sep s : Str.mem sep s = false -> Str.split1 sep s = [s].
Proof.
  induction s as [|c s IH]; simpl; [reflexivity|].
  intros H. apply orb_false_iff in H as [Hc Hs].
  rewrite Hc, (IH Hs). reflexivity.
Qed.

Lemma split1_app sep a b :
  Str.mem sep a = false -> Str.split1 sep (a ++ String sep b) = [a; b].
Proof.
  induction a as [|c a IH]; simpl.
  - intros _. rewrite Ascii.eqb_refl. reflexivity.
  - intros H. apply orb_false_iff in H as [Hc Ha].
    rewrite Hc, (IH Ha). reflexivity.
Qed.

(** A string either has no separator or factors at its first one. *)
Lemma first_sep sep s :
  Str.mem sep s = false
  ∨ ∃ a b, s = a ++ String sep b ∧ Str.mem sep a = false.
Proof.
  induction s as [|c s IH]; [left; reflexivity|].
  destruct (Ascii.eqb c sep) eqn:Hc.
  - right. exists "", s. apply Ascii.eqb_eq in Hc. subst c. split; reflexivity.
  - destruct IH as [Hs | (a & b & -> & Ha)].
    + left. simpl. rewrite Hc, Hs. reflexivity.
    + right. exists (String c a), b. split; [reflexivity|].
      simpl. rewrite Hc, Ha. reflexivity.
Qed.

Lemma split1_two sep s a b :
  Str.split1 sep s = [a; b] -> s = a ++ String sep b ∧ Str.mem sep a = false.
Proof.
  destruct (first_sep sep s) as [Hs | (a' & b' & -> & Ha)].
  - rewrite (split1_nosep _ _ Hs). discriminate.
  - rewrite (split1_app _ _ _ Ha). intros [= -> ->]. split; [reflexivity|exact Ha].
Qed.

Lemma split_nosep sep s : Str.mem sep s = false -> Str.split sep s = [s].
Proof.
  induction s as [|c s IH]; simpl; [reflexivity|].
  intros H. apply orb_false_iff in H as [Hc Hs].
  rewrite Hc, (IH Hs). reflexivity.
Qed.

Lemma split_app sep a b :
  Str.mem sep a = false ->
  Str.split sep (a ++ String sep b) = a :: Str.split sep b.
Proof.
  induction a as [|c a IH]; simpl.
  - intros _. rewrite Ascii.eqb_refl. reflexivity.
  - intros H. apply orb_false_iff in H as [Hc Ha].
    rewrite Hc, (IH Ha). reflexivity.
Qed.

Lemma split_nonempty sep s : Str.split sep s ≠ [].
Proof.
  destruct s as [|c s]; simpl; [discriminate|].
  destruct (Ascii.eqb c sep); [discriminate|].
  destruct (Str.split sep s); discriminate.
Qed.

Lemma split_two sep s a b :
  Str.split sep s = [a; b] ->
  s = a ++ String sep b ∧ Str.mem sep a = false ∧ Str.mem sep b = false.
Proof.
  destruct (first_sep sep s) as [Hs | (a' & b' & -> & Ha)].
  - rewrite (split_nosep _ _ Hs). discriminate.
  - rewrite (split_app _ _ _ Ha). intros [= -> Hb].
    destruct (first_sep sep b') as [Hn | (a2 & b2 & -> & Ha2)].
    + rewrite (split_nosep _ _ Hn) in Hb. injection Hb as <-. auto.
    + rewrite (split_app _ _ _ Ha2) in Hb. injection Hb as _ Hb.
      destruct (split_nonempty _ _ Hb).
Qed.

Lemma app_empty_str (a : string) : a ++ "" = a.
Proof.
  induction a as [|c a IH]; [reflexivity|].
  change (String c (a ++ "") = String c a). f_equal. exact IH.
Qed.

(** The first piece of [split] is the text before the first separator. *)
Lemma split_head sep s :
  ∃ rest, s = hd "" (Str.split sep s) ++ rest
          ∧ Str.mem sep (hd "" (Str.split sep s)) = false
          ∧ (rest = "" ∨ ∃ r, rest = String sep r).
Proof.
  destruct (first_sep sep s) as [Hs | (a & b & -> & Ha)].
  - exists "". rewrite (split_nosep _ _ Hs). simpl.
    split; [|split; [exact Hs | left; reflexivity]].
    symmetry. apply app_empty_str.
  - exists (String sep b). rewrite (split_app _ _ _ Ha). simpl.
    split; [reflexivity|]. split; [exact Ha | right; eauto].
Qed.

Lemma split_head_app sep a rest :
  Str.mem sep a = false -> (rest = "" ∨ ∃ r, rest = String sep r) ->
  hd "" (Str.split sep (a ++ rest)) = a.
Proof.
  intros Ha [-> | [r ->]].
  - rewrite app_empty_str, (split_nosep _ _ Ha). reflexivity.
  - rewrite (split_app _ _ _ Ha). reflexivity.
Qed.

Lemma app_assoc_str (a b c : string) : (a ++ b) ++ c = a ++ (b ++ c).
Proof.
  induction a as [|d a IH]; [reflexivity|].
  change (String d ((a ++ b) ++ c) = String d (a ++ (b ++ c))). f_equal. exact IH.
Qed.

Lemma mem_lstrip c s : Str.mem c (Str.lstrip s) = true -> Str.mem c s = true.
Proof.
  induction s as [|d s IH]; simpl; [auto|].
  destruct (Str.is_space d); [|auto].
  intros H. rewrite (IH H). apply orb_true_r.
Qed.

Lemma mem_rstrip c s : Str.mem c (Str.rstrip s) = true -> Str.mem c s = true.
Proof.
  induction s as [|d s IH]; simpl; [auto|].
  destruct (Str.rstrip s) as [|e r] eqn:Hr.
  - destruct (Str.is_space d); simpl; [discriminate|].
    rewrite orb_false_r. intros ->. reflexivity.
  - simpl. intros H. apply orb_true_iff in H as [H|H]; [rewrite H; reflexivity|].
    simpl in IH. rewrite (IH H). apply orb_true_r.
Qed.

Lemma digit_of_range c d : Str.digit_of c = Some d -> 0 <= d <= 9.
Proof.
  unfold Str.digit_of. case_match eqn:H; [|discriminate].
  intros [= <-]. apply andb_true_iff in H as [H1 H2]. lia.
Qed.

Lemma digits_nonneg s : ∀ acc seen z,
  0 <= acc -> Str.digits acc seen s = Some z -> 0 <= z.
Proof.
  induction s as [|c s IH]; intros acc seen z Hacc; simpl.
  - destruct seen; [intros [= <-]; exact Hacc | discriminate].
  - destruct (Str.digit_of c) as [d|] eqn:Hd.
    + apply digit_of_range in Hd. apply IH. lia.
    + destruct (Ascii.eqb c "_" && seen); [apply IH; exact Hacc | discriminate].
Qed.

(** A number written without a minus sign is not negative. *)
Lemma int_nonneg s z : Str.mem "-" s = false -> Str.int s = Some z -> 0 <= z.
Proof.
  intros Hm. unfold Str.int.
  destruct (Str.strip s) as [|c r] eqn:Hs; [discriminate|].
  assert (Hc : c ≠ "-"%char).
  { intros ->. assert (Str.mem "-" (Str.strip s) = true) as H by (rewrite Hs; reflexivity).
    unfold Str.strip in H. apply mem_rstrip, mem_lstrip in H. congruence. }
  assert (Hd : ∀ t, Str.number t = Some z -> 0 <= z).
  { intros t. unfold Str.number. destruct (Str.max_str_digits <? Str.ndigits t);
      [discriminate|]. apply digits_nonneg. lia. }
  destruct c as [[] [] [] [] [] [] [] []]; try apply Hd; congruence.
Qed.

(** ** [parse_slot] *)

Lemma parse_fresh_Ok_iff label day v :
  parse_fresh label = Ok (day, v)
  ↔ ∃ hh mm, reads_as label day hh mm ∧ v = hh * 60 + mm.
Proof.
  unfold parse_fresh, reads_as. split.
  - destruct (Str.split1 " " label) as [|d [|tr [|]]] eqn:H1; try discriminate.
    apply split1_two in H1 as [-> Hd].
    destruct (split_head "-" tr) as (rest & Htr & Hst & Hrest).
    destruct (Str.split ":" (hd "" (Str.split "-" tr))) as [|h [|m [|]]] eqn:H2;
      try discriminate.
    apply split_two in H2 as (Hs & Hh & Hm).
    destruct (Str.int h) as [hh|] eqn:Hhh; [|discriminate].
    destruct (Str.int m) as [mm|] eqn:Hmm; [|discriminate].
    intros [= -> <-]. exists hh, mm. split; [|reflexivity].
    exists h, m, rest. rewrite Hs in Hst, Htr.
    change (h ++ String ":" m) with (h ++ ":" ++ m) in Hst, Htr.
    rewrite mem_app in Hst. apply orb_false_iff in Hst as [Hh' Hm'].
    simpl in Hm'. rewrite app_assoc_str in Htr.
    repeat split; auto. rewrite Htr at 1. reflexivity.
  - intros (hh & mm & (h & m & rest & -> & Hd & Hh1 & Hh2 & Hm1 & Hm2 & Hrest & Hhh & Hmm) & ->).
    assert (Hre : h ++ ":" ++ m ++ rest = (h ++ String ":" m) ++ rest)
      by (rewrite app_assoc_str; reflexivity).
    change (day ++ " " ++ h ++ ":" ++ m ++ rest)
      with (day ++ String " " (h ++ ":" ++ m ++ rest)).
    rewrite Hre, (split1_app _ _ _ Hd).
    rewrite split_head_app; [| |exact Hrest].
    + rewrite (split_app _ _ _ Hh2), (split_nosep _ _ Hm2), Hhh, Hmm. reflexivity.
    + rewrite mem_app. simpl. rewrite Hh1, Hm1. reflexivity.
Qed.

Lemma set_slot_parsed_id w : set_slot_parsed (_slot_parsed w) w = w.
Proof. destruct w; reflexivity. Qed.

Lemma cache_consistent_empty : cache_consistent ∅.
Proof. intros k v H. rewrite lookup_empty in H. discriminate. Qed.

Lemma cache_consistent_insert c k v :
  cache_consistent c -> parse_fresh k = Ok v -> cache_consistent (<[k := v]> c).
Proof.
  intros Hc Hk k' v'. rewrite lookup_insert. case_decide as Hkk.
  - subst k'. intros [= <-]. exact Hk.
  - apply Hc.
Qed.

(** On a consistent cache [parse_slot] computes [parse_fresh]; it changes
    nothing but the cache, which it leaves consistent. *)
Lemma parse_slot_run label w :
  cache_consistent (_slot_parsed w) ->
  ∃ c, parse_slot label w = (parse_fresh label, set_slot_parsed c w)
       ∧ cache_consistent c.
Proof.
  intros Hc. unfold parse_slot. rewrite bind_run. unfold gets.
  destruct (_slot_parsed w !! label) as [v|] eqn:Hl.
  - exists (_slot_parsed w). rewrite set_slot_parsed_id, (Hc _ _ Hl). auto.
  - destruct (parse_fresh label) as [v|e] eqn:Hp.
    + exists (<[label := v]> (_slot_parsed w)). split; [reflexivity|].
      apply cache_consistent_insert; assumption.
    + exists (_slot_parsed w). rewrite set_slot_parsed_id. auto.
Qed.

Lemma parse_slot_value label w :
  cache_consistent (_slot_parsed w) -> (parse_slot label w).1 = parse_fresh label.
Proof.
  intros Hc. destruct (parse_slot_run label w Hc) as (c & -> & _). reflexivity.
Qed.

(** C7, as stated, fails: a label without the dash and the end time parses,
    and so does a label whose end time is not numeric. *)
Lemma parse_slot_accepts_missing_dash :
  spec_shape "Mon 09:00" = false
  ∧ (parse_slot "Mon 09:00" (fresh_world [])).1 = Ok ("Mon", 540)
  ∧ spec_shape "Mon 09:00-noon" = false
  ∧ (parse_slot "Mon 09:00-noon" (fresh_world [])).1 = Ok ("Mon", 540).
Proof. repeat split; vm_compute; reflexivity. Qed.

(** C7, amended: [parse_slot] raises exactly on the labels that do not read
    as a day, a space and a start time of two integer fields around a colon;
    the text from the first dash on, or its absence, plays no part. *)
Theorem parse_slot_raises_iff label w :
  cache_consistent (_slot_parsed w) ->
  (∃ e, (parse_slot label w).1 = Raise e)
  ↔ ¬ ∃ day hh mm, reads_as label day hh mm.
Proof.
  intros Hc. rewrite (parse_slot_value _ _ Hc). split.
  - intros [e He] (day & hh & mm & Hr).
    assert (parse_fresh label = Ok (day, hh * 60 + mm)) as H
      by (apply parse_fresh_Ok_iff; eauto).
    congruence.
  - intros Hn. destruct (parse_fresh label) as [[day v]|e] eqn:Hp; [|eauto].
    apply parse_fresh_Ok_iff in Hp as (hh & mm & Hr & _).
    destruct Hn. eauto.
Qed.

Lemma parse_slot_raises_iff_witness :
  (∃ e, (parse_slot "BadSlot" (fresh_world [])).1 = Raise e)
  ↔ ¬ ∃ day hh mm, reads_as "BadSlot" day hh mm.
Proof.
  apply (parse_slot_raises_iff "BadSlot" (fresh_world [])).
  simpl. exact cache_consistent_empty.
Defined.

(** C8, as stated, fails: hours are not bounded. *)
Lemma parse_slot_start_minute_unbounded :
  (parse_slot "Mon 25:00-26:00" (fresh_world [])).1 = Ok ("Mon", 1500)
  ∧ ¬ (0 <= 1500 < 1440).
Proof. split; [vm_compute; reflexivity | lia]. Qed.

(** C8, amended: a successful parse yields [hh * 60 + mm] for the two
    fields read, which are not negative; the start minute is therefore not
    negative, and it is below 1440 when [hh < 24] and [mm < 60]. *)
Theorem parse_slot_start_minute label w day start_minutes :
  cache_consistent (_slot_parsed w) ->
  (parse_slot label w).1 = Ok (day, start_minutes) ->
  ∃ hh mm, reads_as label day hh mm
    ∧ start_minutes = hh * 60 + mm
    ∧ 0 <= hh ∧ 0 <= mm ∧ 0 <= start_minutes
    ∧ (hh < 24 -> mm < 60 -> start_minutes < 1440).
Proof.
  intros Hc. rewrite (parse_slot_value _ _ Hc). intros Hp.
  apply parse_fresh_Ok_iff in Hp as (hh & mm & Hr & ->).
  exists hh, mm. split; [exact Hr|]. split; [reflexivity|].
  destruct Hr as (h & m & rest & _ & _ & Hh & _ & Hm & _ & _ & Hhh & Hmm).
  pose proof (int_nonneg _ _ Hh Hhh). pose proof (int_nonneg _ _ Hm Hmm).
  repeat split; lia.
Qed.

Lemma parse_slot_start_minute_witness :
  ∃ hh mm, reads_as "Mon 09:30-11:00" "Mon" hh mm
    ∧ 570 = hh * 60 + mm
    ∧ 0 <= hh ∧ 0 <= mm ∧ 0 <= 570
    ∧ (hh < 24 -> mm < 60 -> 570 < 1440).
Proof.
  apply (parse_slot_start_minute "Mon 09:30-11:00" (fresh_world []) "Mon" 570).
  - simpl. exact cache_consistent_empty.
  - vm_compute. reflexivity.
Defined.

(** ** The day-level penalties *)

Lemma day_level_buckets g schedule :
  day_level g schedule = Zsum (day_penalty g <$> buckets schedule).
Proof.
  unfold day_level, buckets. induction schedule as [|[teacher days] sch IH]; [reflexivity|].
  cbn [foldr]. rewrite IH. cbn [mbind list_bind]. rewrite fmap_app.
  unfold Zsum at 2. rewrite foldr_app. fold (Zsum (day_penalty g <$> (sch ≫= λ '(_, days), days.*2))).
  generalize (Zsum (day_penalty g <$> (sch ≫= λ '(_, days), days.*2))) as z. intros z.
  induction days as [|[day starts] days IHd]; [reflexivity|].
  cbn [foldr fmap list_fmap snd]. cbn [foldr fmap list_fmap snd] in IHd.
  rewrite <- IHd. lia.
Qed.

(** The penalty of one difference, as [pair_penalty] charges it. *)
Lemma pair_penalty_cons g a l i :
  (1 <= i)%nat -> pair_penalty g (a :: l) (S i) = pair_penalty g l i.
Proof.
  intros Hi. unfold pair_penalty. destruct i as [|j]; [lia|].
  cbn [lookup list_lookup Nat.sub]. rewrite !Nat.sub_0_r. reflexivity.
Qed.

Lemma pair_sum_shift g a l n : ∀ k, (1 <= k)%nat ->
  foldr (λ i acc, pair_penalty g (a :: l) i + acc) 0 (seq (S k) n)
  = foldr (λ i acc, pair_penalty g l i + acc) 0 (seq k n).
Proof.
  induction n as [|n IH]; intros k Hk; [reflexivity|].
  cbn [seq foldr]. rewrite (pair_penalty_cons _ _ _ _ Hk), IH by lia. reflexivity.
Qed.

Lemma pair_sum_differences g l :
  foldr (λ i acc, pair_penalty g l i + acc) 0 (seq 1 (length l - 1))
  = back_to_back (WEIGHTS g) * count_if (λ d, 0 < d ∧ d <= 60) (differences l)
    + gap (WEIGHTS g) * count_if (λ d, 60 < d) (differences l).
Proof.
  unfold count_if. induction l as [|a [|b l] IH]; [cbn; lia | cbn; lia |].
  cbn [length Nat.sub seq foldr]. cbn [length Nat.sub] in IH.
  rewrite Nat.sub_0_r in IH. rewrite pair_sum_shift by lia. rewrite IH.
  cbn [differences]. rewrite !filter_cons.
  unfold pair_penalty. cbn [lookup list_lookup Nat.sub default from_option id].
  destruct (decide (0 < b - a ∧ b - a <= 60)) as [H1|H1];
    destruct (decide (60 < b - a)) as [H2|H2]; cbn [length].
  - exfalso. lia.
  - replace ((0 <? b - a) && (b - a <=? 60)) with true by (symmetry; apply andb_true_iff; lia).
    lia.
  - replace ((0 <? b - a) && (b - a <=? 60)) with false by (symmetry; apply andb_false_iff; lia).
    replace (60 <? b - a) with true by lia. lia.
  - replace ((0 <? b - a) && (b - a <=? 60)) with false by (symmetry; apply andb_false_iff; lia).
    replace (60 <? b - a) with false by lia. lia.
Qed.

Lemma differences_sorted l : Sorted Z.le l -> Forall (λ d, 0 <= d) (differences l).
Proof.
  induction 1 as [|a l Hs IH Hhd]; [constructor|].
  destruct l as [|b l]; [constructor|].
  cbn [differences]. constructor; [|exact IH].
  inversion Hhd; subst. lia.
Qed.

(** ** The cost function on a consistent cache *)

Lemma cost_step_run g st a w :
  cache_consistent (_slot_parsed w) ->
  ∃ c, cost_step g st a w
       = (Ok (step_on g (_course_teacher_cache w) st a), set_slot_parsed c w)
       ∧ cache_consistent c.
Proof.
  intros Hc. destruct a as [[course slot] room]. unfold cost_step, step_on.
  rewrite bind_run. unfold gets.
  destruct (decide (default "" (_course_teacher_cache w !! course) = "")).
  - exists (_slot_parsed w). rewrite set_slot_parsed_id. auto.
  - rewrite bind_run. unfold try.
    destruct (parse_slot_run slot w Hc) as (c & -> & Hc').
    exists c. split; [|exact Hc'].
    destruct (parse_fresh slot) as [[day m]|e]; reflexivity.
Qed.

Lemma cost_loop_run g w : ∀ tt st,
  cache_consistent (_slot_parsed w) ->
  ∃ c, for_acc tt (cost_step g) st w
       = (Ok (foldl (step_on g (_course_teacher_cache w)) st tt), set_slot_parsed c w)
       ∧ cache_consistent c.
Proof.
  intros tt. revert w. induction tt as [|a tt IH]; intros w st Hc.
  - exists (_slot_parsed w). rewrite set_slot_parsed_id. auto.
  - cbn [for_acc foldl]. rewrite bind_run.
    destruct (cost_step_run g st a w Hc) as (c1 & -> & Hc1).
    destruct (IH (set_slot_parsed c1 w) (step_on g (_course_teacher_cache w) st a) Hc1)
      as (c2 & -> & Hc2).
    exists c2. auto.
Qed.

(** The cost function returns [cost_value], a function of the globals, the
    teacher cache and the timetable; it never raises, and it leaves the
    world as it was up to the slot cache. *)
Lemma cost_function_run g t w :
  cache_consistent (_slot_parsed w) ->
  ∃ c, cost_function g t w
       = (Ok (cost_value g (_course_teacher_cache w) (default [] (heap w !! t))),
          set_slot_parsed c w)
       ∧ cache_consistent c.
Proof.
  intros Hc. unfold cost_function, cost_value. rewrite bind_run.
  unfold elements_of, gets. rewrite bind_run.
  destruct (cost_loop_run g w (default [] (heap w !! t))
              {| penalty := 0; used_faculty := ∅; used_rooms := ∅;
                 faculty_schedule := [] |} Hc) as (c & -> & Hc').
  exists c. auto.
Qed.

(** ** [refresh_caches] *)

Lemma wp_of_run {A} (m : M A) w a w' (Q : A -> world -> Prop) E :
  m w = (Ok a, w') -> Q a w' -> wp m w Q E.
Proof. unfold wp. intros ->. auto. Qed.

Lemma run_of_wp {A} (m : M A) w (Q : A -> world -> Prop) :
  wp m w Q never -> ∃ a w', m w = (Ok a, w') ∧ Q a w'.
Proof. unfold wp, never. destruct (m w) as [[a|e] w']; [eauto | tauto]. Qed.

(** [refresh_caches] never raises; it leaves a consistent slot cache and
    the teacher of every course in the teacher cache. *)
Lemma refresh_caches_run g w :
  ∃ c tc, refresh_caches g w
          = (Ok (), set_course_teacher_cache tc (set_slot_parsed c w))
          ∧ cache_consistent c ∧ teacher_cache_fresh g tc.
Proof.
  assert (wp (refresh_caches g) w
            (λ _ w', ∃ c tc, w' = set_course_teacher_cache tc (set_slot_parsed c w)
                             ∧ cache_consistent c ∧ teacher_cache_fresh g tc) never) as H.
  { unfold refresh_caches. apply wp_bind, wp_modify. apply wp_bind.
    eapply wp_post;
      [apply (wp_for_ (λ _ w', ∃ c, w' = set_slot_parsed c w ∧ cache_consistent c))|].
    - exists ∅. split; [reflexivity | apply cache_consistent_empty].
    - intros _ s w1 (c & -> & Hc).
      destruct (parse_slot_run s (set_slot_parsed c w) Hc) as (c' & Hrun & Hc').
      eapply wp_of_run.
      + rewrite bind_run. unfold try. rewrite Hrun. reflexivity.
      + exists c'. auto.
    - intros [] w1 (c & -> & Hc). apply wp_bind, wp_modify.
      eapply wp_post;
        [apply (wp_for_ (λ done w', ∃ tc,
                  w' = set_course_teacher_cache tc (set_slot_parsed c w)
                  ∧ ∀ k, tc !! k = if decide (k ∈ done) then Some (teacher_of g k) else None))|].
      + exists ∅. split; [reflexivity|]. intros k. rewrite lookup_empty.
        rewrite decide_False; [reflexivity | apply not_elem_of_nil].
      + intros done x w2 (tc & -> & Htc). apply wp_modify.
        exists (<[x := default "" (faculty g !! x)]> tc). split; [reflexivity|].
        intros k. rewrite lookup_insert. case_decide as Hk.
        * subst k. rewrite decide_True; [reflexivity|].
          apply elem_of_app. right. apply list_elem_of_singleton. reflexivity.
        * rewrite Htc. destruct (decide (k ∈ done)).
          -- rewrite decide_True; [reflexivity | apply elem_of_app; auto].
          -- rewrite decide_False; [reflexivity|].
             rewrite elem_of_app, list_elem_of_singleton. intros [?|?]; congruence.
      + intros [] w2 (tc & -> & Htc). exists c, tc. auto. }
  apply run_of_wp in H as ([] & w' & Hrun & c & tc & -> & Hc & Htc). eauto.
Qed.

(** ** Determinism of the cost function *)

(** C4, as stated, fails: the cost function reads the teachers from
    [_course_teacher_cache], so what that cache held before the call decides
    the result.  Same configuration, same solution, same slot cache: with the
    teacher cache still empty every course is charged [missing_teacher]. *)
Lemma cost_function_reads_teacher_cache :
  (cost_function demo 0%nat demo_world).1 = Ok 0
  ∧ (cost_function demo 0%nat demo_stale_world).1 = Ok 60000
  ∧ heap demo_stale_world = heap demo_world
  ∧ _slot_parsed demo_stale_world = _slot_parsed demo_world.
Proof.
  split; [vm_compute; reflexivity|]. split; [vm_compute; reflexivity|].
  unfold demo_stale_world. cbn [set_course_teacher_cache heap _slot_parsed].
  split; reflexivity.
Qed.

(** C4, amended: on the same solution, the cost function returns the same
    value whatever the slot cache holds, provided the two worlds hold the
    same teacher cache; a second evaluation in the world left by the first
    returns the same value again; an evaluation changes nothing in the world
    but the slot cache; and once [refresh_caches] has run, the value does
    not depend on what any cache held before. *)
Theorem cost_function_cache_independent g t s w1 w2 :
  heap w1 !! t = Some s -> heap w2 !! t = Some s ->
  (cache_consistent (_slot_parsed w1) -> cache_consistent (_slot_parsed w2) ->
   (_course_teacher_cache w1 = _course_teacher_cache w2 ->
    (cost_function g t w1).1 = (cost_function g t w2).1)
   ∧ (cost_function g t (cost_function g t w1).2).1 = (cost_function g t w1).1
   ∧ ∃ c, (cost_function g t w1).2 = set_slot_parsed c w1 ∧ cache_consistent c)
  ∧ ((refresh_caches g;; cost_function g t) w1).1
    = ((refresh_caches g;; cost_function g t) w2).1.
Proof.
  intros Hs1 Hs2. split.
  - intros Hc1 Hc2.
    destruct (cost_function_run g t w1 Hc1) as (c1 & Hr1 & Hc1').
    destruct (cost_function_run g t w2 Hc2) as (c2 & Hr2 & Hc2').
    destruct (cost_function_run g t (set_slot_parsed c1 w1) Hc1') as (c3 & Hr3 & _).
    rewrite Hr1, Hr2. cbn [fst snd]. rewrite Hr3. cbn [fst].
    rewrite Hs1, Hs2. cbn [set_slot_parsed heap _course_teacher_cache].
    rewrite Hs1. split; [intros ->; reflexivity|]. eauto.
  - destruct (refresh_caches_run g w1) as (c1 & tc1 & Hr1 & Hc1 & Ht1).
    destruct (refresh_caches_run g w2) as (c2 & tc2 & Hr2 & Hc2 & Ht2).
    assert (tc1 = tc2) as <-.
    { apply map_eq. intros k. rewrite Ht1, Ht2. reflexivity. }
    change ((refresh_caches g;; cost_function g t) w1)
      with ((refresh_caches g ≫= λ _, cost_function g t) w1).
    change ((refresh_caches g;; cost_function g t) w2)
      with ((refresh_caches g ≫= λ _, cost_function g t) w2).
    rewrite !bind_run, Hr1, Hr2.
    destruct (cost_function_run g t (set_course_teacher_cache tc1 (set_slot_parsed c1 w1)))
      as (c1' & -> & _); [exact Hc1|].
    destruct (cost_function_run g t (set_course_teacher_cache tc1 (set_slot_parsed c2 w2)))
      as (c2' & -> & _); [exact Hc2|].
    cbn [fst set_course_teacher_cache set_slot_parsed heap _course_teacher_cache].
    rewrite Hs1, Hs2. reflexivity.
Qed.

Lemma demo_world_caches :
  cache_consistent (_slot_parsed demo_world)
  ∧ teacher_cache_fresh demo (_course_teacher_cache demo_world).
Proof.
  unfold demo_world.
  destruct (refresh_caches_run demo (set_heap [demo_solution] (fresh_world [])))
    as (c & tc & -> & Hc & Htc).
  split; assumption.
Qed.

Lemma cost_function_cache_independent_witness :
  (cost_function demo 0%nat demo_world).1
  = (cost_function demo 0%nat (set_slot_parsed ∅ demo_world)).1
  ∧ ((refresh_caches demo;; cost_function demo 0%nat) demo_world).1
    = ((refresh_caches demo;; cost_function demo 0%nat) demo_stale_world).1.
Proof.
  destruct (cost_function_cache_independent demo 0%nat demo_solution
              demo_world (set_slot_parsed ∅ demo_world)) as [H _].
  { vm_compute. reflexivity. }
  { vm_compute. reflexivity. }
  destruct H as (H & _).
  { apply demo_world_caches. }
  { apply cache_consistent_empty. }
  split; [apply H; reflexivity|].
  apply (cost_function_cache_independent demo 0%nat demo_solution
           demo_world demo_stale_world); vm_compute; reflexivity.
Defined.

(** ** A zero cost *)

Lemma count_if_nonneg (P : Z -> Prop) `{∀ d, Decision (P d)} l : 0 <= count_if P l.
Proof. unfold count_if. lia. Qed.

Lemma spec_bucket_nonneg W sorted : penalising W -> 0 <= spec_bucket W sorted.
Proof.
  intros (_ & _ & _ & _ & _ & Hb & Hg & Ht). unfold spec_bucket.
  pose proof (count_if_nonneg (λ d, 0 < d ∧ d <= 60) (differences sorted)).
  pose proof (count_if_nonneg (λ d, 60 < d) (differences sorted)).
  destruct (decide (5 <= length sorted)%nat); nia.
Qed.

Lemma day_penalty_sorted g starts :
  day_penalty g starts = spec_bucket (WEIGHTS g) (merge_sort Z.le starts).
Proof.
  unfold day_penalty, spec_bucket. rewrite pair_sum_differences.
  destruct (decide (5 <= length (merge_sort Z.le starts))%nat) as [H5|H5].
  - replace (5 <=? _)%nat with true by (symmetry; apply Nat.leb_le; lia). lia.
  - replace (5 <=? _)%nat with false by (symmetry; apply Nat.leb_gt; lia). lia.
Qed.

Lemma day_level_nonneg g schedule : penalising (WEIGHTS g) -> 0 <= day_level g schedule.
Proof.
  intros HW. rewrite day_level_buckets.
  induction (buckets schedule) as [|b bs IH]; [reflexivity|].
  cbn [fmap list_fmap Zsum foldr]. fold (Zsum (day_penalty g <$> bs)).
  rewrite day_penalty_sorted. pose proof (spec_bucket_nonneg _ (merge_sort Z.le b) HW). lia.
Qed.

(** One turn of the loop never lowers the penalty; when it leaves it as it
    is, the assignment has a teacher, its two keys are new and are recorded,
    and its slot parses. *)
Lemma step_on_clean g tc st course slot room :
  penalising (WEIGHTS g) ->
  let teacher := default "" (tc !! course) in
  let st' := step_on g tc st (course, slot, room) in
  penalty st <= penalty st'
  ∧ (penalty st' = penalty st ->
     teacher ≠ ""
     ∧ ((teacher, slot) ∉ used_faculty st) ∧ ((room, slot) ∉ used_rooms st)
     ∧ (∃ v, parse_fresh slot = Ok v)
     ∧ used_faculty st' = {[(teacher, slot)]} ∪ used_faculty st
     ∧ used_rooms st' = {[(room, slot)]} ∪ used_rooms st).
Proof.
  intros (H1 & H2 & H3 & H4 & H5 & _) teacher st'. subst teacher st'.
  unfold step_on.
  destruct (decide (default "" (tc !! course) = "")) as [Ht|Ht];
    [cbn; split; [lia | intros; lia]|].
  cbv zeta.
  repeat (first [case_decide | case_match];
          cbn [penalty used_faculty used_rooms faculty_schedule add_penalty
               add_used_faculty add_used_rooms record_start] in *);
  (split; [lia|]); intros Hp; try lia; eauto 10.
Qed.

Lemma cost_pass_clean g tc : penalising (WEIGHTS g) -> ∀ tt st,
  let st' := foldl (step_on g tc) st tt in
  penalty st <= penalty st'
  ∧ (penalty st' = penalty st ->
     Forall (λ a, default "" (tc !! course_of a) ≠ ""
                  ∧ ((default "" (tc !! course_of a), slot_of a) ∉ used_faculty st)
                  ∧ ((room_of a, slot_of a) ∉ used_rooms st)
                  ∧ ∃ v, parse_fresh (slot_of a) = Ok v) tt
     ∧ NoDup ((λ a, (default "" (tc !! course_of a), slot_of a)) <$> tt)
     ∧ NoDup ((λ a, (room_of a, slot_of a)) <$> tt)).
Proof.
  intros HW tt. induction tt as [|[[course slot] room] tt IH]; intros st st'.
  - subst st'. cbn. split; [lia|]. intros _. repeat split; constructor.
  - subst st'. cbn [foldl].
    destruct (step_on_clean g tc st course slot room HW) as [Hle Hclean].
    destruct (IH (step_on g tc st (course, slot, room))) as [Hle' Hrest].
    split; [lia|]. intros Heq.
    destruct Hclean as (Ht & Hf & Hr & Hp & Huf & Hur); [lia|].
    destruct Hrest as (Hall & Hnf & Hnr); [lia|].
    rewrite Huf, Hur in Hall.
    split; [|split].
    + constructor; [cbn; auto|].
      eapply Forall_impl; [exact Hall|]. cbn. intros a (? & Ha1 & Ha2 & ?).
      repeat split; auto; intros Hin; [apply Ha1 | apply Ha2];
        apply elem_of_union_r; exact Hin.
    + cbn [fmap list_fmap]. apply NoDup_cons. split; [|exact Hnf].
      intros Hin. apply list_elem_of_fmap in Hin as (a & Ha & Hin).
      rewrite Forall_forall in Hall. destruct (Hall a Hin) as (_ & Hn & _).
      cbn in Ha. rewrite <- Ha in Hn. apply Hn, elem_of_union_l, elem_of_singleton.
      reflexivity.
    + cbn [fmap list_fmap]. apply NoDup_cons. split; [|exact Hnr].
      intros Hin. apply list_elem_of_fmap in Hin as (a & Ha & Hin).
      rewrite Forall_forall in Hall. destruct (Hall a Hin) as (_ & _ & Hn & _).
      cbn in Ha. rewrite <- Ha in Hn. apply Hn, elem_of_union_l, elem_of_singleton.
      reflexivity.
Qed.

(** The value of the cost function: the penalty of the loop over the
    timetable, plus the rule of the specification on every bucket. *)
Lemma cost_value_buckets g tc tt :
  let st := foldl (step_on g tc)
              {| penalty := 0; used_faculty := ∅; used_rooms := ∅;
                 faculty_schedule := [] |} tt in
  cost_value g tc tt
  = penalty st
    + Zsum ((λ b, spec_bucket (WEIGHTS g) (merge_sort Z.le b))
              <$> buckets (faculty_schedule st)).
Proof.
  intros st. unfold cost_value. fold st. rewrite day_level_buckets. f_equal. f_equal.
  apply list_fmap_ext. intros _ b _. apply day_penalty_sorted.
Qed.

Lemma fresh_teacher g tc c :
  teacher_cache_fresh g tc -> default "" (tc !! c) ≠ "" ->
  default "" (tc !! c) = teacher_of g c
  ∧ ∃ teacher, faculty g !! c = Some teacher ∧ teacher ≠ "".
Proof.
  intros Hf. rewrite (Hf c). unfold teacher_of.
  destruct (decide (c ∈ courses g)); cbn; [|congruence].
  destruct (faculty g !! c) as [t|]; cbn; [eauto | congruence].
Qed.

(** C2: when the cost function returns 0, no two assignments of the
    solution share a teacher and a slot, no two share a room and a slot,
    every course of the solution has a teacher that is not empty, and every
    slot label of the solution parses.  The weight table penalises (hard
    weights positive, no weight negative) and the caches are those of the
    program: a consistent slot cache, a teacher cache left by
    [refresh_caches]. *)
Theorem zero_cost_no_conflicts g w t s :
  penalising (WEIGHTS g) ->
  cache_consistent (_slot_parsed w) ->
  teacher_cache_fresh g (_course_teacher_cache w) ->
  heap w !! t = Some s ->
  (cost_function g t w).1 = Ok 0 ->
  (∀ i j a b, i ≠ j -> s !! i = Some a -> s !! j = Some b ->
     (teacher_of g (course_of a), slot_of a) ≠ (teacher_of g (course_of b), slot_of b))
  ∧ (∀ i j a b, i ≠ j -> s !! i = Some a -> s !! j = Some b ->
     (room_of a, slot_of a) ≠ (room_of b, slot_of b))
  ∧ (∀ a, a ∈ s -> ∃ teacher, faculty g !! course_of a = Some teacher ∧ teacher ≠ "")
  ∧ (∀ a, a ∈ s -> ∃ v, (parse_slot (slot_of a) w).1 = Ok v).
Proof.
  intros HW Hc Hf Hs Hzero.
  destruct (cost_function_run g t w Hc) as (c & Hrun & _).
  rewrite Hrun, Hs in Hzero. cbn [fst default from_option id] in Hzero.
  injection Hzero as Hzero. unfold cost_value in Hzero.
  set (st0 := {| penalty := 0; used_faculty := ∅; used_rooms := ∅;
                 faculty_schedule := [] |}) in Hzero.
  destruct (cost_pass_clean g (_course_teacher_cache w) HW s st0) as [Hle Hclean].
  pose proof (day_level_nonneg g
    (faculty_schedule (foldl (step_on g (_course_teacher_cache w)) st0 s)) HW) as Hd.
  cbn [penalty st0] in Hle, Hclean.
  destruct Hclean as (Hall & Hnf & Hnr); [lia|].
  rewrite Forall_forall in Hall.
  assert (Hkey : ∀ i a, s !! i = Some a ->
            default "" (_course_teacher_cache w !! course_of a) = teacher_of g (course_of a)).
  { intros i a Hi. apply fresh_teacher; [exact Hf|].
    apply Hall, list_elem_of_lookup. eauto. }
  split; [|split; [|split]].
  - intros i j a b Hij Hi Hj Heq. apply Hij.
    eapply (NoDup_lookup _ i j); [exact Hnf | |];
      rewrite list_lookup_fmap; [rewrite Hi | rewrite Hj]; cbn [fmap option_fmap option_map].
    + reflexivity.
    + rewrite (Hkey _ _ Hi), (Hkey _ _ Hj), Heq. reflexivity.
  - intros i j a b Hij Hi Hj Heq. apply Hij.
    eapply (NoDup_lookup _ i j); [exact Hnr | |];
      rewrite list_lookup_fmap; [rewrite Hi | rewrite Hj]; cbn [fmap option_fmap option_map].
    + reflexivity.
    + rewrite Heq. reflexivity.
  - intros a Ha. destruct (Hall a Ha) as (Ht & _).
    apply (fresh_teacher g _ _ Hf Ht).
  - intros a Ha. destruct (Hall a Ha) as (_ & _ & _ & v & Hv).
    exists v. rewrite (parse_slot_value _ _ Hc). exact Hv.
Qed.

Lemma zero_cost_no_conflicts_witness :
  (∀ i j a b, i ≠ j -> demo_solution !! i = Some a -> demo_solution !! j = Some b ->
     (teacher_of demo (course_of a), slot_of a)
     ≠ (teacher_of demo (course_of b), slot_of b))
  ∧ (∀ i j a b, i ≠ j -> demo_solution !! i = Some a -> demo_solution !! j = Some b ->
     (room_of a, slot_of a) ≠ (room_of b, slot_of b))
  ∧ (∀ a, a ∈ demo_solution ->
       ∃ teacher, faculty demo !! course_of a = Some teacher ∧ teacher ≠ "")
  ∧ (∀ a, a ∈ demo_solution -> ∃ v, (parse_slot (slot_of a) demo_world).1 = Ok v).
Proof.
  apply (zero_cost_no_conflicts demo demo_world 0%nat demo_solution).
  - unfold penalising. cbn. lia.
  - apply demo_world_caches.
  - apply demo_world_caches.
  - vm_compute. reflexivity.
  - vm_compute. reflexivity.
Defined.

(** ** The primitives of the heap and of the random source *)

Lemma next_raw_run w :
  next_raw w = (Ok (tape (random w) (cursor (random w))), advance w).
Proof. reflexivity. Qed.

Lemma random_random_run w : random_random w = (Ok (draw_float w), advance w).
Proof. reflexivity. Qed.

Lemma wp_random_random w (Q : Q -> world -> Prop) E :
  Q (draw_float w) (advance w) -> wp random_random w Q E.
Proof. intros H. exact H. Qed.

Lemma wp_randbelow n w (Q : nat -> world -> Prop) E :
  (0 < n)%nat -> (∀ i, (i < n)%nat -> Q i (advance w)) -> wp (randbelow n) w Q E.
Proof.
  intros Hn H. unfold wp, randbelow. rewrite bind_run, next_raw_run. cbn.
  apply H. apply Nat.mod_upper_bound. lia.
Qed.

Lemma wp_random_choice {A} (seq : list A) w (Q : A -> world -> Prop) E :
  (seq = [] -> E IndexError w) ->
  (∀ x, x ∈ seq -> Q x (advance w)) ->
  wp (random_choice seq) w Q E.
Proof.
  intros He H. destruct seq as [|x seq]; [apply He; reflexivity|].
  unfold random_choice. apply wp_bind, wp_randbelow; [cbn; lia|].
  intros i Hi. apply wp_ret, H.
  destruct (nth_lookup_or_length (x :: seq) i x) as [Hl|Hl]; [|lia].
  apply list_elem_of_lookup. eauto.
Qed.

Lemma wp_random_randrange n w (Q : nat -> world -> Prop) E :
  (0 < n)%nat -> (∀ i, (i < n)%nat -> Q i (advance w)) ->
  wp (random_randrange n) w Q E.
Proof.
  intros Hn H. unfold random_randrange. rewrite decide_True by exact Hn.
  apply wp_randbelow; assumption.
Qed.

Lemma wp_random_sample2 n w (Q : nat * nat -> world -> Prop) E :
  (2 <= n)%nat ->
  (∀ i j, (i < n)%nat -> (j < n)%nat -> i ≠ j -> Q (i, j) (advance (advance w))) ->
  wp (random_sample2 n) w Q E.
Proof.
  intros Hn H. unfold random_sample2. rewrite decide_True by exact Hn.
  apply wp_bind, wp_randbelow; [lia|]. intros i Hi.
  apply wp_bind, wp_randbelow; [lia|]. intros j Hj.
  apply wp_ret. apply H; [exact Hi | |]; case_decide; lia.
Qed.

Lemma wp_elements_of r w (Q : list assignment -> world -> Prop) E :
  Q (default [] (heap w !! r)) w -> wp (elements_of r) w Q E.
Proof. intros H. exact H. Qed.

Lemma wp_len r w (Q : nat -> world -> Prop) E :
  Q (length (default [] (heap w !! r))) w -> wp (len r) w Q E.
Proof. intros H. exact H. Qed.

Lemma wp_getitem r i l w (Q : assignment -> world -> Prop) E :
  heap w !! r = Some l -> (i < length l)%nat ->
  (∀ a, l !! i = Some a -> Q a w) ->
  wp (getitem r i) w Q E.
Proof.
  intros Hr Hi H. unfold getitem. apply wp_bind, wp_elements_of. rewrite Hr. cbn.
  destruct (lookup_lt_is_Some_2 l i Hi) as [a Ha]. rewrite Ha.
  apply wp_ret, H, Ha.
Qed.

Lemma wp_setitem r i a l w (Q : unit -> world -> Prop) E :
  heap w !! r = Some l -> (i < length l)%nat ->
  Q () (set_heap (<[r := <[i := a]> l]> (heap w)) w) ->
  wp (setitem r i a) w Q E.
Proof.
  intros Hr Hi H. unfold setitem. apply wp_bind, wp_elements_of. rewrite Hr. cbn.
  rewrite decide_True by exact Hi. apply wp_modify, H.
Qed.

Lemma wp_append r a l w (Q : unit -> world -> Prop) E :
  heap w !! r = Some l ->
  Q () (set_heap (<[r := (l ++ [a])%list]> (heap w)) w) ->
  wp (append r a) w Q E.
Proof.
  intros Hr H. unfold append. apply wp_bind, wp_elements_of. rewrite Hr.
  apply (wp_modify _ w Q E). exact H.
Qed.

Lemma wp_new_list l w (Q : loc -> world -> Prop) E :
  Q (length (heap w)) (set_heap (heap w ++ [l])%list w) -> wp (new_list l) w Q E.
Proof. intros H. exact H. Qed.

(** Footprints compose. *)
Lemma same_globals_refl w : same_globals w w.
Proof. repeat split. Qed.

Lemma touches_only_refl r w : touches_only r w w.
Proof. repeat split. Qed.

Lemma touches_only_advance r w0 w : touches_only r w0 w -> touches_only r w0 (advance w).
Proof. intros H. exact H. Qed.

Lemma touches_only_write r l w0 w :
  touches_only r w0 w -> touches_only r w0 (set_heap (<[r := l]> (heap w)) w).
Proof.
  intros (Hg & Hlen & Hother). split; [exact Hg|]. cbn. split.
  - rewrite length_insert. exact Hlen.
  - intros r' Hr'. rewrite list_lookup_insert_ne by congruence. apply Hother, Hr'.
Qed.

Lemma heap_write_read r l w lo :
  heap w !! r = Some lo -> heap (set_heap (<[r := l]> (heap w)) w) !! r = Some l.
Proof.
  intros Hr. cbn. apply list_lookup_insert_eq. apply lookup_lt_is_Some_1. eauto.
Qed.

(** ** The three moves *)

Lemma fmap_insert_same {A B} (f : A -> B) (l : list A) i x y :
  l !! i = Some y -> f x = f y -> f <$> <[i := x]> l = f <$> l.
Proof.
  intros Hi Hf. rewrite list_fmap_insert, Hf. apply list_insert_id.
  rewrite list_lookup_fmap, Hi. reflexivity.
Qed.

(** The room move keeps the courses and the slots, and fails only for want
    of a room. *)
Lemma room_move_spec g r l w0 w :
  heap w !! r = Some l -> l ≠ [] -> touches_only r w0 w ->
  wp (room_move g r (length l)) w
    (λ _ w', touches_only r w0 w'
             ∧ ∃ l', heap w' !! r = Some l'
                     ∧ course_of <$> l' = course_of <$> l
                     ∧ slot_of <$> l' = slot_of <$> l)
    (λ _ w', touches_only r w0 w' ∧ rooms g = []).
Proof.
  intros Hr Hne Ht. unfold room_move.
  apply wp_bind, wp_random_randrange; [destruct l; [congruence | cbn; lia]|].
  intros idx Hidx. apply wp_bind. eapply wp_getitem; [exact Hr | exact Hidx|].
  intros [[c s] rm] Ha. apply wp_bind, wp_random_choice.
  - intros Hrooms. split; [exact Ht | exact Hrooms].
  - intros room _. eapply wp_setitem; [exact Hr | exact Hidx|].
    split; [apply touches_only_write; exact Ht|].
    exists (<[idx := (c, s, room)]> l). split; [eapply heap_write_read; exact Hr|].
    split; eapply fmap_insert_same; eauto.
Qed.

(** The slot move keeps the courses, and fails only for want of a slot or
    of a room. *)
Lemma slot_move_spec g r l w0 w :
  heap w !! r = Some l -> l ≠ [] -> touches_only r w0 w ->
  wp (slot_move g r (length l)) w
    (λ _ w', touches_only r w0 w'
             ∧ ∃ l', heap w' !! r = Some l' ∧ course_of <$> l' = course_of <$> l)
    (λ _ w', touches_only r w0 w' ∧ (rooms g = [] ∨ slots g = [])).
Proof.
  intros Hr Hne Ht. unfold slot_move.
  apply wp_bind, wp_random_randrange; [destruct l; [congruence | cbn; lia]|].
  intros idx Hidx. apply wp_bind. eapply wp_getitem; [exact Hr | exact Hidx|].
  intros [[c s] rm] Ha. apply wp_bind.
  assert (Hfin : ∀ (new_slot : string) w1,
            heap w1 !! r = Some l -> touches_only r w0 w1 ->
            wp (u ← random_random;
                if float_lt u float_0_25 then setitem r idx (c, new_slot, rm)
                else room ← random_choice (rooms g);
                     setitem r idx (c, new_slot, room)) w1
              (λ _ w', touches_only r w0 w'
                 ∧ ∃ l', heap w' !! r = Some l' ∧ course_of <$> l' = course_of <$> l)
              (λ _ w', touches_only r w0 w' ∧ (rooms g = [] ∨ slots g = []))).
  { intros new_slot w1 Hr1 Ht1. apply wp_bind, wp_random_random.
    destruct (float_lt (draw_float w1) float_0_25).
    - eapply wp_setitem; [exact Hr1 | exact Hidx|].
      split; [apply touches_only_write; exact Ht1|].
      exists (<[idx := (c, new_slot, rm)]> l). split; [eapply heap_write_read; exact Hr1|].
      eapply fmap_insert_same; eauto.
    - apply wp_bind, wp_random_choice.
      + intros Hrooms. split; [exact Ht1 | left; exact Hrooms].
      + intros room _. eapply wp_setitem; [exact Hr1 | exact Hidx|].
        split; [apply touches_only_write; exact Ht1|].
        exists (<[idx := (c, new_slot, room)]> l).
        split; [eapply heap_write_read; exact Hr1|].
        eapply fmap_insert_same; eauto. }
  assert (Hslots : ∀ w1, heap w1 !! r = Some l -> touches_only r w0 w1 ->
            wp (random_choice (slots g)) w1
              (λ new_slot w', heap w' !! r = Some l ∧ touches_only r w0 w')
              (λ _ w', touches_only r w0 w' ∧ (rooms g = [] ∨ slots g = []))).
  { intros w1 Hr1 Ht1. apply wp_random_choice.
    - intros Hs. split; [exact Ht1 | right; exact Hs].
    - intros x _. split; [exact Hr1 | exact Ht1]. }
  eapply wp_post with
    (Q := λ (_ : string) w', heap w' !! r = Some l ∧ touches_only r w0 w').
  - destruct (preferred_slots g !! default "" (faculty g !! c)) as [[|p ps]|];
      [apply Hslots; assumption | | apply Hslots; assumption].
    apply wp_bind, wp_random_random.
    destruct (float_lt (draw_float (advance w)) float_0_7).
    + apply wp_random_choice; [discriminate|]. intros x _. split; assumption.
    + apply Hslots; assumption.
  - intros new_slot w1 [Hr1 Ht1]. apply Hfin; assumption.
Qed.

(** The swap move keeps the length and never raises. *)
Lemma swap_move_spec r l w0 w :
  heap w !! r = Some l -> (2 <= length l)%nat -> touches_only r w0 w ->
  wp (swap_move r (length l)) w
    (λ _ w', touches_only r w0 w'
             ∧ ∃ l', heap w' !! r = Some l' ∧ length l' = length l)
    never.
Proof.
  intros Hr Hlen Ht. unfold swap_move.
  apply wp_bind, wp_random_sample2; [exact Hlen|]. intros i j Hi Hj _.
  apply wp_bind. eapply wp_getitem; [exact Hr | exact Hi|]. intros [[c1 s1] r1] Ha.
  apply wp_bind. eapply wp_getitem; [exact Hr | exact Hj|]. intros [[c2 s2] r2] Hb.
  apply wp_bind, wp_random_random.
  assert (Hset : ∀ x y,
            wp (setitem r i x;; setitem r j y) (advance (advance (advance w)))
              (λ _ w', touches_only r w0 w'
                 ∧ ∃ l', heap w' !! r = Some l' ∧ length l' = length l)
              never).
  { intros x y. apply wp_bind. eapply wp_setitem; [exact Hr | exact Hi|].
    eapply wp_setitem;
      [eapply heap_write_read; exact Hr | rewrite length_insert; exact Hj|].
    split; [apply touches_only_write, touches_only_write; exact Ht|].
    eexists. split; [eapply heap_write_read, heap_write_read; exact Hr|].
    rewrite !length_insert. reflexivity. }
  destruct (float_lt _ float_0_7); [apply Hset|].
  apply wp_bind. eapply wp_getitem; [exact Hr | exact Hj|]. intros a _.
  apply wp_bind. eapply wp_getitem; [exact Hr | exact Hi|]. intros b _.
  apply Hset.
Qed.

(** ** [neighbor_solution] *)

Lemma heap_alloc_read l w :
  heap (set_heap (heap w ++ [l])%list w) !! length (heap w) = Some l.
Proof. cbn. apply list_lookup_middle. reflexivity. Qed.

Lemma extends_alloc l w : extends w (set_heap (heap w ++ [l])%list w).
Proof.
  split; [repeat split|]. cbn. split.
  - rewrite length_app. lia.
  - intros r Hr. apply lookup_app_l. exact Hr.
Qed.

Lemma extends_touches l w w' :
  touches_only (length (heap w)) (set_heap (heap w ++ [l])%list w) w' -> extends w w'.
Proof.
  intros (Hg & Hlen & Hother). split; [exact Hg|]. split.
  - rewrite Hlen. cbn. rewrite length_app. lia.
  - intros r Hr. rewrite Hother by lia. cbn. apply lookup_app_l. exact Hr.
Qed.

(** The neighbour is a new list object of the length of its input; every
    object of the heap is left as it was, whether the call returns or
    raises; and it raises only for want of a room or of a slot. *)
Lemma neighbor_solution_spec g t w :
  wp (neighbor_solution g t) w
    (λ r w', r = length (heap w) ∧ extends w w'
             ∧ ∃ l', heap w' !! r = Some l'
                     ∧ length l' = length (default [] (heap w !! t)))
    (λ _ w', extends w w' ∧ (rooms g = [] ∨ slots g = [])).
Proof.
  unfold neighbor_solution. apply wp_bind, wp_elements_of.
  destruct (decide (default [] (heap w !! t) = [])) as [He|Hne].
  - apply wp_new_list. split; [reflexivity|]. split; [apply extends_alloc|].
    exists []. split; [apply heap_alloc_read | rewrite He; reflexivity].
  - set (tt := default [] (heap w !! t)) in *.
    apply wp_bind, wp_new_list. set (w1 := set_heap (heap w ++ [tt])%list w).
    apply wp_bind, wp_random_random. apply wp_bind, wp_len.
    assert (Hr : heap (advance w1) !! length (heap w) = Some tt)
      by apply heap_alloc_read.
    unfold loc in *. rewrite Hr. cbn [default from_option id].
    assert (Ht : touches_only (length (heap w)) w1 (advance w1))
      by apply touches_only_advance, touches_only_refl.
    apply wp_bind.
    eapply wp_mono with
      (Q := λ _ w', touches_only (length (heap w)) w1 w'
                    ∧ ∃ l', heap w' !! length (heap w) = Some l'
                            ∧ length l' = length tt)
      (E := λ _ w', touches_only (length (heap w)) w1 w'
                    ∧ (rooms g = [] ∨ slots g = [])).
    + destruct (float_lt (draw_float w1) float_0_45 && bool_decide (2 <= length tt)%nat)
        eqn:Hswap.
      * apply andb_true_iff in Hswap as [_ Hlen]. apply bool_decide_eq_true_1 in Hlen.
        eapply wp_mono; [apply (swap_move_spec _ tt w1); assumption | auto | intros ? ? []].
      * destruct (float_lt (draw_float w1) float_0_85).
        -- eapply wp_post; [apply (slot_move_spec g _ tt w1); assumption|].
           intros _ w' (Ht' & l' & Hl' & Hc). split; [exact Ht'|].
           exists l'. split; [exact Hl'|].
           rewrite <- (length_fmap course_of l'), Hc, length_fmap. reflexivity.
        -- eapply wp_mono; [apply (room_move_spec g _ tt w1); assumption | |].
           ++ intros _ w' (Ht' & l' & Hl' & Hc & _). split; [exact Ht'|].
              exists l'. split; [exact Hl'|].
              rewrite <- (length_fmap course_of l'), Hc, length_fmap. reflexivity.
           ++ intros _ w' [Ht' Hrooms]. auto.
    + intros _ w' (Ht' & l' & Hl' & Hlen). apply wp_ret.
      split; [reflexivity|]. split; [eapply extends_touches; exact Ht'|]. eauto.
    + intros _ w' [Ht' Hempty]. split; [eapply extends_touches; exact Ht' | exact Hempty].
Qed.

(** C9: whatever list object the heap holds before the call, it holds the
    same assignments after it, whether the call returns or raises; this is
    so in particular of the input, and the result is another object. *)
Theorem neighbor_solution_keeps_input g t s w :
  heap w !! t = Some s ->
  heap (neighbor_solution g t w).2 !! t = Some s
  ∧ (∀ r l, heap w !! r = Some l -> heap (neighbor_solution g t w).2 !! r = Some l)
  ∧ (∀ r, (neighbor_solution g t w).1 = Ok r -> r ≠ t).
Proof.
  intros Hs. pose proof (neighbor_solution_spec g t w) as H. unfold wp in H.
  assert (Hkeep : extends w (neighbor_solution g t w).2 ->
            ∀ r l, heap w !! r = Some l -> heap (neighbor_solution g t w).2 !! r = Some l).
  { intros (_ & _ & Hext) r l Hr. rewrite Hext; [exact Hr|].
    apply lookup_lt_is_Some_1. eauto. }
  destruct (neighbor_solution g t w) as [[r|e] w']; cbn [fst snd] in *.
  - destruct H as (-> & Hext & _). split; [|split].
    + apply Hkeep; assumption.
    + apply Hkeep; assumption.
    + intros r [= <-]. apply lookup_lt_Some in Hs. lia.
  - destruct H as (Hext & _). split; [|split].
    + apply Hkeep; assumption.
    + apply Hkeep; assumption.
    + discriminate.
Qed.

Lemma neighbor_solution_keeps_input_witness :
  heap (neighbor_solution demo 0%nat demo_world).2 !! 0%nat = Some demo_solution
  ∧ (∀ r l, heap demo_world !! r = Some l ->
            heap (neighbor_solution demo 0%nat demo_world).2 !! r = Some l)
  ∧ (∀ r, (neighbor_solution demo 0%nat demo_world).1 = Ok r -> r ≠ 0%nat).
Proof.
  apply (neighbor_solution_keeps_input demo 0%nat demo_solution demo_world).
  vm_compute. reflexivity.
Defined.

(** ** The neighbour of a one-session solution *)

Lemma singleton_courses (l : list assignment) c :
  course_of <$> l = [c] -> ∃ slot room, l = [(c, slot, room)].
Proof.
  destruct l as [|[[c' s] r] [|? ?]]; try discriminate.
  intros [= <-]. eauto.
Qed.

(** C10: on a solution of one assignment the swap move is never taken: the
    call is the slot move when the draw is below 0.85 (below 0.45 included)
    and the room move otherwise.  What it returns has one assignment, for
    the same course, and for the same slot after a room move; and it does
    return when there is a room and a slot to draw. *)
Theorem neighbor_of_singleton g t a w :
  heap w !! t = Some [a] ->
  let new_tt := length (heap w) in
  let w1 := set_heap (heap w ++ [[a]])%list w in
  let move := draw_float w1 in
  neighbor_solution g t w
  = ((if float_lt move float_0_85 then slot_move g new_tt 1 else room_move g new_tt 1);;
     mret new_tt) (advance w1)
  ∧ (∀ r w', neighbor_solution g t w = (Ok r, w') ->
       ∃ slot room, heap w' !! r = Some [(course_of a, slot, room)]
                    ∧ (float_lt move float_0_85 = false -> slot = slot_of a))
  ∧ (rooms g ≠ [] -> slots g ≠ [] -> ∃ r w', neighbor_solution g t w = (Ok r, w')).
Proof.
  intros Hs new_tt w1 move.
  assert (Heq : neighbor_solution g t w
            = ((if float_lt move float_0_85 then slot_move g new_tt 1
                else room_move g new_tt 1);; mret new_tt) (advance w1)).
  { unfold neighbor_solution.
    rewrite bind_run. unfold elements_of at 1, gets at 1. rewrite Hs.
    cbn [default from_option id]. rewrite decide_False by discriminate.
    rewrite bind_run. unfold new_list at 1. rewrite bind_run, random_random_run.
    rewrite bind_run. unfold len at 1, elements_of at 1, gets at 1. rewrite bind_run.
    assert (Hr : heap (advance w1) !! length (heap w) = Some [a])
      by apply heap_alloc_read.
    fold w1. unfold loc in *. rewrite Hr.
    cbn [default from_option id length mret M_ret].
    rewrite bool_decide_eq_false_2 by lia. rewrite andb_false_r. reflexivity. }
  assert (Hwp : wp (neighbor_solution g t) w
            (λ r w', ∃ slot room, heap w' !! r = Some [(course_of a, slot, room)]
                       ∧ (float_lt move float_0_85 = false -> slot = slot_of a))
            (λ _ _, rooms g = [] ∨ slots g = [])).
  { unfold wp. rewrite Heq. change (wp
      ((if float_lt move float_0_85 then slot_move g new_tt 1
        else room_move g new_tt 1);; mret new_tt) (advance w1)
      (λ r w', ∃ slot room, heap w' !! r = Some [(course_of a, slot, room)]
                 ∧ (float_lt move float_0_85 = false -> slot = slot_of a))
      (λ _ _, rooms g = [] ∨ slots g = [])).
    assert (Hr : heap (advance w1) !! new_tt = Some [a]) by apply heap_alloc_read.
    assert (Ht : touches_only new_tt w1 (advance w1))
      by apply touches_only_advance, touches_only_refl.
    apply wp_bind. destruct (float_lt move float_0_85).
    - eapply wp_mono;
        [apply (slot_move_spec g new_tt [a] w1 (advance w1) Hr); [discriminate | exact Ht]
        | | intros _ w' [_ He]; exact He].
      intros _ w' (_ & l' & Hl' & Hc). apply wp_ret.
      apply singleton_courses in Hc as (slot & room & ->).
      exists slot, room. split; [exact Hl' | discriminate].
    - eapply wp_mono;
        [apply (room_move_spec g new_tt [a] w1 (advance w1) Hr); [discriminate | exact Ht]
        | | intros _ w' [_ He]; left; exact He].
      intros _ w' (_ & l' & Hl' & Hc & Hsl). apply wp_ret.
      apply singleton_courses in Hc as (slot & room & ->).
      exists slot, room. split; [exact Hl'|]. intros _.
      cbn in Hsl. congruence. }
  split; [exact Heq|]. split.
  - intros r w' Hrun. apply (wp_run _ _ _ _ _ _ Hwp Hrun).
  - intros Hrooms Hslots. unfold wp in Hwp.
    destruct (neighbor_solution g t w) as [[r|e] w']; [eauto|].
    destruct Hwp; contradiction.
Qed.

Lemma neighbor_of_singleton_witness :
  ∃ slot room,
    heap (neighbor_solution demo 0%nat
            (set_heap [[("AI", "Mon 09:00-10:00", "Lab1")]] (fresh_world []))).2 !! 1%nat
    = Some [("AI", slot, room)].
Proof.
  pose (w := set_heap [[("AI", "Mon 09:00-10:00", "Lab1")]] (fresh_world [])).
  destruct (neighbor_of_singleton demo 0%nat ("AI", "Mon 09:00-10:00", "Lab1") w)
    as (_ & Hshape & _); [reflexivity|].
  destruct (Hshape 1%nat (neighbor_solution demo 0%nat w).2) as (slot & room & H & _).
  - vm_compute. reflexivity.
  - exists slot, room. exact H.
Defined.

(** ** [random_solution] *)

Lemma length_sessions g req :
  Z.of_nat (length (sessions g req)) = cardinality g req.
Proof.
  unfold sessions, cardinality. induction (courses g) as [|c cs IH]; [reflexivity|].
  cbn [mbind list_bind fmap list_fmap Zsum foldr].
  rewrite length_app, length_replicate, Nat2Z.inj_add, IH.
  unfold Zsum. lia.
Qed.

(** The solution is a new list object with one assignment per session, in
    the order of the courses; the call raises only for want of a room or of
    a slot. *)
Lemma random_solution_spec g w :
  wp (random_solution g) w
    (λ t w', t = length (heap w) ∧ extends w w'
             ∧ ∃ l, heap w' !! t = Some l
                    ∧ course_of <$> l = sessions g (requirements w))
    (λ _ w', extends w w' ∧ (rooms g = [] ∨ slots g = [])).
Proof.
  unfold random_solution. apply wp_bind, wp_new_list.
  set (t := length (heap w)). set (w1 := set_heap (heap w ++ [[]])%list w).
  set (f := λ c : string, replicate (Z.to_nat (default 1 (requirements w !! c))) c).
  apply wp_bind.
  eapply wp_mono with
    (Q := λ _ w', touches_only t w1 w'
                  ∧ ∃ l, heap w' !! t = Some l ∧ course_of <$> l = courses g ≫= f)
    (E := λ _ w', touches_only t w1 w' ∧ (rooms g = [] ∨ slots g = [])).
  - apply (wp_for_ (λ done w', touches_only t w1 w'
                      ∧ ∃ l, heap w' !! t = Some l ∧ course_of <$> l = done ≫= f)).
    + split; [apply touches_only_refl|]. exists []. split; [apply heap_alloc_read|reflexivity].
    + intros done course w2 (Ht & l & Hl & Hc). apply wp_bind, wp_gets.
      assert (requirements w2 = requirements w) as -> by apply Ht.
      unfold for_range.
      eapply wp_post;
        [apply (wp_for_ (λ turns w', touches_only t w1 w'
                   ∧ ∃ l', heap w' !! t = Some l'
                      ∧ course_of <$> l'
                        = ((done ≫= f) ++ replicate (length turns) course)%list))|].
      * split; [exact Ht|]. exists l. split; [exact Hl|].
        rewrite Hc. cbn. rewrite app_nil_r. reflexivity.
      * intros turns [] w3 (Ht3 & l3 & Hl3 & Hc3).
        assert (Hslots : ∀ w4, heap w4 !! t = Some l3 -> touches_only t w1 w4 ->
                  wp (random_choice (slots g)) w4
                    (λ _ w', heap w' !! t = Some l3 ∧ touches_only t w1 w')
                    (λ _ w', touches_only t w1 w' ∧ (rooms g = [] ∨ slots g = []))).
        { intros w4 Hr4 Ht4. apply wp_random_choice.
          - intros Hs. split; [exact Ht4 | right; exact Hs].
          - intros x _. split; [exact Hr4 | exact Ht4]. }
        apply wp_bind.
        eapply wp_post with
          (Q := λ (_ : string) w', heap w' !! t = Some l3 ∧ touches_only t w1 w').
        -- destruct (preferred_slots g !! default "" (faculty g !! course)) as [[|p ps]|];
             [apply Hslots; assumption | | apply Hslots; assumption].
           apply wp_bind, wp_random_random.
           destruct (float_lt (draw_float w3) float_0_8).
           ++ apply wp_random_choice; [discriminate|]. intros x _. split; assumption.
           ++ apply Hslots; assumption.
        -- intros slot w4 [Hl4 Ht4]. apply wp_bind, wp_random_choice.
           ++ intros Hrooms. split; [exact Ht4 | left; exact Hrooms].
           ++ intros room _. eapply wp_append; [exact Hl4|].
              split; [apply touches_only_write; exact Ht4|].
              exists (l3 ++ [(course, slot, room)])%list.
              split; [eapply heap_write_read; exact Hl4|].
              rewrite fmap_app, Hc3, length_app, <- app_assoc. cbn [length fmap list_fmap].
              f_equal. rewrite Nat.add_1_r. cbn [course_of fst].
              change [course] with (replicate 1 course).
              rewrite <- replicate_add, Nat.add_1_r. reflexivity.
      * intros [] w3 (Ht3 & l3 & Hl3 & Hc3). split; [exact Ht3|].
        exists l3. split; [exact Hl3|]. rewrite Hc3, length_replicate, bind_app.
        cbn [mbind list_bind]. rewrite app_nil_r. reflexivity.
  - intros [] w2 (Ht & l & Hl & Hc). apply wp_ret.
    split; [reflexivity|]. split; [eapply extends_touches; exact Ht|]. eauto.
  - intros _ w2 [Ht He]. split; [eapply extends_touches; exact Ht | exact He].
Qed.

Lemma lookup_requirements_2 (cs : list string) c :
  (list_to_map ((λ c, (c, 2)) <$> cs) : gmap string Z) !! c
  = if decide (c ∈ cs) then Some 2 else None.
Proof.
  induction cs as [|c' cs IH]; cbn [fmap list_fmap list_to_map foldr].
  - rewrite lookup_empty, decide_False; [reflexivity | apply not_elem_of_nil].
  - rewrite lookup_insert. cbn [fst snd]. destruct (decide (c' = c)) as [->|Hne].
    + rewrite decide_True; [reflexivity | apply elem_of_cons; auto].
    + rewrite IH. destruct (decide (c ∈ cs)).
      * rewrite decide_True; [reflexivity | apply elem_of_cons; auto].
      * rewrite decide_False; [reflexivity|]. rewrite elem_of_cons. intros [?|?]; congruence.
Qed.

(** With the requirements that [generate_timetable] sets, two sessions per
    course. *)
Lemma cardinality_generate g :
  cardinality g (list_to_map ((λ c, (c, 2)) <$> courses g))
  = 2 * Z.of_nat (length (courses g)).
Proof.
  unfold cardinality.
  assert (H : ∀ cs, Forall (λ c, c ∈ courses g) cs ->
            Zsum ((λ c, Z.max 0 (default 1
                     ((list_to_map ((λ c, (c, 2)) <$> courses g) : gmap string Z) !! c))) <$> cs)
            = 2 * Z.of_nat (length cs)).
  { induction 1 as [|c cs Hc _ IH]; [reflexivity|].
    cbn [fmap list_fmap Zsum foldr length]. unfold Zsum in IH. rewrite IH.
    rewrite lookup_requirements_2, decide_True by exact Hc. cbn. lia. }
  apply H, Forall_forall. auto.
Qed.

(** C1, as stated, fails: two courses absent from [requirements] give two
    sessions, where the default of 2 would give four. *)
Lemma random_solution_default_is_one :
  ∃ w' s, random_solution demo (fresh_world []) = (Ok 0%nat, w')
          ∧ heap w' !! 0%nat = Some s
          ∧ Z.of_nat (length s) = 2
          ∧ Z.of_nat (length s) ≠ spec_cardinality demo (requirements (fresh_world [])).
Proof.
  eexists. eexists. split; [reflexivity|]. split; [reflexivity|].
  split; [reflexivity | discriminate].
Qed.

(** C1, amended: a solution that [random_solution] returns has one
    assignment per required session, course by course, a course absent from
    [requirements] counting for 1 and a count below 1 for none; its length
    is the sum of these counts.  The call returns a solution when there is a
    room and a slot to draw.  With the requirements that
    [generate_timetable] sets, the count is 2 for every course. *)
Theorem random_solution_cardinality g w :
  (∀ t w', random_solution g w = (Ok t, w') ->
     ∃ s, heap w' !! t = Some s
          ∧ course_of <$> s = sessions g (requirements w)
          ∧ Z.of_nat (length s) = cardinality g (requirements w))
  ∧ (rooms g ≠ [] -> slots g ≠ [] -> ∃ t w', random_solution g w = (Ok t, w'))
  ∧ cardinality g (list_to_map ((λ c, (c, 2)) <$> courses g))
    = 2 * Z.of_nat (length (courses g)).
Proof.
  pose proof (random_solution_spec g w) as H. split; [|split].
  - intros t w' Hrun. pose proof (wp_run _ _ _ _ _ _ H Hrun) as (_ & _ & l & Hl & Hc).
    exists l. split; [exact Hl|]. split; [exact Hc|].
    rewrite <- length_sessions, <- Hc, length_fmap. reflexivity.
  - intros Hrooms Hslots. unfold wp in H.
    destruct (random_solution g w) as [[t|e] w']; [eauto|].
    destruct H as [_ [Hr|Hs]]; contradiction.
  - apply cardinality_generate.
Qed.

Lemma random_solution_cardinality_witness :
  ∃ t w', random_solution demo (fresh_world []) = (Ok t, w').
Proof.
  destruct (random_solution_cardinality demo (fresh_world [])) as (_ & Hok & _).
  apply Hok; discriminate.
Defined.

(** ** [generate_timetable] *)

(** C3, as stated, fails for [random_solution]: without a room it raises
    [IndexError] at the draw of the room, after two other draws; and without
    a course it returns a solution. *)
Lemma random_solution_fails_late :
  (random_solution demo_no_rooms (fresh_world [])).1 = Raise IndexError
  ∧ cursor (random (random_solution demo_no_rooms (fresh_world [])).2) = 2%nat
  ∧ (random_solution demo_empty (fresh_world [])).1 = Ok 0%nat.
Proof. repeat split. Qed.

(** C3, amended: the check is made by [generate_timetable].  Without a room
    or without a slot it shows the error box and returns, leaving the world
    as it was: no draw is made, nothing is raised, no solution is built. *)
Theorem generate_timetable_guard g F (float_500 float_0_9997 : float F) w :
  rooms g = [] ∨ slots g = [] ->
  generate_timetable g F float_500 float_0_9997 w
  = (Ok (ShowError "Please enter all inputs first!"), w).
Proof.
  intros H. unfold generate_timetable.
  assert (bool_decide (courses g = []) || bool_decide (faculty g = ∅)
          || bool_decide (rooms g = []) || bool_decide (slots g = []) = true) as ->;
    [|reflexivity].
  destruct H as [H|H]; rewrite (bool_decide_eq_true_2 _ H).
  - rewrite orb_true_r. reflexivity.
  - apply orb_true_r.
Qed.

Lemma generate_timetable_guard_witness :
  generate_timetable demo_no_rooms Qfloat (Qmake 500 1) (Qmake 9997 10000)
    (fresh_world [])
  = (Ok (ShowError "Please enter all inputs first!"), fresh_world []).
Proof.
  apply (generate_timetable_guard demo_no_rooms Qfloat). left. reflexivity.
Defined.

(** ** The annealing loop *)

Lemma wp_always {A} (m : M A) w (Q : A -> world -> Prop) E :
  (∀ a w', Q a w') -> (∀ e w', E e w') -> wp m w Q E.
Proof. intros HQ HE. unfold wp. destruct (m w) as [[a|e] w']; auto. Qed.

(** The cost function never raises. *)
Lemma cost_function_total g t w : wp (cost_function g t) w (λ _ _, True) never.
Proof.
  unfold cost_function. apply wp_bind, wp_elements_of. apply wp_bind.
  eapply wp_post; [apply (wp_for_acc (λ _ _ _, True)); [exact I|] | intros; apply wp_ret, I].
  intros _ [[course slot] room] st w' _. unfold cost_step.
  apply wp_bind, wp_gets. case_decide; [apply wp_ret, I|].
  apply wp_bind, wp_try. apply wp_always.
  - intros [day m] w''. apply wp_ret, I.
  - intros e w''. apply wp_ret, I.
Qed.

(** ** The day-level penalties *)

Lemma cost_loop_total g tt st w :
  wp (for_acc tt (cost_step g) st) w (λ _ _, True) never.
Proof.
  apply (wp_for_acc (λ _ _ _, True)); [exact I|].
  intros _ [[course slot] room] st' w' _. unfold cost_step.
  apply wp_bind, wp_gets. case_decide; [apply wp_ret, I|].
  apply wp_bind, wp_try. apply wp_always.
  - intros [day m] w''. apply wp_ret, I.
  - intros e w''. apply wp_ret, I.
Qed.

(** C6: the loop over the timetable ends in a state [st], and the cost
    that [cost_function] returns is the penalty of that state plus what the
    post-pass adds: for each (teacher, day) bucket of [faculty_schedule],
    taken in ascending order, [too_many_sessions_day * (n - 4)] when it has
    [n >= 5] entries, [back_to_back] for each consecutive pair that differs
    by more than 0 and at most 60, and [gap] for each pair that differs by
    more than 60.  The differences are never negative, and a pair that
    differs by 0 adds nothing. *)
Theorem day_level_rule g t w :
  ∃ st w',
    for_acc (default [] (heap w !! t)) (cost_step g)
      {| penalty := 0; used_faculty := ∅; used_rooms := ∅; faculty_schedule := [] |} w
    = (Ok st, w')
    ∧ cost_function g t w
      = (Ok (penalty st
             + Zsum ((λ starts, spec_bucket (WEIGHTS g) (merge_sort Z.le starts))
                       <$> buckets (faculty_schedule st))), w')
    ∧ ∀ starts sorted, sorted ≡ₚ starts -> Sorted Z.le sorted ->
        merge_sort Z.le starts = sorted
        ∧ day_penalty g starts = spec_bucket (WEIGHTS g) sorted
        ∧ Forall (λ d, 0 <= d) (differences sorted).
Proof.
  pose proof (cost_loop_total g (default [] (heap w !! t))
                {| penalty := 0; used_faculty := ∅; used_rooms := ∅;
                   faculty_schedule := [] |} w) as Hloop.
  unfold wp, never in Hloop.
  destruct (for_acc (default [] (heap w !! t)) (cost_step g)
              {| penalty := 0; used_faculty := ∅; used_rooms := ∅;
                 faculty_schedule := [] |} w) as [[st|e] w'] eqn:Hrun; [|contradiction].
  exists st, w'. split; [reflexivity|]. split.
  - unfold cost_function. rewrite bind_run. unfold elements_of, gets. cbv beta iota.
    rewrite bind_run, Hrun. unfold mret, M_ret. f_equal. f_equal. f_equal.
    rewrite day_level_buckets. f_equal.
    apply list_fmap_ext. intros _ b _. apply day_penalty_sorted.
  - intros starts sorted Hperm Hsorted.
    assert (merge_sort Z.le starts = sorted) as Hs.
    { apply (Sorted_unique Z.le); [apply Sorted_merge_sort, _ | exact Hsorted |].
      rewrite merge_sort_Permutation. symmetry. exact Hperm. }
    split; [exact Hs|]. split.
    + rewrite day_penalty_sorted, Hs. reflexivity.
    + apply differences_sorted, Hsorted.
Qed.

Lemma day_level_rule_witness :
  (cost_function demo 0%nat demo_long_day_world).1
  = Ok (2 * 5 + (10 * (6 - 4) + 1 * 3 + 1 * 1))
  ∧ day_penalty demo [600; 540; 720; 540; 780; 840]
    = 10 * (6 - 4) + 1 * 3 + 1 * 1.
Proof.
  split; [vm_compute; reflexivity|].
  destruct (day_level_rule demo 0%nat demo_long_day_world) as (_ & _ & _ & _ & H).
  destruct (H [600; 540; 720; 540; 780; 840] [540; 540; 600; 720; 780; 840])
    as (_ & -> & _).
  - apply (bool_decide_unpack _). vm_compute. exact I.
  - repeat constructor; lia.
  - reflexivity.
Defined.

(** Accepting a neighbour leaves the history alone and never raises the
    best cost. *)
Lemma accept_spec F neighbor neighbor_cost (st : sa_locals F) w :
  wp (accept F neighbor neighbor_cost st) w
    (λ st' _, hist st' = hist st ∧ T st' = T st ∧ best_cost st' <= best_cost st)
    never.
Proof.
  unfold accept. destruct (neighbor_cost <? best_cost st) eqn:Hlt.
  - apply Z.ltb_lt in Hlt.
    apply wp_bind, wp_elements_of. apply wp_bind, wp_new_list. apply wp_ret.
    cbn. split; [reflexivity|]. split; [reflexivity | lia].
  - apply wp_ret. cbn. split; [reflexivity|]. split; [reflexivity | lia].
Qed.

Lemma non_increasing_snoc l b :
  non_increasing l -> Forall (λ x, b <= x) l -> non_increasing (l ++ [b]).
Proof.
  intros Hl Hb i j x y Hij Hi Hj.
  destruct (decide (j < length l)%nat) as [Hjl|Hjl].
  - rewrite lookup_app_l in Hi, Hj by lia. apply (Hl i j x y Hij Hi Hj).
  - assert (j = length l) as ->.
    { apply lookup_lt_Some in Hj. rewrite length_app in Hj. cbn in Hj. lia. }
    rewrite list_lookup_middle in Hj by reflexivity. injection Hj as <-.
    rewrite lookup_app_l in Hi by lia.
    rewrite Forall_forall in Hb. apply Hb, list_elem_of_lookup. eauto.
Qed.

Lemma hist_ok_log F it (st : sa_locals F) b :
  it = S (length (h_best_cost (hist st))) ->
  hist_ok (hist st) b -> best_cost st <= b ->
  hist_ok (hist (log_history F it st)) (best_cost st)
  ∧ S it = S (length (h_best_cost (hist (log_history F it st)))).
Proof.
  intros -> (Hit & Hmono & Hall) Hle. unfold hist_ok, log_history.
  cbn [hist h_iter h_best_cost h_current_cost best_cost]. split; [split; [|split]|].
  - rewrite Hit, length_app. cbn. rewrite Nat.add_1_r, seq_S. reflexivity.
  - apply non_increasing_snoc; [exact Hmono|].
    eapply Forall_impl; [exact Hall|]. cbn. intros; lia.
  - apply Forall_app. split; [|repeat constructor; lia].
    eapply Forall_impl; [exact Hall|]. cbn. intros; lia.
  - rewrite length_app. cbn. lia.
Qed.

(** The test of the live plot raises only when the plot is live and the
    interval is 0, and changes nothing. *)
Lemma wp_live_update live_plot update_interval w (Q : unit -> world -> Prop) E :
  (live_plot = true -> update_interval = 0 -> E ZeroDivisionError w) ->
  (Q () w) ->
  wp (live_update live_plot update_interval) w Q E.
Proof.
  intros HE HQ. unfold live_update.
  destruct live_plot; cbn [andb]; [|exact HQ].
  destruct (update_interval =? 0) eqn:Hz; [|exact HQ].
  apply Z.eqb_eq in Hz. apply wp_raise. auto.
Qed.

(** The end of the search raises only when the plot is live and the loop
    had no turn to make. *)
Lemma wp_final_update live_plot max_iter w (Q : unit -> world -> Prop) E :
  (live_plot = true -> max_iter <= 0 -> E UnboundLocalError w) ->
  (Q () w) ->
  wp (if live_plot && (max_iter <? 1) then raise UnboundLocalError else mret ()) w Q E.
Proof.
  intros HE HQ. destruct live_plot; cbn [andb]; [|exact HQ].
  destruct (max_iter <? 1) eqn:Hz; [|exact HQ].
  apply Z.ltb_lt in Hz. apply wp_raise. apply HE; [reflexivity | lia].
Qed.

(** The loop keeps the history well formed, and raises only for want of a
    room or of a slot, or on a live plot with interval 0. *)
Lemma sa_loop_spec g F live_plot update_interval alpha stop_if_zero :
  ∀ todo it (st : sa_locals F) w,
  it = S (length (h_best_cost (hist st))) ->
  hist_ok (hist st) (best_cost st) ->
  wp (sa_loop g F live_plot update_interval alpha stop_if_zero todo it st) w
    (λ st' _, hist_ok (hist st') (best_cost st'))
    (λ _ _, rooms g = [] ∨ slots g = [] ∨ (live_plot = true ∧ update_interval = 0)).
Proof.
  induction todo as [|todo IH]; intros it st w Hit Hok; cbn [sa_loop].
  - apply wp_ret, Hok.
  - destruct (le_1e_8 F (T st)); [apply wp_ret, Hok|].
    apply wp_bind.
    eapply wp_mono; [apply neighbor_solution_spec | | intros _ w' [_ [He|He]]; auto].
    intros neighbor w1 _. apply wp_bind.
    eapply wp_mono; [apply cost_function_total | | intros ? ? []].
    intros neighbor_cost w2 _. apply wp_bind.
    eapply wp_post with (Q := λ (_ : bool) _, True).
    { destruct (neighbor_cost - current_cost st <? 0); [apply wp_ret, I|].
      apply wp_bind, wp_random_random. apply wp_ret, I. }
    intros accepted w3 _. apply wp_bind.
    eapply wp_post with
      (Q := λ (st' : sa_locals F) _,
              hist st' = hist st ∧ T st' = T st ∧ best_cost st' <= best_cost st).
    { destruct accepted.
      - eapply wp_mono; [apply accept_spec | auto | intros ? ? []].
      - apply wp_ret. repeat split. lia. }
    intros st' w4 (Hh & HT & Hb).
    destruct (hist_ok_log F it st' (best_cost st)) as [Hok' Hit'];
      [rewrite Hh; exact Hit | rewrite Hh; exact Hok | exact Hb|].
    apply wp_bind, wp_live_update; [auto|].
    destruct (stop_if_zero && (best_cost (log_history F it st') =? 0));
      [apply wp_ret, Hok'|].
    apply IH; [exact Hit' | exact Hok'].
Qed.

Lemma simulated_annealing_spec g F max_iter T0 alpha stop_if_zero live_plot
    update_interval w :
  wp (simulated_annealing g F max_iter T0 alpha stop_if_zero live_plot update_interval) w
    (λ '(_, bc, h) _, hist_ok h bc)
    (λ _ _, rooms g = [] ∨ slots g = []
            ∨ (live_plot = true ∧ (update_interval = 0 ∨ max_iter <= 0))).
Proof.
  unfold simulated_annealing. apply wp_bind.
  eapply wp_mono; [apply random_solution_spec | | intros _ w' [_ [He|He]]; auto].
  intros init w1 _. apply wp_bind.
  eapply wp_mono; [apply cost_function_total | | intros ? ? []].
  intros init_cost w2 _. apply wp_bind, wp_elements_of. apply wp_bind, wp_new_list.
  apply wp_bind. eapply wp_mono; [apply sa_loop_spec| |].
  - reflexivity.
  - cbn. split; [reflexivity|]. split; [|constructor].
    intros i j x y _ Hi. destruct i; discriminate Hi.
  - intros st w3 Hok. apply wp_bind, wp_final_update; [auto 6|].
    apply wp_ret. exact Hok.
  - intros _ w3 [He|[He|[Hl Hu]]]; auto 6.
Qed.

(** C5: in the history that a run returns, the best cost recorded at a
    later iteration is never above the best cost recorded at an earlier one;
    and a run does return its history when there is a room and a slot to
    draw and, if the plot is live, the interval is not 0 and there is a turn
    to make. *)
Theorem best_cost_non_increasing g F max_iter T0 alpha stop_if_zero live_plot
    update_interval w :
  (∀ b bc h w',
     simulated_annealing g F max_iter T0 alpha stop_if_zero live_plot update_interval w
     = (Ok (b, bc, h), w') ->
     ∀ p q i j x y,
       h_iter h !! p = Some i -> h_iter h !! q = Some j -> (i < j)%nat ->
       h_best_cost h !! p = Some x -> h_best_cost h !! q = Some y ->
       y <= x)
  ∧ (rooms g ≠ [] -> slots g ≠ [] ->
     (live_plot = true -> update_interval ≠ 0 ∧ 0 < max_iter) ->
     ∃ r w', simulated_annealing g F max_iter T0 alpha stop_if_zero live_plot
               update_interval w = (Ok r, w')).
Proof.
  pose proof (simulated_annealing_spec g F max_iter T0 alpha stop_if_zero live_plot
                update_interval w) as H.
  split.
  - intros b bc h w' Hrun. pose proof (wp_run _ _ _ _ _ _ H Hrun) as (Hit & Hmono & _).
    intros p q i j x y Hp Hq Hij Hx Hy. rewrite Hit in Hp, Hq.
    apply lookup_seq in Hp as [-> _]. apply lookup_seq in Hq as [-> _].
    apply (Hmono p q); [lia | exact Hx | exact Hy].
  - intros Hrooms Hslots Hplot. unfold wp in H.
    destruct (simulated_annealing g F max_iter T0 alpha stop_if_zero live_plot
                update_interval w) as [[r|e] w']; [eauto|].
    destruct H as [H|[H|[Hl H]]]; [contradiction | contradiction |].
    destruct (Hplot Hl) as [Hu Hm]. destruct H; [contradiction | lia].
Qed.

Lemma best_cost_non_increasing_witness :
  ∃ r w', simulated_annealing demo Qfloat 4 (Qmake 500 1) (Qmake 9997 10000) true
            true 5 (fresh_world [8; 3; 1; 4; 1; 5; 9; 2; 6]%N) = (Ok r, w').
Proof.
  destruct (best_cost_non_increasing demo Qfloat 4 (Qmake 500 1) (Qmake 9997 10000)
              true true 5 (fresh_world [8; 3; 1; 4; 1; 5; 9; 2; 6]%N)) as [_ Hok].
  apply Hok; [discriminate | discriminate |]. intros _. split; [discriminate | lia].
Defined.

(** * Further properties of the engine *)

(** ** The slot cache *)

Lemma parse_fresh_error label e : parse_fresh label = Raise e -> e = ValueError.
Proof.
  unfold parse_fresh. repeat case_match; congruence.
Qed.

(** The three ways a call of [parse_slot] can go: a hit, a miss that
    parses, a miss that fails. *)
Lemma parse_slot_cases label w :
  (∃ v, _slot_parsed w !! label = Some v ∧ parse_slot label w = (Ok v, w))
  ∨ (∃ v, _slot_parsed w !! label = None ∧ parse_fresh label = Ok v
          ∧ parse_slot label w
            = (Ok v, set_slot_parsed (<[label := v]> (_slot_parsed w)) w))
  ∨ (_slot_parsed w !! label = None ∧ parse_fresh label = Raise ValueError
     ∧ parse_slot label w = (Raise ValueError, w)).
Proof.
  unfold parse_slot. rewrite bind_run. unfold gets.
  destruct (_slot_parsed w !! label) as [v|] eqn:Hl; [left; eauto|].
  destruct (parse_fresh label) as [v|e] eqn:Hp.
  - right. left. exists v. auto.
  - right. right. rewrite (parse_fresh_error _ _ Hp). auto.
Qed.

(** X1: Memoization: a parse that succeeds is in the cache afterwards, the next
    call for the label returns the same value and changes nothing, and no
    other entry of the cache has changed.  A parse that fails raises
    [ValueError] and leaves the world as it was: failures are not cached. *)
Theorem parse_slot_memo label w :
  (∀ v, (parse_slot label w).1 = Ok v ->
     let w' := (parse_slot label w).2 in
     _slot_parsed w' !! label = Some v
     ∧ parse_slot label w' = (Ok v, w')
     ∧ w' = set_slot_parsed (<[label := v]> (_slot_parsed w)) w)
  ∧ (∀ e, (parse_slot label w).1 = Raise e ->
     e = ValueError ∧ (parse_slot label w).2 = w
     ∧ _slot_parsed w !! label = None).
Proof.
  destruct (parse_slot_cases label w)
    as [(v & Hl & Hrun) | [(v & Hl & Hp & Hrun) | (Hl & Hp & Hrun)]];
    rewrite Hrun; cbn [fst snd]; (split; [intros v' Hv | intros e He]);
    try discriminate.
  - injection Hv as <-. split; [exact Hl|]. split; [exact Hrun|].
    rewrite insert_id by exact Hl. symmetry. apply set_slot_parsed_id.
  - injection Hv as <-. cbn. split; [apply lookup_insert_eq|]. split; [|reflexivity].
    unfold parse_slot. rewrite bind_run. unfold gets. cbn [_slot_parsed set_slot_parsed].
    rewrite lookup_insert_eq. reflexivity.
  - injection He as <-. auto.
Qed.

Lemma parse_slot_memo_witness :
  parse_slot "Tue 14:30-16:00" (parse_slot "Tue 14:30-16:00" (fresh_world [])).2
  = (Ok ("Tue", 870), (parse_slot "Tue 14:30-16:00" (fresh_world [])).2).
Proof.
  destruct (parse_slot_memo "Tue 14:30-16:00" (fresh_world [])) as [Hok _].
  destruct (Hok ("Tue", 870)) as (_ & H & _); [vm_compute; reflexivity|].
  exact H.
Defined.

(** X3: [refresh_caches] never raises.  Whatever the caches held, the slot
    cache holds afterwards exactly the slots of the catalogue that parse,
    with their parse, a malformed slot being skipped; the teacher cache
    holds exactly the courses of the catalogue, each with its teacher or the
    empty string; nothing else in the world has changed. *)
Theorem refresh_caches_exact g w :
  ∃ w', refresh_caches g w = (Ok (), w')
    ∧ (∀ k v, _slot_parsed w' !! k = Some v ↔ k ∈ slots g ∧ parse_fresh k = Ok v)
    ∧ (∀ c, _course_teacher_cache w' !! c
            = if decide (c ∈ courses g) then Some (default "" (faculty g !! c)) else None)
    ∧ requirements w' = requirements w ∧ random w' = random w ∧ heap w' = heap w.
Proof.
  assert (wp (refresh_caches g) w
            (λ _ w', ∃ c tc, w' = set_course_teacher_cache tc (set_slot_parsed c w)
               ∧ (∀ k v, c !! k = Some v ↔ k ∈ slots g ∧ parse_fresh k = Ok v)
               ∧ teacher_cache_fresh g tc) never) as H.
  { unfold refresh_caches. apply wp_bind, wp_modify. apply wp_bind.
    eapply wp_post;
      [apply (wp_for_ (λ done w', ∃ c, w' = set_slot_parsed c w
                 ∧ ∀ k v, c !! k = Some v ↔ k ∈ done ∧ parse_fresh k = Ok v))|].
    - exists ∅. split; [reflexivity|]. intros k v. rewrite lookup_empty.
      split; [discriminate|]. intros [Hk _]. destruct (not_elem_of_nil _ Hk).
    - intros done s w1 (c & -> & Hc).
      destruct (parse_slot_cases s (set_slot_parsed c w))
        as [(v & Hl & Hrun) | [(v & Hl & Hp & Hrun) | (Hl & Hp & Hrun)]];
        cbn [_slot_parsed set_slot_parsed] in *;
        (eapply wp_of_run; [rewrite bind_run; unfold try; rewrite Hrun; reflexivity|]).
      + exists c. split; [destruct w; reflexivity|]. intros k v'.
        rewrite elem_of_app, list_elem_of_singleton, Hc. split; [tauto|].
        intros [[Hk| ->] Hp]; [auto|]. apply Hc in Hl as [Hs Hp']. split; [exact Hs|].
        congruence.
      + exists (<[s := v]> c). split; [reflexivity|]. intros k v'.
        rewrite elem_of_app, list_elem_of_singleton, lookup_insert.
        destruct (decide (s = k)) as [->|Hne].
        * split; [intros [= <-]; auto | intros [_ Hp']; congruence].
        * rewrite Hc. split; [tauto|]. intros [[Hk|Hk] Hp']; [auto | congruence].
      + exists c. split; [destruct w; reflexivity|]. intros k v'.
        rewrite elem_of_app, list_elem_of_singleton, Hc. split; [tauto|].
        intros [[Hk| ->] Hp']; [auto | congruence].
    - intros [] w1 (c & -> & Hc). apply wp_bind, wp_modify.
      eapply wp_post;
        [apply (wp_for_ (λ done w', ∃ tc,
                  w' = set_course_teacher_cache tc (set_slot_parsed c w)
                  ∧ ∀ k, tc !! k = if decide (k ∈ done) then Some (teacher_of g k) else None))|].
      + exists ∅. split; [reflexivity|]. intros k. rewrite lookup_empty.
        rewrite decide_False; [reflexivity | apply not_elem_of_nil].
      + intros done x w2 (tc & -> & Htc). apply wp_modify.
        exists (<[x := default "" (faculty g !! x)]> tc). split; [reflexivity|].
        intros k. rewrite lookup_insert. case_decide as Hk.
        * subst k. rewrite decide_True; [reflexivity|].
          apply elem_of_app. right. apply list_elem_of_singleton. reflexivity.
        * rewrite Htc. destruct (decide (k ∈ done)).
          -- rewrite decide_True; [reflexivity | apply elem_of_app; auto].
          -- rewrite decide_False; [reflexivity|].
             rewrite elem_of_app, list_elem_of_singleton. intros [?|?]; congruence.
      + intros [] w2 (tc & -> & Htc). exists c, tc. auto. }
  apply run_of_wp in H as ([] & w' & Hrun & c & tc & -> & Hc & Htc).
  exists (set_course_teacher_cache tc (set_slot_parsed c w)).
  split; [exact Hrun|]. split; [exact Hc|]. split; [exact Htc|]. auto.
Qed.

(** ** What an evaluation leaves behind *)

Lemma parse_slot_grows label w :
  ∃ c, (parse_slot label w).2 = set_slot_parsed c w
       ∧ _slot_parsed w ⊆ c
       ∧ ∀ k x, c !! k = Some x ->
           _slot_parsed w !! k = Some x ∨ (parse_fresh k = Ok x ∧ k = label).
Proof.
  destruct (parse_slot_cases label w)
    as [(v & Hl & Hrun) | [(v & Hl & Hp & Hrun) | (Hl & Hp & Hrun)]]; rewrite Hrun;
    cbn [snd].
  - exists (_slot_parsed w). rewrite set_slot_parsed_id. auto.
  - exists (<[label := v]> (_slot_parsed w)). split; [reflexivity|].
    split; [apply insert_subseteq; exact Hl|].
    intros k x. rewrite lookup_insert. case_decide as Hk; [|auto].
    subst k. intros [= <-]. auto.
  - exists (_slot_parsed w). rewrite set_slot_parsed_id. auto.
Qed.

(** X4: The cost function never raises, whatever the labels and the caches.
    It leaves the heap, the random source, the requirements and the teacher
    cache as they were; the slot cache keeps its entries and gains only
    parses of slots of the solution. *)
Theorem cost_function_frame g t w :
  ∃ v c, cost_function g t w = (Ok v, set_slot_parsed c w)
    ∧ _slot_parsed w ⊆ c
    ∧ ∀ k x, c !! k = Some x ->
        _slot_parsed w !! k = Some x
        ∨ (parse_fresh k = Ok x ∧ k ∈ slot_of <$> default [] (heap w !! t)).
Proof.
  set (I := λ (done : list assignment) (w' : world),
         ∃ c, w' = set_slot_parsed c w ∧ _slot_parsed w ⊆ c
           ∧ ∀ k x, c !! k = Some x ->
               _slot_parsed w !! k = Some x
               ∨ (parse_fresh k = Ok x ∧ k ∈ slot_of <$> done)).
  assert (wp (cost_function g t) w (λ _ w', I (default [] (heap w !! t)) w') never) as H.
  { unfold cost_function. apply wp_bind, wp_elements_of. apply wp_bind.
    eapply wp_post;
      [apply (wp_for_acc (λ done _ w', I done w'))
      | intros st w' HI; apply wp_ret; exact HI].
    - exists (_slot_parsed w). rewrite set_slot_parsed_id. split; [reflexivity|]. auto.
    - intros done [[course slot] room] st w1 (c & -> & Hsub & Hnew).
      assert (Hweak : I (done ++ [(course, slot, room)])%list (set_slot_parsed c w)).
      { exists c. split; [reflexivity|]. split; [exact Hsub|].
        intros k x Hk. destruct (Hnew k x Hk) as [?|[? Hin]]; [auto|]. right.
        split; [assumption|]. rewrite fmap_app. apply elem_of_app. auto. }
      unfold cost_step. apply wp_bind, wp_gets. case_decide; [apply wp_ret, Hweak|].
      apply wp_bind, wp_try.
      destruct (parse_slot_grows slot (set_slot_parsed c w)) as (c' & Hw' & Hsub' & Hnew').
      cbn [_slot_parsed set_slot_parsed] in Hw', Hsub', Hnew'.
      assert (HI' : I (done ++ [(course, slot, room)])%list
                      (parse_slot slot (set_slot_parsed c w)).2).
      { exists c'. split; [exact Hw'|]. split; [etrans; eassumption|].
        intros k x Hk. rewrite fmap_app, elem_of_app.
        destruct (Hnew' k x Hk) as [Hold|[Hp ->]].
        - destruct (Hnew k x Hold) as [?|[? ?]]; auto.
        - right. split; [exact Hp|]. right. apply list_elem_of_singleton. reflexivity. }
      unfold wp. destruct (parse_slot slot (set_slot_parsed c w)) as [[[day m]|e] w2];
        exact HI'. }
  apply run_of_wp in H as (v & w' & Hrun & c & -> & Hsub & Hnew). eauto.
Qed.

(** ** The penalty of the loop in closed form *)

Lemma size_add_elem (k : string * string) (U : gset (string * string)) :
  Z.of_nat (size ({[k]} ∪ U)) = Z.of_nat (size U) + (if decide (k ∈ U) then 0 else 1).
Proof.
  destruct (decide (k ∈ U)) as [Hk|Hk].
  - assert ({[k]} ∪ U = U) as -> by (apply subseteq_union_1_L, singleton_subseteq_l, Hk).
    lia.
  - rewrite size_union by (apply disjoint_singleton_l, Hk). rewrite size_singleton. lia.
Qed.

Lemma union_shift (k : string * string) (U K : gset (string * string)) :
  U ∪ ({[k]} ∪ K) = {[k]} ∪ U ∪ K.
Proof. rewrite (assoc_L (∪)), (comm_L (∪) U). reflexivity. Qed.

(** What one turn adds for an assignment that has a teacher. *)
Lemma step_on_assigned g tc st a :
  has_teacher tc a ->
  let st' := step_on g tc st a in
  penalty st'
  = penalty st
    + (if decide (key_fac tc a ∈ used_faculty st) then teacher_slot_conflict (WEIGHTS g) else 0)
    + (if decide (key_room a ∈ used_rooms st) then room_slot_conflict (WEIGHTS g) else 0)
    + (if decide (unpreferred g tc a) then not_preferred (WEIGHTS g) else 0)
    + (if decide (malformed a) then malformed_slot (WEIGHTS g) else 0)
  ∧ used_faculty st' = {[key_fac tc a]} ∪ used_faculty st
  ∧ used_rooms st' = {[key_room a]} ∪ used_rooms st.
Proof.
  destruct a as [[course slot] room]. intros Ht st'. subst st'.
  unfold has_teacher, teacher_in in Ht. cbn [course_of fst] in Ht.
  assert (Hin : ∀ (k : string * string) (U : gset (string * string)),
            k ∈ U -> U = {[k]} ∪ U).
  { intros k U Hk. symmetry. apply subseteq_union_1_L, singleton_subseteq_l, Hk. }
  destruct (decide (unpreferred g tc (course, slot, room))) as [Hu|Hu];
  destruct (decide (malformed (course, slot, room))) as [Hm|Hm];
  unfold unpreferred, malformed, teacher_in in Hu, Hm;
  unfold step_on, key_fac, key_room, teacher_in;
  cbn [course_of slot_of room_of fst snd] in *;
  rewrite decide_False by exact Ht; cbv zeta;
  repeat (first [case_decide | case_match];
          cbn [penalty used_faculty used_rooms faculty_schedule add_penalty
               add_used_faculty add_used_rooms record_start] in *);
  try contradiction; try (exfalso; tauto); try discriminate;
  (split; [lia|]); split; auto.
Qed.

Lemma step_on_unassigned g tc st a :
  ¬ has_teacher tc a ->
  step_on g tc st a = add_penalty (missing_teacher (WEIGHTS g)) st.
Proof.
  destruct a as [[course slot] room]. unfold has_teacher, teacher_in, step_on.
  cbn [course_of fst]. intros Ht. rewrite decide_True; [reflexivity|].
  destruct (decide (default "" (tc !! course) = "")); [assumption | contradiction].
Qed.

Lemma how_many_cons {A} (P : A -> Prop) `{∀ a, Decision (P a)} a l :
  how_many P (a :: l) = (if decide (P a) then 1 else 0) + how_many P l.
Proof.
  unfold how_many. rewrite filter_cons. destruct (decide (P a)); cbn [length]; lia.
Qed.

(** The penalty after the loop, from any state of the local variables. *)
Lemma loop_penalty_from g tc : ∀ tt st,
  let A := filter (has_teacher tc) tt in
  let n := Z.of_nat (length A) in
  let gain (U K : gset (string * string)) := Z.of_nat (size (U ∪ K)) - Z.of_nat (size U) in
  penalty (foldl (step_on g tc) st tt)
  = penalty st
    + missing_teacher (WEIGHTS g) * (Z.of_nat (length tt) - n)
    + teacher_slot_conflict (WEIGHTS g)
      * (n - gain (used_faculty st) (list_to_set (key_fac tc <$> A)))
    + room_slot_conflict (WEIGHTS g)
      * (n - gain (used_rooms st) (list_to_set (key_room <$> A)))
    + not_preferred (WEIGHTS g) * how_many (unpreferred g tc) A
    + malformed_slot (WEIGHTS g) * how_many malformed A.
Proof.
  induction tt as [|a tt IH]; intros st; cbv zeta.
  - cbn. rewrite !union_empty_r_L. unfold how_many. cbn. lia.
  - cbn [foldl]. rewrite IH. cbv zeta. rewrite filter_cons.
    destruct (decide (has_teacher tc a)) as [Ht|Ht].
    + destruct (step_on_assigned g tc st a Ht) as (Hp & Huf & Hur).
      rewrite Hp, Huf, Hur. cbn [fmap list_fmap length list_to_set foldr].
      rewrite !how_many_cons.
      set (A := filter (has_teacher tc) tt).
      set (KF := list_to_set (key_fac tc <$> A) : gset (string * string)).
      set (KR := list_to_set (key_room <$> A) : gset (string * string)).
      rewrite !union_shift.
      rewrite !size_add_elem.
      destruct (decide (key_fac tc a ∈ used_faculty st));
        destruct (decide (key_room a ∈ used_rooms st));
        destruct (decide (unpreferred g tc a));
        destruct (decide (malformed a)); lia.
    + rewrite (step_on_unassigned g tc st a Ht).
      cbn [penalty used_faculty used_rooms add_penalty length]. lia.
Qed.

(** ** Insertion-ordered dictionaries *)

Section Alist.

Context {V : Type}.
Implicit Types (d : list (string * V)) (k : string).

Lemma alist_get_setdefault_eq k v0 (f : V -> V) d :
  alist_get k (setdefault_with k v0 f d) = Some (f (default v0 (alist_get k d))).
Proof.
  induction d as [|[k' v] d IH]; cbn.
  - rewrite decide_True by reflexivity. reflexivity.
  - destruct (decide (k' = k)) as [->|Hne]; cbn.
    + rewrite decide_True by reflexivity. reflexivity.
    + rewrite decide_False by exact Hne. exact IH.
Qed.

Lemma alist_get_setdefault_ne k k' v0 (f : V -> V) d :
  k' ≠ k -> alist_get k' (setdefault_with k v0 f d) = alist_get k' d.
Proof.
  intros Hne. induction d as [|[k0 v] d IH]; cbn.
  - rewrite decide_False by congruence. reflexivity.
  - destruct (decide (k0 = k)) as [->|Hk]; cbn.
    + rewrite !decide_False by congruence. reflexivity.
    + destruct (decide (k0 = k')); [reflexivity | exact IH].
Qed.

Lemma alist_get_None k d : alist_get k d = None ↔ k ∉ d.*1.
Proof.
  induction d as [|[k' v] d IH]; cbn.
  - split; [intros _; apply not_elem_of_nil | reflexivity].
  - rewrite not_elem_of_cons. destruct (decide (k' = k)) as [->|Hne].
    + split; [discriminate | intros [? _]; congruence].
    + rewrite IH. split; [intros ?; split; [congruence | assumption] | tauto].
Qed.

Lemma alist_get_Some_elem k v d : alist_get k d = Some v -> (k, v) ∈ d.
Proof.
  induction d as [|[k' v'] d IH]; cbn; [discriminate|].
  destruct (decide (k' = k)) as [->|Hne].
  - intros [= ->]. apply elem_of_cons. auto.
  - intros H. apply elem_of_cons. right. apply IH, H.
Qed.

Lemma alist_elem_get k v d : NoDup d.*1 -> (k, v) ∈ d -> alist_get k d = Some v.
Proof.
  induction d as [|[k' v'] d IH]; cbn; [intros _ H; destruct (not_elem_of_nil _ H)|].
  rewrite NoDup_cons. intros [Hk Hd]. rewrite elem_of_cons. intros [[= -> ->]|Hin].
  - rewrite decide_True by reflexivity. reflexivity.
  - rewrite decide_False; [apply IH; assumption|].
    intros ->. apply Hk. apply list_elem_of_fmap. exists (k, v). auto.
Qed.

Lemma keys_setdefault k v0 (f : V -> V) d :
  (setdefault_with k v0 f d).*1 = if decide (k ∈ d.*1) then d.*1 else (d.*1 ++ [k])%list.
Proof.
  induction d as [|[k' v] d IH]; cbn.
  - rewrite decide_False by apply not_elem_of_nil. reflexivity.
  - destruct (decide (k' = k)) as [->|Hne]; cbn.
    + rewrite decide_True by (apply elem_of_cons; auto). reflexivity.
    + rewrite IH. destruct (decide (k ∈ d.*1)) as [Hin|Hin].
      * rewrite decide_True by (apply elem_of_cons; auto). reflexivity.
      * rewrite decide_False; [reflexivity|].
        rewrite elem_of_cons. intros [?|?]; congruence.
Qed.

Lemma NoDup_setdefault k v0 (f : V -> V) d :
  NoDup d.*1 -> NoDup (setdefault_with k v0 f d).*1.
Proof.
  intros Hd. rewrite keys_setdefault. destruct (decide (k ∈ d.*1)) as [Hin|Hin]; [exact Hd|].
  apply NoDup_app. split; [exact Hd|]. split; [|apply NoDup_singleton].
  intros x Hx Hk. apply list_elem_of_singleton in Hk. congruence.
Qed.

Lemma Forall_setdefault (P : V -> Prop) k v0 (f : V -> V) d :
  P (f v0) -> (∀ v, P v -> P (f v)) ->
  Forall (λ kv, P kv.2) d -> Forall (λ kv, P kv.2) (setdefault_with k v0 f d).
Proof.
  intros H0 Hf. induction 1 as [|[k' v] d Hv Hd IH]; cbn.
  - repeat constructor. exact H0.
  - destruct (decide (k' = k)); constructor; cbn; auto.
Qed.

(** With distinct keys, the values are the lookups of the keys. *)
Lemma alist_values v0 d :
  NoDup d.*1 -> d.*2 = (λ k, default v0 (alist_get k d)) <$> d.*1.
Proof.
  induction d as [|[k v] d IH]; cbn; [reflexivity|].
  rewrite NoDup_cons. intros [Hk Hd]. rewrite decide_True by reflexivity. cbn. f_equal.
  rewrite (IH Hd). apply list_fmap_ext. intros i k' Hi.
  rewrite decide_False; [reflexivity|].
  intros ->. apply Hk. apply list_elem_of_lookup. eauto.
Qed.

End Alist.

(** ** The schedule of the teachers *)

Lemma sched_get_record_eq r sch :
  sched_get (sched_record r sch) r.1 = (sched_get sch r.1 ++ [r.2])%list.
Proof.
  unfold sched_get, sched_record. rewrite alist_get_setdefault_eq. cbn [mbind option_bind].
  rewrite alist_get_setdefault_eq. cbn [default from_option id].
  destruct (alist_get r.1.1 sch) as [days|]; reflexivity.
Qed.

Lemma sched_get_record_ne r sch k :
  k ≠ r.1 -> sched_get (sched_record r sch) k = sched_get sch k.
Proof.
  intros Hne. unfold sched_get, sched_record.
  destruct (decide (k.1 = r.1.1)) as [Ht|Ht].
  - rewrite Ht, alist_get_setdefault_eq. cbn [mbind option_bind].
    rewrite alist_get_setdefault_ne.
    + destruct (alist_get r.1.1 sch) as [days|]; reflexivity.
    + intros Hd. apply Hne. destruct k as [t d], r as [[t' d'] m]. cbn in *. congruence.
  - rewrite alist_get_setdefault_ne by exact Ht. reflexivity.
Qed.

Lemma sched_wf_nil : sched_wf [].
Proof. split; constructor. Qed.

Lemma sched_wf_record r sch : sched_wf sch -> sched_wf (sched_record r sch).
Proof.
  intros [Hk Hd]. split.
  - apply NoDup_setdefault, Hk.
  - unfold sched_record.
    apply (Forall_setdefault (λ days : list (string * list Z), NoDup days.*1)).
    + apply (NoDup_setdefault r.1.2 [] _ []). constructor.
    + intros days. apply NoDup_setdefault.
    + exact Hd.
Qed.

Lemma elem_of_sched_keys sch k :
  sched_wf sch ->
  k ∈ sched_keys sch
  ↔ ∃ days, alist_get k.1 sch = Some days ∧ is_Some (alist_get k.2 days).
Proof.
  intros [Hk _]. unfold sched_keys. rewrite list_elem_of_bind. split.
  - intros ([t days] & Hin & Htd). apply list_elem_of_fmap in Hin as ([d l] & -> & Hd).
    exists days. cbn. split; [apply alist_elem_get; assumption|].
    destruct (alist_get d days) eqn:Hg; [eauto|].
    apply alist_get_None in Hg. destruct Hg. apply list_elem_of_fmap. exists (d, l). auto.
  - intros (days & Ht & [l Hd]). exists (k.1, days).
    split; [|apply alist_get_Some_elem, Ht].
    apply list_elem_of_fmap. exists (k.2, l). split; [destruct k; reflexivity|].
    apply alist_get_Some_elem, Hd.
Qed.

Lemma elem_of_sched_keys_record r sch k :
  sched_wf sch ->
  k ∈ sched_keys (sched_record r sch) ↔ k = r.1 ∨ k ∈ sched_keys sch.
Proof.
  intros Hwf. rewrite !elem_of_sched_keys by auto using sched_wf_record.
  unfold sched_record. destruct (decide (k.1 = r.1.1)) as [Ht|Ht].
  - rewrite Ht, alist_get_setdefault_eq. destruct (decide (k.2 = r.1.2)) as [Hd|Hd].
    + assert (k = r.1) as Hkr by (destruct k, r as [[? ?] ?]; cbn in *; congruence).
      split; [auto|]. intros _. eexists. split; [reflexivity|].
      rewrite Hd, alist_get_setdefault_eq. eauto.
    + assert (k ≠ r.1) as Hkr by congruence.
      split.
      * intros (days & [= <-] & Hs). rewrite alist_get_setdefault_ne in Hs by exact Hd.
        right. destruct (alist_get r.1.1 sch) as [days|]; [eauto|].
        cbn in Hs. destruct Hs; discriminate.
      * intros [?|(days & Hg & Hs)]; [contradiction|]. eexists. split; [reflexivity|].
        rewrite alist_get_setdefault_ne by exact Hd. rewrite Hg. exact Hs.
  - assert (k ≠ r.1) as Hkr by congruence.
    rewrite alist_get_setdefault_ne by exact Ht. tauto.
Qed.

Lemma sched_keys_teacher sch k : k ∈ sched_keys sch -> k.1 ∈ sch.*1.
Proof.
  unfold sched_keys. rewrite list_elem_of_bind. intros ([t days] & Hin & Htd).
  apply list_elem_of_fmap in Hin as (dl & -> & _). cbn.
  apply list_elem_of_fmap. exists (t, days). auto.
Qed.

Lemma NoDup_sched_keys sch : sched_wf sch -> NoDup (sched_keys sch).
Proof.
  intros [Hk Hd]. induction sch as [|[t days] sch IH]; [constructor|].
  cbn in Hk. apply NoDup_cons in Hk as [Ht Hk]. apply Forall_cons in Hd as [Hdays Hd].
  change (sched_keys ((t, days) :: sch))
    with (((λ dl : string * list Z, (t, dl.1)) <$> days) ++ sched_keys sch)%list.
  apply NoDup_app. split; [|split; [|apply IH; assumption]].
  - change (λ dl : string * list Z, (t, dl.1)) with (pair t ∘ (fst : string * list Z -> string)).
    rewrite list_fmap_compose. apply NoDup_fmap_2; [|exact Hdays].
    intros x y [= ->]. reflexivity.
  - intros k Hin Hin'. apply list_elem_of_fmap in Hin as (dl & -> & _).
    apply sched_keys_teacher in Hin'. contradiction.
Qed.

(** With distinct keys, the buckets are the lookups of the keys. *)
Lemma buckets_sched_get sch :
  sched_wf sch -> buckets sch = sched_get sch <$> sched_keys sch.
Proof.
  intros [Hk Hd]. induction sch as [|[t days] sch IH]; [reflexivity|].
  cbn in Hk. apply NoDup_cons in Hk as [Ht Hk]. apply Forall_cons in Hd as [Hdays Hd].
  change (sched_keys ((t, days) :: sch))
    with (((λ dl : string * list Z, (t, dl.1)) <$> days) ++ sched_keys sch)%list.
  change (buckets ((t, days) :: sch)) with (days.*2 ++ buckets sch)%list.
  rewrite fmap_app, (IH Hk Hd). f_equal.
  - rewrite (alist_values [] days Hdays), <- !list_fmap_compose.
    apply list_fmap_ext. intros i [d l] _. cbn. unfold sched_get. cbn.
    rewrite decide_True by reflexivity. reflexivity.
  - apply list_fmap_ext. intros i k Hi. unfold sched_get. cbn.
    rewrite decide_False; [reflexivity|]. intros ->. apply Ht.
    apply sched_keys_teacher. apply list_elem_of_lookup. eauto.
Qed.

(** ** The cost in closed form *)

Lemma schedule_step g tc st a :
  faculty_schedule (step_on g tc st a)
  = match (if decide (has_teacher tc a)
           then match parse_fresh (slot_of a) with
                | Ok (day, m) => Some (teacher_in tc a, day, m)
                | Raise _ => None
                end
           else None) with
    | Some r => sched_record r (faculty_schedule st)
    | None => faculty_schedule st
    end.
Proof.
  destruct (decide (has_teacher tc a)) as [Ht|Ht].
  - destruct a as [[course slot] room]. unfold has_teacher, teacher_in in *.
    cbn [course_of slot_of fst snd] in *. unfold step_on.
    rewrite decide_False by exact Ht. cbv zeta.
    repeat (first [case_decide | case_match];
            cbn [penalty used_faculty used_rooms faculty_schedule add_penalty
                 add_used_faculty add_used_rooms record_start] in *);
      simplify_eq; reflexivity.
  - rewrite (step_on_unassigned g tc st a Ht). reflexivity.
Qed.

Lemma schedule_loop g tc : ∀ tt st,
  faculty_schedule (foldl (step_on g tc) st tt)
  = foldl (λ sch r, sched_record r sch) (faculty_schedule st) (recorded tc tt).
Proof.
  induction tt as [|a tt IH]; intros st; [reflexivity|].
  cbn [foldl]. rewrite IH, schedule_step. unfold recorded. cbn [omap list_omap].
  destruct (decide (has_teacher tc a)); [|reflexivity].
  destruct (parse_fresh (slot_of a)) as [[day m]|e]; reflexivity.
Qed.

Lemma starts_of_cons r rec k :
  starts_of (r :: rec) k
  = if decide (r.1 = k) then r.2 :: starts_of rec k else starts_of rec k.
Proof. unfold starts_of. cbn [omap list_omap]. destruct (decide (r.1 = k)); reflexivity. Qed.

Lemma sched_records : ∀ rec sch,
  sched_wf sch ->
  let sch' := foldl (λ sch r, sched_record r sch) sch rec in
  sched_wf sch'
  ∧ (∀ k, sched_get sch' k = (sched_get sch k ++ starts_of rec k)%list)
  ∧ (∀ k, k ∈ sched_keys sch' ↔ k ∈ sched_keys sch ∨ k ∈ rec.*1).
Proof.
  induction rec as [|r rec IH]; intros sch Hwf; cbv zeta.
  - cbn. split; [exact Hwf|]. split.
    + intros k. rewrite app_nil_r. reflexivity.
    + intros k. rewrite elem_of_nil. tauto.
  - cbn [foldl]. destruct (IH (sched_record r sch) (sched_wf_record r sch Hwf))
      as (Hwf' & Hget & Hkeys).
    split; [exact Hwf'|]. split.
    + intros k. rewrite Hget, starts_of_cons. destruct (decide (r.1 = k)) as [<-|Hne].
      * rewrite sched_get_record_eq, <- app_assoc. reflexivity.
      * rewrite sched_get_record_ne by congruence. reflexivity.
    + intros k. rewrite Hkeys, elem_of_sched_keys_record by exact Hwf.
      cbn [fmap list_fmap]. rewrite elem_of_cons. tauto.
Qed.

Lemma Zsum_Permutation l l' : l ≡ₚ l' -> Zsum l = Zsum l'.
Proof.
  unfold Zsum. induction 1; cbn; lia.
Qed.

Lemma day_level_recorded g tc tt :
  day_level g (faculty_schedule
                 (foldl (step_on g tc)
                    {| penalty := 0; used_faculty := ∅; used_rooms := ∅;
                       faculty_schedule := [] |} tt))
  = Zsum ((λ k, spec_bucket (WEIGHTS g) (merge_sort Z.le (starts_of (recorded tc tt) k)))
            <$> remove_dups (recorded tc tt).*1).
Proof.
  rewrite schedule_loop. cbn [faculty_schedule].
  destruct (sched_records (recorded tc tt) [] sched_wf_nil) as (Hwf & Hget & Hkeys).
  cbv zeta in *. set (sch := foldl _ [] (recorded tc tt)) in *.
  rewrite day_level_buckets, (buckets_sched_get sch Hwf), <- list_fmap_compose.
  assert (Hperm : sched_keys sch ≡ₚ remove_dups (recorded tc tt).*1).
  { apply NoDup_Permutation; [apply NoDup_sched_keys, Hwf | apply NoDup_remove_dups|].
    intros k. rewrite Hkeys, elem_of_remove_dups. unfold sched_keys. cbn.
    rewrite elem_of_nil. tauto. }
  rewrite (Zsum_Permutation _ _ (fmap_Permutation _ _ _ Hperm)). f_equal.
  apply list_fmap_ext. intros i k _. cbn. rewrite day_penalty_sorted, Hget. reflexivity.
Qed.

Lemma cost_value_closed g tc tt : cost_value g tc tt = closed_cost g tc tt.
Proof.
  unfold cost_value, closed_cost. rewrite day_level_recorded. f_equal.
  rewrite loop_penalty_from. cbv zeta. cbn [penalty used_faculty used_rooms].
  unfold loop_penalty, distinct. rewrite !union_empty_l_L, size_empty. lia.
Qed.

(** X5: The cost in closed form.  On a consistent slot cache the cost function
    returns: [missing_teacher] for each assignment whose course has no
    teacher; among the others, [teacher_slot_conflict] for each repetition
    of a (teacher, slot) pair, [room_slot_conflict] for each repetition of a
    (room, slot) pair, [not_preferred] for each slot outside a non-empty
    preference list and [malformed_slot] for each label that does not
    parse; and the day-level rule on the sorted start minutes of every
    (teacher, day) that has a parsed session. *)
Theorem cost_function_closed_form g t s w :
  cache_consistent (_slot_parsed w) ->
  heap w !! t = Some s ->
  (cost_function g t w).1 = Ok (closed_cost g (_course_teacher_cache w) s).
Proof.
  intros Hc Hs. destruct (cost_function_run g t w Hc) as (c & -> & _).
  cbn [fst]. rewrite Hs. cbn [default from_option id]. rewrite cost_value_closed.
  reflexivity.
Qed.

Lemma cost_function_closed_form_witness :
  (cost_function demo 0%nat demo_world).1
  = Ok (closed_cost demo (_course_teacher_cache demo_world) demo_solution).
Proof.
  apply (cost_function_closed_form demo 0%nat demo_solution demo_world).
  - apply demo_world_caches.
  - vm_compute. reflexivity.
Defined.

(** ** The order of the assignments *)

Lemma remove_dups_Permutation (l l' : list (string * string)) :
  l ≡ₚ l' -> remove_dups l ≡ₚ remove_dups l'.
Proof.
  intros Hl. apply NoDup_Permutation; [apply NoDup_remove_dups..|].
  intros k. rewrite !elem_of_remove_dups, Hl. reflexivity.
Qed.

Lemma merge_sort_Permutation_eq (l l' : list Z) :
  l ≡ₚ l' -> merge_sort Z.le l = merge_sort Z.le l'.
Proof.
  intros Hl. apply (Sorted_unique Z.le); [apply Sorted_merge_sort, _..|].
  rewrite !merge_sort_Permutation. exact Hl.
Qed.

Lemma closed_cost_Permutation g tc s s' :
  s ≡ₚ s' -> closed_cost g tc s = closed_cost g tc s'.
Proof.
  intros Hs. unfold closed_cost, loop_penalty, distinct, how_many. cbv zeta.
  assert (HA : filter (has_teacher tc) s ≡ₚ filter (has_teacher tc) s') by (rewrite Hs; reflexivity).
  assert (HR : recorded tc s ≡ₚ recorded tc s') by (unfold recorded; rewrite Hs; reflexivity).
  rewrite (Permutation_length Hs), (Permutation_length HA).
  rewrite (list_to_set_perm_L _ _ (fmap_Permutation (key_fac tc) _ _ HA)).
  rewrite (list_to_set_perm_L _ _ (fmap_Permutation key_room _ _ HA)).
  rewrite (Permutation_length (filter_Permutation (unpreferred g tc) _ _ HA)).
  rewrite (Permutation_length (filter_Permutation malformed _ _ HA)).
  f_equal.
  rewrite (Zsum_Permutation _ _
             (fmap_Permutation _ _ _
                (remove_dups_Permutation _ _ (fmap_Permutation fst _ _ HR)))).
  f_equal. apply list_fmap_ext. intros i k _. cbn. f_equal.
  apply merge_sort_Permutation_eq. unfold starts_of. rewrite HR. reflexivity.
Qed.

(** X6: The cost does not depend on the order of the assignments: two
    solutions that are permutations of each other cost the same. *)
Theorem cost_function_order_independent g t t' s s' w w' :
  cache_consistent (_slot_parsed w) -> cache_consistent (_slot_parsed w') ->
  _course_teacher_cache w = _course_teacher_cache w' ->
  heap w !! t = Some s -> heap w' !! t' = Some s' ->
  s ≡ₚ s' ->
  (cost_function g t w).1 = (cost_function g t' w').1.
Proof.
  intros Hc Hc' Htc Hs Hs' Hperm.
  destruct (cost_function_run g t w Hc) as (c & -> & _).
  destruct (cost_function_run g t' w' Hc') as (c' & -> & _).
  cbn [fst]. rewrite Hs, Hs', Htc. cbn [default from_option id].
  rewrite !cost_value_closed, (closed_cost_Permutation _ _ _ _ Hperm). reflexivity.
Qed.

Lemma cost_function_order_independent_witness :
  (cost_function demo 0%nat demo_world).1
  = (cost_function demo 0%nat (set_heap [reverse demo_solution] demo_world)).1.
Proof.
  apply (cost_function_order_independent demo 0%nat 0%nat demo_solution
           (reverse demo_solution) demo_world (set_heap [reverse demo_solution] demo_world)).
  - apply demo_world_caches.
  - apply demo_world_caches.
  - reflexivity.
  - vm_compute. reflexivity.
  - reflexivity.
  - symmetry. apply reverse_Permutation.
Defined.

(** ** Bounds on the cost *)

Lemma distinct_le l : distinct l <= Z.of_nat (length l).
Proof.
  unfold distinct. induction l as [|k l IH]; cbn [list_to_set foldr length].
  - rewrite size_empty. lia.
  - rewrite size_add_elem. destruct (decide (k ∈ list_to_set l)); lia.
Qed.

Lemma distinct_full_NoDup l : distinct l = Z.of_nat (length l) -> NoDup l.
Proof.
  unfold distinct. induction l as [|k l IH]; cbn [list_to_set foldr length]; [constructor|].
  rewrite size_add_elem. pose proof (distinct_le l) as Hle. unfold distinct in Hle.
  destruct (decide (k ∈ list_to_set l)) as [Hin|Hin]; [lia|].
  intros Heq. constructor; [|apply IH; lia].
  intros Hk. apply Hin. apply elem_of_list_to_set. exact Hk.
Qed.

Lemma filter_length_lt {A} (P : A -> Prop) `{∀ a, Decision (P a)} (l : list A) a :
  a ∈ l -> ¬ P a -> (length (filter P l) < length l)%nat.
Proof.
  intros Hin Hna. induction l as [|b l IH]; [destruct (not_elem_of_nil _ Hin)|].
  rewrite filter_cons. pose proof (length_filter P l) as Hle.
  apply elem_of_cons in Hin as [<-|Hin].
  - rewrite decide_False by exact Hna. cbn. lia.
  - specialize (IH Hin). destruct (decide (P b)); cbn; lia.
Qed.

Lemma how_many_pos {A} (P : A -> Prop) `{∀ a, Decision (P a)} (l : list A) a :
  a ∈ l -> P a -> 1 <= how_many P l.
Proof.
  intros Hin Ha. unfold how_many.
  assert (a ∈ filter P l) as Hf by (apply list_elem_of_filter; auto).
  destruct (filter P l); [destruct (not_elem_of_nil _ Hf) | cbn; lia].
Qed.

(** Two positions of a list with the same image under [f], both kept by a
    filter: the images of the filtered list have a repetition. *)
Lemma repeated_key {A} (P : A -> Prop) `{∀ a, Decision (P a)}
    (f : A -> string * string) (l : list A) i j a b :
  i ≠ j -> l !! i = Some a -> l !! j = Some b -> P a -> P b -> f a = f b ->
  distinct (f <$> filter P l) <= Z.of_nat (length (filter P l)) - 1.
Proof.
  assert (Hlt : ∀ i j a b, (i < j)%nat -> l !! i = Some a -> l !! j = Some b ->
            P a -> P b -> f a = f b -> ¬ NoDup (f <$> filter P l)).
  { clear. intros i j a b Hij Hi Hj Ha Hb Hf Hnd.
    rewrite <- (take_drop_middle l i a Hi) in Hj, Hnd.
    rewrite lookup_app_r in Hj by (rewrite length_take; lia).
    rewrite length_take_le in Hj by (apply lookup_lt_Some in Hi; lia).
    replace (j - i)%nat with (S (j - i - 1)) in Hj by lia. cbn in Hj.
    assert (b ∈ drop (S i) l) as Hin by (apply list_elem_of_lookup; eauto).
    rewrite filter_app, filter_cons_True, fmap_app in Hnd by exact Ha.
    cbn [fmap list_fmap] in Hnd.
    apply NoDup_app in Hnd as (_ & _ & Hnd). apply NoDup_cons in Hnd as [Hnd _].
    apply Hnd. rewrite Hf. apply list_elem_of_fmap. exists b. split; [reflexivity|].
    apply list_elem_of_filter. auto. }
  intros Hij Hi Hj Ha Hb Hf.
  assert (¬ NoDup (f <$> filter P l)) as Hnd.
  { destruct (decide (i < j)%nat); [eapply Hlt; eauto|].
    eapply (Hlt j i b a); eauto. lia. }
  pose proof (distinct_le (f <$> filter P l)) as Hle. rewrite length_fmap in Hle.
  destruct (decide (distinct (f <$> filter P l) = Z.of_nat (length (filter P l)))) as [Heq|Hne];
    [|lia].
  destruct Hnd. apply distinct_full_NoDup. rewrite length_fmap. exact Heq.
Qed.

Lemma spec_bucket_nonneg_weights W sorted : non_negative W -> 0 <= spec_bucket W sorted.
Proof.
  intros (_ & _ & _ & _ & _ & Hb & Hg & Ht). unfold spec_bucket.
  pose proof (count_if_nonneg (λ d, 0 < d ∧ d <= 60) (differences sorted)).
  pose proof (count_if_nonneg (λ d, 60 < d) (differences sorted)).
  destruct (decide (5 <= length sorted)%nat); nia.
Qed.

(** Every term of the closed form is a weight times a count that is not
    negative. *)
Lemma closed_cost_parts g tc tt :
  non_negative (WEIGHTS g) ->
  let A := filter (has_teacher tc) tt in
  let n := Z.of_nat (length A) in
  0 <= Z.of_nat (length tt) - n
  ∧ 0 <= n - distinct (key_fac tc <$> A)
  ∧ 0 <= n - distinct (key_room <$> A)
  ∧ 0 <= how_many (unpreferred g tc) A
  ∧ 0 <= how_many malformed A
  ∧ 0 <= Zsum ((λ k, spec_bucket (WEIGHTS g)
                       (merge_sort Z.le (starts_of (recorded tc tt) k)))
                 <$> remove_dups (recorded tc tt).*1).
Proof.
  intros HW A n. subst A n.
  pose proof (length_filter (has_teacher tc) tt).
  pose proof (distinct_le (key_fac tc <$> filter (has_teacher tc) tt)) as H1.
  pose proof (distinct_le (key_room <$> filter (has_teacher tc) tt)) as H2.
  rewrite length_fmap in H1, H2. unfold how_many.
  repeat split; try lia.
  induction (remove_dups (recorded tc tt).*1) as [|k ks IH]; [reflexivity|].
  cbn [fmap list_fmap Zsum foldr]. unfold Zsum in IH.
  pose proof (spec_bucket_nonneg_weights (WEIGHTS g)
                (merge_sort Z.le (starts_of (recorded tc tt) k)) HW). lia.
Qed.

(** X7: The cost is never negative when no weight is. *)
Theorem cost_function_nonneg g t s w v :
  non_negative (WEIGHTS g) ->
  cache_consistent (_slot_parsed w) ->
  heap w !! t = Some s ->
  (cost_function g t w).1 = Ok v ->
  0 <= v.
Proof.
  intros HW Hc Hs Hv. destruct (cost_function_run g t w Hc) as (c & Hrun & _).
  rewrite Hrun, Hs in Hv. cbn [fst default from_option id] in Hv. injection Hv as <-.
  rewrite cost_value_closed. unfold closed_cost, loop_penalty. cbv zeta.
  destruct (closed_cost_parts g (_course_teacher_cache w) s HW) as (H0 & H1 & H2 & H3 & H4 & H5).
  cbv zeta in *. destruct HW as (W1 & W2 & W3 & W4 & W5 & _). nia.
Qed.

Lemma cost_function_nonneg_witness :
  (cost_function demo 0%nat demo_unpreferred_world).1 = Ok 2 ∧ 0 <= 2.
Proof.
  split; [vm_compute; reflexivity|].
  apply (cost_function_nonneg demo 0%nat demo_unpreferred demo_unpreferred_world 2).
  - unfold non_negative. cbn. lia.
  - apply demo_world_caches.
  - reflexivity.
  - vm_compute. reflexivity.
Defined.

(** X8: Every hard violation is charged.  When no weight is negative, the cost
    is at least [missing_teacher] if some course of the solution has no
    teacher, at least [malformed_slot] if some assignment with a teacher has
    a label that does not parse, at least [teacher_slot_conflict] if two
    assignments share a teacher and a slot, and at least
    [room_slot_conflict] if two assignments whose courses have teachers
    share a room and a slot. *)
Theorem hard_violations_charged g t s w v :
  non_negative (WEIGHTS g) ->
  cache_consistent (_slot_parsed w) ->
  heap w !! t = Some s ->
  (cost_function g t w).1 = Ok v ->
  let tc := _course_teacher_cache w in
  (∀ a, a ∈ s -> ¬ has_teacher tc a -> missing_teacher (WEIGHTS g) <= v)
  ∧ (∀ a, a ∈ s -> has_teacher tc a -> malformed a -> malformed_slot (WEIGHTS g) <= v)
  ∧ (∀ i j a b, i ≠ j -> s !! i = Some a -> s !! j = Some b ->
       has_teacher tc a -> has_teacher tc b -> key_fac tc a = key_fac tc b ->
       teacher_slot_conflict (WEIGHTS g) <= v)
  ∧ (∀ i j a b, i ≠ j -> s !! i = Some a -> s !! j = Some b ->
       has_teacher tc a -> has_teacher tc b -> key_room a = key_room b ->
       room_slot_conflict (WEIGHTS g) <= v).
Proof.
  intros HW Hc Hs Hv tc. destruct (cost_function_run g t w Hc) as (c & Hrun & _).
  rewrite Hrun, Hs in Hv. cbn [fst default from_option id] in Hv. injection Hv as <-.
  rewrite cost_value_closed. unfold closed_cost, loop_penalty. cbv zeta. fold tc.
  destruct (closed_cost_parts g tc s HW) as (H0 & H1 & H2 & H3 & H4 & H5).
  cbv zeta in *. destruct HW as (W1 & W2 & W3 & W4 & W5 & _).
  split; [|split; [|split]].
  - intros a Hin Hna. pose proof (filter_length_lt (has_teacher tc) s a Hin Hna). nia.
  - intros a Hin Ha Hm.
    assert (1 <= how_many malformed (filter (has_teacher tc) s)) as Hpos.
    { apply (how_many_pos _ _ a); [apply list_elem_of_filter; auto | exact Hm]. }
    nia.
  - intros i j a b Hij Hi Hj Ha Hb Hk.
    pose proof (repeated_key (has_teacher tc) (key_fac tc) s i j a b Hij Hi Hj Ha Hb Hk). nia.
  - intros i j a b Hij Hi Hj Ha Hb Hk.
    pose proof (repeated_key (has_teacher tc) key_room s i j a b Hij Hi Hj Ha Hb Hk). nia.
Qed.

Lemma hard_violations_charged_witness :
  (cost_function demo 0%nat (set_heap [[("DB", "BadSlot", "Lab1")]] demo_world)).1
  = Ok 20000
  ∧ malformed_slot (WEIGHTS demo) <= 20000.
Proof.
  split; [vm_compute; reflexivity|].
  pose (w := set_heap [[("DB", "BadSlot", "Lab1")]] demo_world).
  destruct (hard_violations_charged demo 0%nat [("DB", "BadSlot", "Lab1")] w 20000)
    as (_ & H & _).
  - unfold non_negative. cbn. lia.
  - apply demo_world_caches.
  - reflexivity.
  - vm_compute. reflexivity.
  - apply (H ("DB", "BadSlot", "Lab1")).
    + apply list_elem_of_singleton. reflexivity.
    + unfold has_teacher. vm_compute. discriminate.
    + vm_compute. exact I.
Defined.

(** ** Labels of the expected shape *)

Lemma digit_plain c d :
  Str.digit_of c = Some d ->
  Str.is_space c = false ∧ c ≠ "+"%char ∧ c ≠ "-"%char.
Proof.
  destruct c as [[] [] [] [] [] [] [] []]; vm_compute; intros H;
    try discriminate H; repeat split; discriminate.
Qed.

Lemma all_digits_cons c s :
  all_digits (String c s) = true -> (∃ d, Str.digit_of c = Some d) ∧ all_digits s = true.
Proof.
  cbn. intros H. apply andb_true_iff in H as [Hc Hs].
  apply bool_decide_eq_true_1 in Hc as [d Hd]. eauto.
Qed.

Lemma rstrip_digits s : all_digits s = true -> Str.rstrip s = s.
Proof.
  induction s as [|c s IH]; [reflexivity|]. intros H.
  apply all_digits_cons in H as [[d Hd] Hs]. cbn. rewrite (IH Hs).
  destruct s; [|reflexivity]. destruct (digit_plain c d Hd) as (-> & _). reflexivity.
Qed.

Lemma digits_all_digits s : ∀ acc seen,
  all_digits s = true -> s ≠ "" ∨ seen = true -> is_Some (Str.digits acc seen s).
Proof.
  induction s as [|c s IH]; intros acc seen H Hne; cbn.
  - destruct Hne as [?| ->]; [congruence | eauto].
  - apply all_digits_cons in H as [[d Hd] Hs]. rewrite Hd. apply IH; auto.
Qed.

Lemma ndigits_length s : Str.ndigits s <= Z.of_nat (String.length s).
Proof.
  induction s as [|c s IH]; [reflexivity|].
  cbn [Str.ndigits String.length]. destruct (Str.digit_of c); lia.
Qed.

Lemma split_piece_length sep s : ∀ p,
  p ∈ Str.split sep s -> (String.length p <= String.length s)%nat.
Proof.
  induction s as [|c s IH]; intros p; cbn [Str.split String.length].
  - intros ->%list_elem_of_singleton. reflexivity.
  - destruct (Ascii.eqb c sep).
    + intros [->|Hp]%elem_of_cons; [cbn; lia|]. specialize (IH p Hp). lia.
    + destruct (Str.split sep s) as [|h t]; [intros ->%list_elem_of_singleton; cbn; lia|].
      intros [->|Hp]%elem_of_cons.
      * assert (h ∈ h :: t) as Hh by (apply elem_of_cons; auto).
        specialize (IH h Hh). cbn [String.length]. lia.
      * assert (p ∈ h :: t) as Hp' by (apply elem_of_cons; auto).
        specialize (IH p Hp'). lia.
Qed.

Lemma split1_piece_length sep s : ∀ p,
  p ∈ Str.split1 sep s -> (String.length p <= String.length s)%nat.
Proof.
  induction s as [|c s IH]; intros p; cbn [Str.split1 String.length].
  - intros ->%list_elem_of_singleton. reflexivity.
  - destruct (Ascii.eqb c sep).
    + intros [->|Hp]%elem_of_cons; [cbn; lia|].
      apply list_elem_of_singleton in Hp as ->. lia.
    + destruct (Str.split1 sep s) as [|h t]; [intros ->%list_elem_of_singleton; cbn; lia|].
      intros [->|Hp]%elem_of_cons.
      * assert (h ∈ h :: t) as Hh by (apply elem_of_cons; auto).
        specialize (IH h Hh). cbn [String.length]. lia.
      * assert (p ∈ h :: t) as Hp' by (apply elem_of_cons; auto).
        specialize (IH p Hp'). lia.
Qed.

(** [int] accepts every non-empty run of at most [max_str_digits] digits. *)
Lemma int_all_digits s :
  all_digits s = true -> s ≠ "" ->
  Z.of_nat (String.length s) <= Str.max_str_digits ->
  ∃ z, Str.int s = Some z ∧ 0 <= z.
Proof.
  intros H Hne Hlen. destruct s as [|c s]; [congruence|].
  pose proof (all_digits_cons c s H) as [[d Hd] Hs].
  destruct (digit_plain c d Hd) as (Hsp & Hplus & Hminus).
  assert (Str.strip (String c s) = String c s) as Hstrip.
  { unfold Str.strip. cbn [Str.lstrip]. rewrite Hsp. apply rstrip_digits, H. }
  destruct (digits_all_digits (String c s) 0 false H) as [z Hz]; [left; discriminate|].
  exists z. split; [|eapply digits_nonneg; [|exact Hz]; lia].
  assert (Str.number (String c s) = Some z) as Hn.
  { unfold Str.number. pose proof (ndigits_length (String c s)) as Hle.
    destruct (Str.max_str_digits <? Str.ndigits (String c s)) eqn:Hlt; [|exact Hz].
    apply Z.ltb_lt in Hlt. lia. }
  unfold Str.int. rewrite Hstrip.
  destruct c as [[] [] [] [] [] [] [] []]; try exact Hn; congruence.
Qed.

(** X2: Every label of the expected shape, of at most [max_str_digits]
    characters, parses, to a start minute that is not negative. *)
Theorem well_shaped_slot_parses label w :
  cache_consistent (_slot_parsed w) ->
  spec_shape label = true ->
  Z.of_nat (String.length label) <= Str.max_str_digits ->
  ∃ day start_minutes,
    (parse_slot label w).1 = Ok (day, start_minutes) ∧ 0 <= start_minutes.
Proof.
  intros Hc Hshape Hlen. rewrite (parse_slot_value _ _ Hc).
  unfold spec_shape in Hshape. unfold parse_fresh.
  pose proof (split1_piece_length " " label) as Hl1.
  destruct (Str.split1 " " label) as [|day [|range [|]]]; try discriminate.
  assert (String.length range <= String.length label)%nat as Hrange
    by (apply Hl1; repeat constructor).
  pose proof (split_piece_length "-" range) as Hl2.
  destruct (Str.split "-" range) as [|start [|stop [|]]]; try discriminate.
  assert (String.length start <= String.length range)%nat as Hstartlen
    by (apply Hl2; repeat constructor).
  apply andb_true_iff in Hshape as [Hstart _]. unfold is_hh_mm in Hstart.
  pose proof (split_piece_length ":" start) as Hl3.
  cbn [hd]. destruct (Str.split ":" start) as [|h [|m [|]]]; try discriminate.
  assert (String.length h <= String.length start)%nat as Hhlen
    by (apply Hl3; repeat constructor).
  assert (String.length m <= String.length start)%nat as Hmlen
    by (apply Hl3; repeat constructor).
  apply andb_true_iff in Hstart as [Hstart Hm].
  apply andb_true_iff in Hstart as [Hstart Hmne].
  apply andb_true_iff in Hstart as [Hhne Hh].
  apply negb_true_iff, String.eqb_neq in Hhne, Hmne.
  destruct (int_all_digits h Hh Hhne) as (hh & -> & Hhh); [lia|].
  destruct (int_all_digits m Hm Hmne) as (mm & -> & Hmm); [lia|].
  exists day, (hh * 60 + mm). split; [reflexivity | lia].
Qed.

Lemma well_shaped_slot_parses_witness :
  ∃ day start_minutes,
    (parse_slot "Wed 13:05-15:00" (fresh_world [])).1 = Ok (day, start_minutes)
    ∧ 0 <= start_minutes.
Proof.
  apply (well_shaped_slot_parses "Wed 13:05-15:00" (fresh_world [])).
  - apply cache_consistent_empty.
  - reflexivity.
  - vm_compute. discriminate.
Defined.

(** ** The neighbourhood, exactly *)

Lemma room_move_exact g r l w0 w :
  heap w !! r = Some l -> l ≠ [] -> touches_only r w0 w ->
  wp (room_move g r (length l)) w
    (λ _ w', touches_only r w0 w' ∧ ∃ l', heap w' !! r = Some l' ∧ edit g l l')
    (λ _ w', touches_only r w0 w' ∧ rooms g = []).
Proof.
  intros Hr Hne Ht. unfold room_move.
  apply wp_bind, wp_random_randrange; [destruct l; [congruence | cbn; lia]|].
  intros idx Hidx. apply wp_bind. eapply wp_getitem; [exact Hr | exact Hidx|].
  intros [[c s] rm] Ha. apply wp_bind, wp_random_choice.
  - intros Hrooms. split; [exact Ht | exact Hrooms].
  - intros room Hroom. eapply wp_setitem; [exact Hr | exact Hidx|].
    split; [apply touches_only_write; exact Ht|].
    exists (<[idx := (c, s, room)]> l). split; [eapply heap_write_read; exact Hr|].
    eapply new_room; eauto.
Qed.

Lemma slot_move_exact g r l w0 w :
  heap w !! r = Some l -> l ≠ [] -> touches_only r w0 w ->
  wp (slot_move g r (length l)) w
    (λ _ w', touches_only r w0 w' ∧ ∃ l', heap w' !! r = Some l' ∧ edit g l l')
    (λ _ w', touches_only r w0 w' ∧ (rooms g = [] ∨ slots g = [])).
Proof.
  intros Hr Hne Ht. unfold slot_move.
  apply wp_bind, wp_random_randrange; [destruct l; [congruence | cbn; lia]|].
  intros idx Hidx. apply wp_bind. eapply wp_getitem; [exact Hr | exact Hidx|].
  intros [[c s] rm] Ha. apply wp_bind.
  set (drawn := λ slot : string,
         slot ∈ slots g ∨ ∃ p, preferred_slots g !! teacher_of g c = Some p ∧ slot ∈ p).
  assert (Hfin : ∀ (slot : string) w1,
            drawn slot -> heap w1 !! r = Some l -> touches_only r w0 w1 ->
            wp (u ← random_random;
                if float_lt u float_0_25 then setitem r idx (c, slot, rm)
                else room ← random_choice (rooms g);
                     setitem r idx (c, slot, room)) w1
              (λ _ w', touches_only r w0 w' ∧ ∃ l', heap w' !! r = Some l' ∧ edit g l l')
              (λ _ w', touches_only r w0 w' ∧ (rooms g = [] ∨ slots g = []))).
  { intros slot w1 Hslot Hr1 Ht1. apply wp_bind, wp_random_random.
    destruct (float_lt (draw_float w1) float_0_25).
    - eapply wp_setitem; [exact Hr1 | exact Hidx|].
      split; [apply touches_only_write; exact Ht1|].
      exists (<[idx := (c, slot, rm)]> l). split; [eapply heap_write_read; exact Hr1|].
      eapply new_slot; eauto.
    - apply wp_bind, wp_random_choice.
      + intros Hrooms. split; [exact Ht1 | left; exact Hrooms].
      + intros room Hroom. eapply wp_setitem; [exact Hr1 | exact Hidx|].
        split; [apply touches_only_write; exact Ht1|].
        exists (<[idx := (c, slot, room)]> l).
        split; [eapply heap_write_read; exact Hr1|].
        eapply new_slot; eauto. }
  assert (Hslots : ∀ w1, heap w1 !! r = Some l -> touches_only r w0 w1 ->
            wp (random_choice (slots g)) w1
              (λ slot w', drawn slot ∧ heap w' !! r = Some l ∧ touches_only r w0 w')
              (λ _ w', touches_only r w0 w' ∧ (rooms g = [] ∨ slots g = []))).
  { intros w1 Hr1 Ht1. apply wp_random_choice.
    - intros Hs. split; [exact Ht1 | right; exact Hs].
    - intros x Hx. split; [left; exact Hx|]. split; [exact Hr1 | exact Ht1]. }
  eapply wp_post with
    (Q := λ (slot : string) w', drawn slot ∧ heap w' !! r = Some l ∧ touches_only r w0 w').
  - destruct (preferred_slots g !! default "" (faculty g !! c)) as [[|p ps]|] eqn:Hp;
      [apply Hslots; assumption | | apply Hslots; assumption].
    apply wp_bind, wp_random_random.
    destruct (float_lt (draw_float (advance w)) float_0_7).
    + apply wp_random_choice; [discriminate|]. intros x Hx.
      split; [right; exists (p :: ps); split; [exact Hp | exact Hx]|]. split; assumption.
    + apply Hslots; assumption.
  - intros slot w1 (Hslot & Hr1 & Ht1). apply Hfin; assumption.
Qed.

Lemma swap_move_exact g r l w0 w :
  heap w !! r = Some l -> (2 <= length l)%nat -> touches_only r w0 w ->
  wp (swap_move r (length l)) w
    (λ _ w', touches_only r w0 w' ∧ ∃ l', heap w' !! r = Some l' ∧ edit g l l')
    never.
Proof.
  intros Hr Hlen Ht. unfold swap_move.
  apply wp_bind, wp_random_sample2; [exact Hlen|]. intros i j Hi Hj Hij.
  apply wp_bind. eapply wp_getitem; [exact Hr | exact Hi|]. intros [[c1 s1] r1] Ha.
  apply wp_bind. eapply wp_getitem; [exact Hr | exact Hj|]. intros [[c2 s2] r2] Hb.
  apply wp_bind, wp_random_random.
  assert (Hset : ∀ x y, edit g l (<[j := y]> (<[i := x]> l)) ->
            wp (setitem r i x;; setitem r j y) (advance (advance (advance w)))
              (λ _ w', touches_only r w0 w' ∧ ∃ l', heap w' !! r = Some l' ∧ edit g l l')
              never).
  { intros x y Hedit. apply wp_bind. eapply wp_setitem; [exact Hr | exact Hi|].
    eapply wp_setitem;
      [eapply heap_write_read; exact Hr | rewrite length_insert; exact Hj|].
    split; [apply touches_only_write, touches_only_write; exact Ht|].
    eexists. split; [|exact Hedit].
    cbn. rewrite list_insert_insert_eq. apply list_lookup_insert_eq.
    apply lookup_lt_is_Some_1. eauto. }
  destruct (float_lt _ float_0_7).
  - apply Hset. eapply swap_slots; eauto.
  - apply wp_bind. eapply wp_getitem; [exact Hr | exact Hj|]. intros a Ha'.
    apply wp_bind. eapply wp_getitem; [exact Hr | exact Hi|]. intros b Hb'.
    apply Hset. eapply swap_assignments; eauto.
Qed.

(** The neighbour is a new list object: empty for an empty input, with no
    draw made; otherwise one edit of the input.  The objects of the heap and
    the caches are left as they were. *)
Lemma neighbor_solution_exact g t w :
  wp (neighbor_solution g t) w
    (λ r w', r = length (heap w) ∧ extends w w'
             ∧ ∃ l', heap w' !! r = Some l'
                 ∧ (default [] (heap w !! t) = [] ∧ l' = [] ∧ random w' = random w
                    ∨ default [] (heap w !! t) ≠ []
                      ∧ edit g (default [] (heap w !! t)) l'))
    (λ _ w', extends w w' ∧ default [] (heap w !! t) ≠ []
             ∧ (rooms g = [] ∨ slots g = [])).
Proof.
  unfold neighbor_solution. apply wp_bind, wp_elements_of.
  destruct (decide (default [] (heap w !! t) = [])) as [He|Hne].
  - apply wp_new_list. split; [reflexivity|]. split; [apply extends_alloc|].
    exists []. split; [apply heap_alloc_read | auto].
  - set (tt := default [] (heap w !! t)) in *.
    apply wp_bind, wp_new_list. set (w1 := set_heap (heap w ++ [tt])%list w).
    apply wp_bind, wp_random_random. apply wp_bind, wp_len.
    assert (Hr : heap (advance w1) !! length (heap w) = Some tt)
      by apply heap_alloc_read.
    unfold loc in *. rewrite Hr. cbn [default from_option id].
    assert (Ht : touches_only (length (heap w)) w1 (advance w1))
      by apply touches_only_advance, touches_only_refl.
    apply wp_bind.
    eapply wp_mono with
      (Q := λ _ w', touches_only (length (heap w)) w1 w'
                    ∧ ∃ l', heap w' !! length (heap w) = Some l' ∧ edit g tt l')
      (E := λ _ w', touches_only (length (heap w)) w1 w'
                    ∧ (rooms g = [] ∨ slots g = [])).
    + destruct (float_lt (draw_float w1) float_0_45 && bool_decide (2 <= length tt)%nat)
        eqn:Hswap.
      * apply andb_true_iff in Hswap as [_ Hlen]. apply bool_decide_eq_true_1 in Hlen.
        eapply wp_mono; [apply (swap_move_exact g _ tt w1); assumption | auto | intros ? ? []].
      * destruct (float_lt (draw_float w1) float_0_85).
        -- apply (slot_move_exact g _ tt w1); assumption.
        -- eapply wp_mono; [apply (room_move_exact g _ tt w1); assumption | auto |].
           intros _ w' [Ht' Hrooms]. auto.
    + intros _ w' (Ht' & l' & Hl' & Hedit). apply wp_ret.
      split; [reflexivity|]. split; [eapply extends_touches; exact Ht'|]. eauto.
    + intros _ w' [Ht' Hempty].
      split; [eapply extends_touches; exact Ht' | auto].
Qed.

(** ** Edits *)

Lemma edit_courses g l l' : edit g l l' -> course_of <$> l' ≡ₚ course_of <$> l.
Proof.
  destruct 1 as [i j c1 s1 r1 c2 s2 r2 Hij Hi Hj | i j a b Hij Hi Hj
                | idx c s r slot room Hi _ _ | idx c s r room Hi _].
  - rewrite (fmap_insert_same course_of _ j _ (c2, s2, r2)); [| |reflexivity].
    + rewrite (fmap_insert_same course_of _ i _ (c1, s1, r1)); auto.
    + rewrite list_lookup_insert_ne by exact Hij. exact Hj.
  - rewrite !list_fmap_insert. apply Permutation_insert_swap;
      rewrite list_lookup_fmap; [rewrite Hi | rewrite Hj]; reflexivity.
  - rewrite (fmap_insert_same course_of _ idx _ (c, s, r)); auto.
  - rewrite (fmap_insert_same course_of _ idx _ (c, s, r)); auto.
Qed.

Lemma edit_from_catalogues g l l' :
  edit g l l' -> Forall (from_catalogues g) l -> Forall (from_catalogues g) l'.
Proof.
  intros He Hl.
  destruct He as [i j c1 s1 r1 c2 s2 r2 Hij Hi Hj | i j a b Hij Hi Hj
                 | idx c s r slot room Hi Hslot Hroom | idx c s r room Hi Hroom].
  - pose proof (Forall_lookup_1 _ _ _ _ Hl Hi) as [Hr1 Hs1].
    pose proof (Forall_lookup_1 _ _ _ _ Hl Hj) as [Hr2 Hs2].
    repeat apply Forall_insert; [exact Hl | split; assumption..].
  - pose proof (Forall_lookup_1 _ _ _ _ Hl Hi).
    pose proof (Forall_lookup_1 _ _ _ _ Hl Hj).
    repeat apply Forall_insert; assumption.
  - pose proof (Forall_lookup_1 _ _ _ _ Hl Hi) as [Hr _].
    apply Forall_insert; [exact Hl|]. split; cbn.
    + destruct Hroom as [->|?]; assumption.
    + destruct Hslot as [?|(p & Hp & Hin)]; [left; assumption | right; eauto].
  - pose proof (Forall_lookup_1 _ _ _ _ Hl Hi) as [_ Hs].
    apply Forall_insert; [exact Hl|]. split; assumption.
Qed.

Lemma edit_complete g S l l' : edit g l l' -> complete g S l -> complete g S l'.
Proof.
  intros He [Hc Hf]. split.
  - rewrite (edit_courses g l l' He). exact Hc.
  - eapply edit_from_catalogues; eassumption.
Qed.

(** X10: A neighbour of a non-empty solution is one edit of it; a neighbour of
    the empty solution is empty, and costs no draw.  Whenever the call
    returns, the result is as long as the input and holds the same courses,
    each as many times. *)
Theorem neighbor_solution_edit g t l w r w' :
  heap w !! t = Some l ->
  neighbor_solution g t w = (Ok r, w') ->
  ∃ l', heap w' !! r = Some l'
    ∧ (l = [] ∧ l' = [] ∧ random w' = random w ∨ l ≠ [] ∧ edit g l l')
    ∧ course_of <$> l' ≡ₚ course_of <$> l
    ∧ length l' = length l.
Proof.
  intros Hl Hrun. pose proof (wp_run _ _ _ _ _ _ (neighbor_solution_exact g t w) Hrun)
    as (_ & _ & l' & Hl' & Hcase).
  rewrite Hl in Hcase. cbn [default from_option id] in Hcase.
  exists l'. split; [exact Hl'|]. split; [exact Hcase|].
  assert (course_of <$> l' ≡ₚ course_of <$> l) as Hc.
  { destruct Hcase as [(-> & -> & _)|[_ He]]; [reflexivity | apply (edit_courses g), He]. }
  split; [exact Hc|]. apply Permutation_length in Hc. rewrite !length_fmap in Hc. exact Hc.
Qed.

Lemma neighbor_solution_edit_witness :
  ∃ l', heap (neighbor_solution demo 0%nat demo_world).2 !! 1%nat = Some l'
    ∧ course_of <$> l' ≡ₚ course_of <$> demo_solution.
Proof.
  destruct (neighbor_solution_edit demo 0%nat demo_solution demo_world 1%nat
              (neighbor_solution demo 0%nat demo_world).2)
    as (l' & Hl' & _ & Hc & _).
  - vm_compute. reflexivity.
  - vm_compute. reflexivity.
  - exists l'. split; assumption.
Defined.

(** X11: A neighbour of a solution drawn from the catalogues is drawn from the
    catalogues: its rooms are rooms of the catalogue, its slots are slots of
    the catalogue or of a preference list. *)
Theorem neighbor_solution_from_catalogues g t l w r w' :
  heap w !! t = Some l ->
  Forall (from_catalogues g) l ->
  neighbor_solution g t w = (Ok r, w') ->
  ∃ l', heap w' !! r = Some l' ∧ Forall (from_catalogues g) l'.
Proof.
  intros Hl Hf Hrun. pose proof (wp_run _ _ _ _ _ _ (neighbor_solution_exact g t w) Hrun)
    as (_ & _ & l' & Hl' & Hcase).
  rewrite Hl in Hcase. cbn [default from_option id] in Hcase.
  exists l'. split; [exact Hl'|].
  destruct Hcase as [(_ & -> & _)|[_ He]]; [constructor|].
  eapply edit_from_catalogues; eassumption.
Qed.

Lemma demo_solution_from_catalogues : Forall (from_catalogues demo) demo_solution.
Proof.
  repeat constructor; cbn [room_of slot_of fst snd demo rooms slots];
    try (left; apply (bool_decide_unpack _); vm_compute; exact I);
    apply (bool_decide_unpack _); vm_compute; exact I.
Qed.

Lemma neighbor_solution_from_catalogues_witness :
  ∃ l', heap (neighbor_solution demo 0%nat demo_world).2 !! 1%nat = Some l'
        ∧ Forall (from_catalogues demo) l'.
Proof.
  apply (neighbor_solution_from_catalogues demo 0%nat demo_solution demo_world 1%nat
           (neighbor_solution demo 0%nat demo_world).2).
  - vm_compute. reflexivity.
  - exact demo_solution_from_catalogues.
  - vm_compute. reflexivity.
Defined.

(** ** The initial solution, exactly *)

Lemma random_solution_exact g w :
  wp (random_solution g) w
    (λ t w', t = length (heap w) ∧ extends w w'
             ∧ ∃ l, heap w' !! t = Some l
                    ∧ course_of <$> l = sessions g (requirements w)
                    ∧ Forall (λ a, room_of a ∈ rooms g
                                   ∧ (slot_of a ∈ slots g
                                      ∨ ∃ p, preferred_slots g !! teacher_of g (course_of a)
                                             = Some p ∧ slot_of a ∈ p)) l)
    (λ _ w', extends w w' ∧ (rooms g = [] ∨ slots g = [])).
Proof.
  unfold random_solution. apply wp_bind, wp_new_list.
  set (t := length (heap w)). set (w1 := set_heap (heap w ++ [[]])%list w).
  set (f := λ c : string, replicate (Z.to_nat (default 1 (requirements w !! c))) c).
  set (P := λ a : assignment,
         room_of a ∈ rooms g
         ∧ (slot_of a ∈ slots g
            ∨ ∃ p, preferred_slots g !! teacher_of g (course_of a) = Some p
                   ∧ slot_of a ∈ p)).
  apply wp_bind.
  eapply wp_mono with
    (Q := λ _ w', touches_only t w1 w'
                  ∧ ∃ l, heap w' !! t = Some l ∧ course_of <$> l = courses g ≫= f
                         ∧ Forall P l)
    (E := λ _ w', touches_only t w1 w' ∧ (rooms g = [] ∨ slots g = [])).
  - apply (wp_for_ (λ done w', touches_only t w1 w'
                      ∧ ∃ l, heap w' !! t = Some l ∧ course_of <$> l = done ≫= f
                             ∧ Forall P l)).
    + split; [apply touches_only_refl|]. exists [].
      split; [apply heap_alloc_read|]. split; [reflexivity | constructor].
    + intros done course w2 (Ht & l & Hl & Hc & HP). apply wp_bind, wp_gets.
      assert (requirements w2 = requirements w) as -> by apply Ht.
      unfold for_range.
      eapply wp_post;
        [apply (wp_for_ (λ turns w', touches_only t w1 w'
                   ∧ ∃ l', heap w' !! t = Some l'
                      ∧ course_of <$> l'
                        = ((done ≫= f) ++ replicate (length turns) course)%list
                      ∧ Forall P l'))|].
      * split; [exact Ht|]. exists l. split; [exact Hl|]. split; [|exact HP].
        rewrite Hc. cbn. rewrite app_nil_r. reflexivity.
      * intros turns [] w3 (Ht3 & l3 & Hl3 & Hc3 & HP3).
        set (drawn := λ slot : string,
               slot ∈ slots g
               ∨ ∃ p, preferred_slots g !! teacher_of g course = Some p ∧ slot ∈ p).
        assert (Hslots : ∀ w4, heap w4 !! t = Some l3 -> touches_only t w1 w4 ->
                  wp (random_choice (slots g)) w4
                    (λ slot w', drawn slot ∧ heap w' !! t = Some l3 ∧ touches_only t w1 w')
                    (λ _ w', touches_only t w1 w' ∧ (rooms g = [] ∨ slots g = []))).
        { intros w4 Hr4 Ht4. apply wp_random_choice.
          - intros Hs. split; [exact Ht4 | right; exact Hs].
          - intros x Hx. split; [left; exact Hx|]. split; [exact Hr4 | exact Ht4]. }
        apply wp_bind.
        eapply wp_post with
          (Q := λ (slot : string) w',
                  drawn slot ∧ heap w' !! t = Some l3 ∧ touches_only t w1 w').
        -- destruct (preferred_slots g !! default "" (faculty g !! course))
             as [[|p ps]|] eqn:Hp;
             [apply Hslots; assumption | | apply Hslots; assumption].
           apply wp_bind, wp_random_random.
           destruct (float_lt (draw_float w3) float_0_8).
           ++ apply wp_random_choice; [discriminate|]. intros x Hx.
              split; [right; exists (p :: ps); split; [exact Hp | exact Hx]|].
              split; assumption.
           ++ apply Hslots; assumption.
        -- intros slot w4 (Hslot & Hl4 & Ht4). apply wp_bind, wp_random_choice.
           ++ intros Hrooms. split; [exact Ht4 | left; exact Hrooms].
           ++ intros room Hroom. eapply wp_append; [exact Hl4|].
              split; [apply touches_only_write; exact Ht4|].
              exists (l3 ++ [(course, slot, room)])%list.
              split; [eapply heap_write_read; exact Hl4|]. split.
              ** rewrite fmap_app, Hc3, length_app, <- app_assoc.
                 cbn [length fmap list_fmap]. f_equal. rewrite Nat.add_1_r.
                 cbn [course_of fst]. change [course] with (replicate 1 course).
                 rewrite <- replicate_add, Nat.add_1_r. reflexivity.
              ** apply Forall_app. split; [exact HP3|]. apply Forall_singleton.
                 split; [exact Hroom | exact Hslot].
      * intros [] w3 (Ht3 & l3 & Hl3 & Hc3 & HP3). split; [exact Ht3|].
        exists l3. split; [exact Hl3|]. split; [|exact HP3].
        rewrite Hc3, length_replicate, bind_app.
        cbn [mbind list_bind]. rewrite app_nil_r. reflexivity.
  - intros [] w2 (Ht & l & Hl & Hc & HP). apply wp_ret.
    split; [reflexivity|]. split; [eapply extends_touches; exact Ht|]. eauto.
  - intros _ w2 [Ht He]. split; [eapply extends_touches; exact Ht | exact He].
Qed.

(** X9: Every assignment of the initial solution has a room of the catalogue,
    and a slot of the catalogue or of the preference list of the teacher of
    its course; building it changes neither the caches nor any list already
    in the heap. *)
Theorem random_solution_from_catalogues g w :
  ∀ t w', random_solution g w = (Ok t, w') ->
    extends w w'
    ∧ ∃ l, heap w' !! t = Some l
        ∧ Forall (λ a, room_of a ∈ rooms g
                       ∧ (slot_of a ∈ slots g
                          ∨ ∃ p, preferred_slots g !! teacher_of g (course_of a) = Some p
                                 ∧ slot_of a ∈ p)) l.
Proof.
  intros t w' Hrun.
  pose proof (wp_run _ _ _ _ _ _ (random_solution_exact g w) Hrun)
    as (_ & Hext & l & Hl & _ & HP).
  eauto.
Qed.

Lemma random_solution_from_catalogues_witness :
  ∃ l, heap (random_solution demo (fresh_world [3; 1; 4]%N)).2 !! 0%nat = Some l
       ∧ Forall (λ a, room_of a ∈ rooms demo
                      ∧ (slot_of a ∈ slots demo
                         ∨ ∃ p, preferred_slots demo !! teacher_of demo (course_of a) = Some p
                                ∧ slot_of a ∈ p)) l.
Proof.
  destruct (random_solution_from_catalogues demo (fresh_world [3; 1; 4]%N) 0%nat
              (random_solution demo (fresh_world [3; 1; 4]%N)).2) as (_ & l & Hl & HP).
  - vm_compute. reflexivity.
  - exists l. split; assumption.
Defined.

(** ** The annealing loop, exactly *)

Lemma extends_lookup w w' r (l : list assignment) :
  extends w w' -> heap w !! r = Some l -> heap w' !! r = Some l.
Proof.
  intros (_ & _ & Hext) Hr. rewrite Hext; [exact Hr|].
  apply lookup_lt_is_Some_1. eauto.
Qed.

Lemma accept_exact g F tc S neighbor nc (st : sa_locals F) w l' :
  sa_state g F tc S st w ->
  heap w !! neighbor = Some l' -> complete g S l' -> nc = cost_value g tc l' ->
  wp (accept F neighbor nc st) w
    (λ st' w', sa_state g F tc S st' w' ∧ hist st' = hist st ∧ T st' = T st
               ∧ best_cost st' <= best_cost st
               ∧ ∀ r l, heap w !! r = Some l -> heap w' !! r = Some l)
    never.
Proof.
  intros (Hc & Htc & Hle & lc & lb & Hlc & Hlb & Hcc & Hcb & Hvc & Hvb) Hn Hl' Hnc.
  unfold accept. destruct (nc <? best_cost st) eqn:Hlt.
  - apply Z.ltb_lt in Hlt.
    apply wp_bind, wp_elements_of. rewrite Hn. cbn [default from_option id].
    apply wp_bind, wp_new_list. apply wp_ret.
    cbn [best_cost current_cost current best hist T].
    split; [|split; [reflexivity|split; [reflexivity|split; [lia|]]]].
    + split; [exact Hc|]. split; [exact Htc|].
      cbn [best_cost current_cost current best].
      split; [lia|]. exists l', l'. cbn [heap set_heap].
      split; [apply lookup_app_l_Some; exact Hn|].
      split; [apply list_lookup_middle; reflexivity|]. auto.
    + intros r l Hr. cbn [heap set_heap]. apply lookup_app_l_Some. exact Hr.
  - apply Z.ltb_ge in Hlt. apply wp_ret.
    cbn [best_cost current_cost current best hist T].
    split; [|split; [reflexivity|split; [reflexivity|split; [lia|auto]]]].
    split; [exact Hc|]. split; [exact Htc|]. cbn [best_cost current_cost current best].
    split; [lia|]. exists l', lb. auto 10.
Qed.

Lemma hist_running_shape h bc stop : hist_running h bc stop -> hist_shape h bc stop.
Proof.
  intros (H1 & H2 & H3 & H4 & H5). repeat split; auto.
  intros Hs i x Hi _. specialize (H5 Hs). rewrite Forall_lookup in H5. eauto.
Qed.

(** The history after the entry of one more iteration. *)
Lemma hist_log F it (st0 st : sa_locals F) stop :
  it = S (length (h_best_cost (hist st0))) ->
  hist st = hist st0 ->
  hist_running (hist st0) (best_cost st0) stop ->
  best_cost st <= current_cost st ->
  let st' := log_history F it st in
  best_cost st' = best_cost st
  ∧ length (h_best_cost (hist st')) = S (length (h_best_cost (hist st0)))
  ∧ hist_shape (hist st') (best_cost st') stop
  ∧ (stop && (best_cost st' =? 0) = false -> hist_running (hist st') (best_cost st') stop).
Proof.
  intros -> Hh (H1 & H2 & H3 & H4 & H5) Hle st'. subst st'.
  unfold log_history, hist_shape, hist_running.
  cbn [hist h_iter h_best_cost h_current_cost best_cost]. rewrite Hh.
  assert (Hlen : length (h_best_cost (hist st0) ++ [best_cost st])%list
                 = S (length (h_best_cost (hist st0))))
    by (rewrite length_app; cbn; lia).
  assert (Hcur : length (h_current_cost (hist st0) ++ [current_cost st])%list
                 = length (h_best_cost (hist st0) ++ [best_cost st])%list)
    by (rewrite !length_app, H1; reflexivity).
  assert (Hit : (h_iter (hist st0) ++ [S (length (h_best_cost (hist st0)))])%list
                = seq 1 (length (h_best_cost (hist st0) ++ [best_cost st])%list)).
  { rewrite Hlen, seq_S, H2. reflexivity. }
  assert (Hpt : ∀ (i : nat) b c,
            (h_best_cost (hist st0) ++ [best_cost st])%list !! i = Some b ->
            (h_current_cost (hist st0) ++ [current_cost st])%list !! i = Some c -> b <= c).
  { intros i b c Hb Hc.
    destruct (decide (i < length (h_best_cost (hist st0)))%nat) as [Hi|Hi].
    - rewrite lookup_app_l in Hb by lia. rewrite lookup_app_l in Hc by lia. eauto.
    - assert (i = length (h_best_cost (hist st0))) as ->
        by (apply lookup_lt_Some in Hb; lia).
      rewrite list_lookup_middle in Hb by reflexivity.
      rewrite list_lookup_middle in Hc by (symmetry; exact H1).
      injection Hb as <-. injection Hc as <-. exact Hle. }
  assert (Hlast : last (h_best_cost (hist st0) ++ [best_cost st])%list
                  = Some (best_cost st))
    by apply last_snoc.
  split; [reflexivity|]. split; [exact Hlen|]. split.
  - repeat split; auto. intros Hs i x Hi Hlt. specialize (H5 Hs).
    rewrite Hlen in Hlt. rewrite lookup_app_l in Hi by lia.
    rewrite Forall_lookup in H5. eauto.
  - intros Hstop. repeat split; auto. intros Hs. specialize (H5 Hs). subst stop.
    cbn in Hstop. apply Z.eqb_neq in Hstop. apply Forall_app. split; [exact H5|].
    apply Forall_singleton. exact Hstop.
Qed.

(** One run of the loop: the local variables stay well formed, the history
    keeps its shape and gains at most [todo] entries, and every list object
    of the heap is left as it was. *)
Lemma sa_loop_exact g F live_plot update_interval alpha stop tc ss :
  ∀ todo it (st : sa_locals F) w,
  it = S (length (h_best_cost (hist st))) ->
  sa_state g F tc ss st w ->
  hist_running (hist st) (best_cost st) stop ->
  wp (sa_loop g F live_plot update_interval alpha stop todo it st) w
    (λ st' w', sa_state g F tc ss st' w'
               ∧ hist_shape (hist st') (best_cost st') stop
               ∧ (length (h_best_cost (hist st'))
                  <= length (h_best_cost (hist st)) + todo)%nat
               ∧ best_cost st' <= best_cost st
               ∧ (∀ r l, heap w !! r = Some l -> heap w' !! r = Some l))
    (λ _ _, rooms g = [] ∨ slots g = [] ∨ (live_plot = true ∧ update_interval = 0)).
Proof.
  induction todo as [|todo IH]; intros it st w Hit Hst Hrun; cbn [sa_loop].
  - apply wp_ret. split; [exact Hst|]. split; [apply hist_running_shape, Hrun|].
    split; [lia|]. split; [lia | auto].
  - destruct (le_1e_8 F (T st)).
    { apply wp_ret. split; [exact Hst|]. split; [apply hist_running_shape, Hrun|].
      split; [lia|]. split; [lia | auto]. }
    pose proof Hst as (Hc & Htc & Hle & lc & lb & Hlc & Hlb & Hcc & Hcb & Hvc & Hvb).
    apply wp_bind.
    eapply wp_mono;
      [apply neighbor_solution_exact | | intros _ w' (_ & _ & [He|He]); auto].
    intros neighbor w1 (_ & Hext & l' & Hl' & Hcase).
    rewrite Hlc in Hcase. cbn [default from_option id] in Hcase.
    assert (complete g ss l') as Hcl'.
    { destruct Hcase as [(He & -> & _)|[_ He]]; [rewrite <- He; exact Hcc|].
      eapply edit_complete; eassumption. }
    pose proof Hext as ((_ & Hsp1 & Htc1) & _ & _).
    assert (Hc1 : cache_consistent (_slot_parsed w1)) by (rewrite Hsp1; exact Hc).
    apply wp_bind.
    destruct (cost_function_run g neighbor w1 Hc1) as (c2 & Hcost & Hc2).
    eapply wp_of_run; [exact Hcost|].
    rewrite Hl', Htc1, Htc. cbn [default from_option id].
    set (w2 := set_slot_parsed c2 w1). set (nc := cost_value g tc l').
    assert (Hst2 : ∀ w3, heap w3 = heap w2 -> _slot_parsed w3 = _slot_parsed w2 ->
              _course_teacher_cache w3 = _course_teacher_cache w2 ->
              sa_state g F tc ss st w3 ∧ heap w3 !! neighbor = Some l'
              ∧ ∀ r l, heap w !! r = Some l -> heap w3 !! r = Some l).
    { intros w3 Hh Hs Ht. split; [|split].
      - split; [rewrite Hs; exact Hc2|]. split; [rewrite Ht; cbn; congruence|].
        split; [exact Hle|]. exists lc, lb. rewrite Hh. cbn [heap w2 set_slot_parsed].
        split; [eapply extends_lookup; eassumption|].
        split; [eapply extends_lookup; eassumption|]. auto.
      - rewrite Hh. exact Hl'.
      - intros r l Hr. rewrite Hh. cbn [heap w2 set_slot_parsed].
        eapply extends_lookup; eassumption. }
    apply wp_bind.
    eapply wp_post with
      (Q := λ (_ : bool) w3, heap w3 = heap w2 ∧ _slot_parsed w3 = _slot_parsed w2
                             ∧ _course_teacher_cache w3 = _course_teacher_cache w2).
    { destruct (nc - current_cost st <? 0); [apply wp_ret; auto|].
      apply wp_bind, wp_random_random. apply wp_ret. auto. }
    intros accepted w3 (Hh3 & Hs3 & Ht3).
    destruct (Hst2 w3 Hh3 Hs3 Ht3) as (Hst3 & Hn3 & Hkeep3).
    apply wp_bind.
    eapply wp_post with
      (Q := λ (st' : sa_locals F) w4,
              sa_state g F tc ss st' w4 ∧ hist st' = hist st ∧ T st' = T st
              ∧ best_cost st' <= best_cost st
              ∧ ∀ r l, heap w !! r = Some l -> heap w4 !! r = Some l).
    { destruct accepted.
      - eapply wp_mono;
          [apply (accept_exact g F tc ss neighbor nc st w3 l' Hst3 Hn3 Hcl' eq_refl)
          | | intros ? ? []].
        intros st' w4 (Hst4 & Hh4 & HT4 & Hb4 & Hkeep4). auto 10.
      - apply wp_ret. split; [exact Hst3|]. split; [reflexivity|].
        split; [reflexivity|]. split; [lia | exact Hkeep3]. }
    intros st' w4 (Hst4 & Hh4 & HT4 & Hb4 & Hkeep4).
    pose proof Hst4 as (_ & _ & Hle4 & _).
    destruct (hist_log F it st st' stop Hit Hh4 Hrun Hle4)
      as (Hbc & Hlen & Hshape & Hcont). cbv zeta in *.
    apply wp_bind, wp_live_update; [auto|].
    destruct (stop && (best_cost (log_history F it st') =? 0)) eqn:Hstop.
    + apply wp_ret. split; [|split; [exact Hshape|split; [lia|split; [lia|exact Hkeep4]]]].
      destruct Hst4 as (? & ? & ? & lc4 & lb4 & ?). split; [assumption|].
      split; [assumption|]. split; [assumption|]. exists lc4, lb4. assumption.
    + eapply wp_post; [apply IH|].
      * cbn [hist set_T]. rewrite Hlen, Hit. reflexivity.
      * destruct Hst4 as (? & ? & ? & lc4 & lb4 & ?). split; [assumption|].
        split; [assumption|]. split; [assumption|]. exists lc4, lb4. assumption.
      * cbn [hist set_T best_cost]. apply Hcont. reflexivity.
      * intros st5 w5 (Hst5 & Hshape5 & Hlen5 & Hb5 & Hkeep5).
        cbn [hist set_T best_cost] in Hlen5, Hb5.
        split; [exact Hst5|]. split; [exact Hshape5|].
        split; [lia|]. split; [lia|]. auto.
Qed.

Lemma simulated_annealing_exact g F max_iter T0 alpha stop live_plot update_interval w :
  cache_consistent (_slot_parsed w) ->
  wp (simulated_annealing g F max_iter T0 alpha stop live_plot update_interval) w
    (λ '(b, bc, h) w',
       cache_consistent (_slot_parsed w')
       ∧ _course_teacher_cache w' = _course_teacher_cache w
       ∧ (∀ r l, heap w !! r = Some l -> heap w' !! r = Some l)
       ∧ hist_shape h bc stop
       ∧ (length (h_best_cost h) <= Z.to_nat max_iter)%nat
       ∧ ∃ l0 lb, heap w' !! length (heap w) = Some l0
           ∧ heap w' !! b = Some lb
           ∧ complete g (sessions g (requirements w)) lb
           ∧ bc = cost_value g (_course_teacher_cache w) lb
           ∧ bc <= cost_value g (_course_teacher_cache w) l0)
    (λ _ _, rooms g = [] ∨ slots g = []
            ∨ (live_plot = true ∧ (update_interval = 0 ∨ max_iter <= 0))).
Proof.
  intros Hc. unfold simulated_annealing. apply wp_bind.
  eapply wp_mono; [apply random_solution_exact | | intros _ w' [_ [He|He]]; auto].
  intros init w1 (-> & Hext & l0 & Hl0 & Hcourses & HP).
  set (tc := _course_teacher_cache w). set (ss := sessions g (requirements w)).
  assert (complete g ss l0) as Hcl0.
  { split; [rewrite Hcourses; reflexivity|].
    eapply Forall_impl; [exact HP|]. cbn. intros a [Hr [Hs|(p & Hp & Hin)]].
    - split; [exact Hr | left; exact Hs].
    - split; [exact Hr | right; eauto]. }
  pose proof Hext as ((Hreq1 & Hsp1 & Htc1) & _ & _).
  assert (Hc1 : cache_consistent (_slot_parsed w1)) by (rewrite Hsp1; exact Hc).
  apply wp_bind.
  destruct (cost_function_run g (length (heap w)) w1 Hc1) as (c2 & Hcost & Hc2).
  eapply wp_of_run; [exact Hcost|].
  rewrite Hl0, Htc1. fold tc. cbn [default from_option id].
  set (w2 := set_slot_parsed c2 w1). set (c0 := cost_value g tc l0).
  apply wp_bind, wp_elements_of.
  assert (heap w2 !! length (heap w) = Some l0) as Hl2 by exact Hl0.
  unfold loc in *. rewrite Hl2. cbn [default from_option id].
  apply wp_bind, wp_new_list. set (w3 := set_heap (heap w2 ++ [l0])%list w2).
  apply wp_bind.
  set (st0 := {| current := length (heap w); current_cost := c0;
                 best := length (heap w2); best_cost := c0; T := T0;
                 hist := {| h_iter := []; h_current_cost := []; h_best_cost := [] |} |}).
  assert (Hst0 : sa_state g F tc ss st0 w3).
  { split; [exact Hc2|]. split; [exact Htc1|]. split; [cbn; lia|].
    exists l0, l0. cbn [current best st0 heap w3 set_heap].
    split; [apply lookup_app_l_Some; exact Hl2|].
    split; [apply list_lookup_middle; reflexivity|]. auto. }
  assert (Hrun0 : hist_running (hist st0) (best_cost st0) stop).
  { unfold hist_running. cbn. split; [reflexivity|]. split; [reflexivity|].
    split; [intros i b c Hb; destruct i; discriminate Hb|].
    split; [left; reflexivity|]. intros _. constructor. }
  eapply wp_mono;
    [apply (sa_loop_exact g F live_plot update_interval alpha stop tc ss _ 1%nat st0 w3
              eq_refl Hst0 Hrun0)
    | | intros _ w4 [He|[He|[Hl Hu]]]; auto 6].
  intros st w4 (Hst & Hshape & Hlen & Hb & Hkeep).
  apply wp_bind, wp_final_update; [auto 6|]. apply wp_ret.
  destruct Hst as (Hc4 & Htc4 & _ & lc & lb & _ & Hlb & _ & Hclb & _ & Hvb).
  split; [exact Hc4|]. split; [exact Htc4|].
  assert (Hkeep' : ∀ r l, heap w !! r = Some l -> heap w4 !! r = Some l).
  { intros r l Hr. apply Hkeep. cbn [heap w3 w2 set_heap set_slot_parsed].
    apply lookup_app_l_Some. eapply extends_lookup; eassumption. }
  split; [exact Hkeep'|]. split; [exact Hshape|]. split; [cbn in Hlen; lia|].
  exists l0, lb.
  split; [apply Hkeep; cbn [heap w3 set_heap]; apply lookup_app_l_Some; exact Hl2|].
  split; [exact Hlb|]. split; [exact Hclb|]. split; [exact Hvb|].
  cbn [best_cost st0] in Hb. exact Hb.
Qed.

(** X12: A run that starts on a consistent slot cache returns a complete
    timetable: the best solution has one assignment per session required
    when the run started, each with a room of the catalogue and a slot of
    the catalogue or of a preference list; and every list that the heap held
    before the run is left as it was. *)
Theorem search_returns_complete_timetable g F max_iter T0 alpha stop live_plot update_interval w
    b bc h w' :
  cache_consistent (_slot_parsed w) ->
  simulated_annealing g F max_iter T0 alpha stop live_plot update_interval w
  = (Ok (b, bc, h), w') ->
  (∃ lb, heap w' !! b = Some lb
     ∧ course_of <$> lb ≡ₚ sessions g (requirements w)
     ∧ Forall (from_catalogues g) lb)
  ∧ (∀ r l, heap w !! r = Some l -> heap w' !! r = Some l).
Proof.
  intros Hc Hrun.
  pose proof (wp_run _ _ _ _ _ _
                (simulated_annealing_exact g F max_iter T0 alpha stop live_plot
                   update_interval w Hc) Hrun)
    as (_ & _ & Hkeep & _ & _ & l0 & lb & _ & Hlb & [Hcourses Hcat] & _).
  split; [eauto | exact Hkeep].
Qed.

(** X13: The best cost that a run returns is the cost of the best solution that
    it returns: evaluating that solution again gives the same value.  It is
    at most the cost of the initial random solution, which is still in the
    heap. *)
Theorem best_cost_is_cost_of_best g F max_iter T0 alpha stop live_plot update_interval w
    b bc h w' :
  cache_consistent (_slot_parsed w) ->
  simulated_annealing g F max_iter T0 alpha stop live_plot update_interval w
  = (Ok (b, bc, h), w') ->
  (cost_function g b w').1 = Ok bc
  ∧ ∃ c0, (cost_function g (length (heap w)) w').1 = Ok c0 ∧ bc <= c0.
Proof.
  intros Hc Hrun.
  pose proof (wp_run _ _ _ _ _ _
                (simulated_annealing_exact g F max_iter T0 alpha stop live_plot
                   update_interval w Hc) Hrun)
    as (Hc' & Htc & _ & _ & _ & l0 & lb & Hl0 & Hlb & _ & Hbc & Hle).
  destruct (cost_function_run g b w' Hc') as (c1 & -> & _).
  destruct (cost_function_run g (length (heap w)) w' Hc') as (c2 & -> & _).
  cbn [fst]. unfold loc in *. rewrite Hlb, Hl0, Htc. cbn [default from_option id].
  split; [congruence|]. eexists. split; [reflexivity | exact Hle].
Qed.

(** X14: The history of a run: its three lists have one length, at most
    [max_iter]; the iterations are numbered from 1; at each iteration the
    best cost is at most the current cost; the last best cost is the one
    returned; and when the run stops at cost zero, no entry before the last
    is zero. *)
Theorem history_shape g F max_iter T0 alpha stop live_plot update_interval w
    b bc h w' :
  cache_consistent (_slot_parsed w) ->
  simulated_annealing g F max_iter T0 alpha stop live_plot update_interval w
  = (Ok (b, bc, h), w') ->
  length (h_current_cost h) = length (h_best_cost h)
  ∧ h_iter h = seq 1 (length (h_best_cost h))
  ∧ (length (h_best_cost h) <= Z.to_nat max_iter)%nat
  ∧ (∀ i x y, h_best_cost h !! i = Some x -> h_current_cost h !! i = Some y -> x <= y)
  ∧ (h_best_cost h = [] ∨ last (h_best_cost h) = Some bc)
  ∧ (stop = true ->
     ∀ i x, h_best_cost h !! i = Some x -> (S i < length (h_best_cost h))%nat -> x ≠ 0).
Proof.
  intros Hc Hrun.
  pose proof (wp_run _ _ _ _ _ _
                (simulated_annealing_exact g F max_iter T0 alpha stop live_plot
                   update_interval w Hc) Hrun)
    as (_ & _ & _ & (H1 & H2 & H3 & H4 & H5) & Hlen & _).
  auto 10.
Qed.

Lemma search_returns_complete_timetable_witness :
  ∃ b bc h w',
    simulated_annealing demo Qfloat 3 (Qmake 500 1) (Qmake 9997 10000) false true 5
      demo_world
    = (Ok (b, bc, h), w')
    ∧ ∃ lb, heap w' !! b = Some lb
        ∧ course_of <$> lb ≡ₚ sessions demo (requirements demo_world)
        ∧ Forall (from_catalogues demo) lb.
Proof.
  eexists _, _, _, _. split; [vm_compute; reflexivity|].
  eapply (search_returns_complete_timetable demo Qfloat 3 (Qmake 500 1)
            (Qmake 9997 10000) false true 5 demo_world).
  - apply demo_world_caches.
  - vm_compute. reflexivity.
Defined.

Lemma best_cost_is_cost_of_best_witness :
  ∃ b bc h w',
    simulated_annealing demo Qfloat 3 (Qmake 500 1) (Qmake 9997 10000) false true 5
      demo_world
    = (Ok (b, bc, h), w')
    ∧ (cost_function demo b w').1 = Ok bc.
Proof.
  eexists _, _, _, _. split; [vm_compute; reflexivity|].
  eapply (best_cost_is_cost_of_best demo Qfloat 3 (Qmake 500 1)
            (Qmake 9997 10000) false true 5 demo_world).
  - apply demo_world_caches.
  - vm_compute. reflexivity.
Defined.

Lemma history_shape_witness :
  ∃ b bc h w',
    simulated_annealing demo Qfloat 3 (Qmake 500 1) (Qmake 9997 10000) false true 5
      demo_world
    = (Ok (b, bc, h), w')
    ∧ length (h_current_cost h) = length (h_best_cost h).
Proof.
  eexists _, _, _, _. split; [vm_compute; reflexivity|].
  eapply (history_shape demo Qfloat 3 (Qmake 500 1)
            (Qmake 9997 10000) false true 5 demo_world).
  - apply demo_world_caches.
  - vm_compute. reflexivity.
Defined.

(** ** The analysis *)

Lemma preference_matches_from g : ∀ l acc,
  foldl (count_preference g) acc l
  = (acc.1 + how_many (preference_met g) l, acc.2 + how_many (has_preferences g) l).
Proof.
  induction l as [|a l IH]; intros [h t].
  - cbn. unfold how_many. cbn. f_equal; lia.
  - cbn [foldl]. rewrite IH. rewrite !how_many_cons.
    assert (count_preference g (h, t) a
            = (h + (if decide (preference_met g a) then 1 else 0),
               t + (if decide (has_preferences g a) then 1 else 0))) as ->;
      [|cbn [fst snd]; f_equal; lia].
    destruct (decide (preference_met g a)) as [Hm|Hm];
      destruct (decide (has_preferences g a)) as [Hh|Hh];
      revert Hm Hh;
      unfold count_preference, preference_met, has_preferences, teacher_of;
      cbn [fst snd];
      destruct (preferred_slots g !! default "" (faculty g !! course_of a)) as [p|];
      intros Hm Hh.
    all: try (destruct Hh; eauto; fail).
    all: try (destruct Hm; fail).
    all: try (destruct Hh; discriminate).
    + rewrite decide_True by exact Hm. reflexivity.
    + rewrite decide_False by exact Hm. f_equal; lia.
    + f_equal; lia.
Qed.

Lemma preference_met_has g a : preference_met g a -> has_preferences g a.
Proof.
  unfold preference_met, has_preferences.
  destruct (preferred_slots g !! teacher_of g (course_of a)); [eauto | tauto].
Qed.

(** With the teachers of [refresh_caches] and no empty preference list, the
    cost function charges [not_preferred] to an assignment with a teacher
    exactly when the analysis counts it without counting a match. *)
Lemma unpreferred_iff g tc a :
  teacher_cache_fresh g tc ->
  (∀ teacher, preferred_slots g !! teacher ≠ Some []) ->
  has_teacher tc a ->
  unpreferred g tc a ↔ has_preferences g a ∧ ¬ preference_met g a.
Proof.
  intros Hf Hne Ha. unfold unpreferred, has_preferences, preference_met.
  destruct (fresh_teacher g tc (course_of a) Hf Ha) as [Heq _].
  unfold teacher_in. rewrite Heq.
  pose proof (Hne (teacher_of g (course_of a))) as Hne'.
  destruct (preferred_slots g !! teacher_of g (course_of a)) as [[|p ps]|].
  - congruence.
  - split; [intros H; split; [eauto | exact H] | intros [_ H]; exact H].
  - split; [tauto | intros [[? ?] _]; discriminate].
Qed.

Lemma unpreferred_count g tc l :
  teacher_cache_fresh g tc ->
  (∀ teacher, preferred_slots g !! teacher ≠ Some []) ->
  Forall (has_teacher tc) l ->
  how_many (unpreferred g tc) l + how_many (preference_met g) l
  = how_many (has_preferences g) l.
Proof.
  intros Hf Hne. induction 1 as [|a l Ha _ IH]; [reflexivity|].
  rewrite !how_many_cons.
  pose proof (unpreferred_iff g tc a Hf Hne Ha) as Hiff.
  pose proof (preference_met_has g a) as Hmh.
  destruct (decide (unpreferred g tc a)), (decide (preference_met g a)),
    (decide (has_preferences g a)); try lia; tauto.
Qed.

Lemma filter_all {A} (P : A -> Prop) `{∀ a, Decision (P a)} (l : list A) :
  Forall P l -> filter P l = l.
Proof.
  induction 1 as [|a l Ha _ IH]; [reflexivity|].
  rewrite filter_cons_True by exact Ha. rewrite IH. reflexivity.
Qed.

Lemma analyze_results_run g t w :
  cache_consistent (_slot_parsed w) ->
  (analyze_results g t w).1
  = Ok (cost_value g (_course_teacher_cache w) (default [] (heap w !! t)),
        how_many (preference_met g) (default [] (heap w !! t)),
        how_many (has_preferences g) (default [] (heap w !! t))).
Proof.
  intros Hc. unfold analyze_results. rewrite bind_run.
  destruct (cost_function_run g t w Hc) as (c & -> & _).
  rewrite bind_run. unfold elements_of, gets. cbn [set_slot_parsed heap].
  unfold preference_matches. rewrite preference_matches_from. cbn [fst snd].
  reflexivity.
Qed.

(** X16: The analysis loop counts, in [total_with_prefs], the assignments whose
    teacher has an entry in [preferred_slots] and, in [pref_hits], those of
    them whose slot is in the entry; so the matches are at most the total,
    and the total at most the number of assignments. *)
Theorem preference_matches_bounds g best_tt :
  preference_matches g best_tt
  = (how_many (preference_met g) best_tt, how_many (has_preferences g) best_tt)
  ∧ 0 <= (preference_matches g best_tt).1 <= (preference_matches g best_tt).2
  ∧ (preference_matches g best_tt).2 <= Z.of_nat (length best_tt).
Proof.
  unfold preference_matches. rewrite preference_matches_from. cbn [fst snd].
  split; [reflexivity|]. unfold how_many.
  pose proof (length_filter (has_preferences g) best_tt) as H1.
  assert (length (filter (preference_met g) best_tt)
          <= length (filter (has_preferences g) best_tt))%nat as H2.
  { induction best_tt as [|a l IH]; [reflexivity|]. rewrite !filter_cons.
    pose proof (preference_met_has g a). pose proof (length_filter (has_preferences g) l).
    destruct (decide (preference_met g a)), (decide (has_preferences g a));
      cbn [length]; try tauto; lia. }
  lia.
Qed.

(** X17: The matches that [analyze_results] reports, against the cost that it
    reports.  With the teachers of [refresh_caches], no negative weight and
    no empty preference list: when every course of the timetable has a
    teacher, each counted assignment that is not a match costs
    [not_preferred]; and when the hard weight for a missing teacher and the
    weight [not_preferred] are positive, a cost of zero means that every
    counted assignment is a match. *)
Theorem preference_misses_charged g t s w v pref_hits total_with_prefs :
  non_negative (WEIGHTS g) ->
  cache_consistent (_slot_parsed w) ->
  teacher_cache_fresh g (_course_teacher_cache w) ->
  (∀ teacher, preferred_slots g !! teacher ≠ Some []) ->
  heap w !! t = Some s ->
  (analyze_results g t w).1 = Ok (v, pref_hits, total_with_prefs) ->
  (Forall (has_teacher (_course_teacher_cache w)) s ->
   not_preferred (WEIGHTS g) * (total_with_prefs - pref_hits) <= v)
  ∧ (0 < missing_teacher (WEIGHTS g) -> 0 < not_preferred (WEIGHTS g) ->
     v = 0 -> pref_hits = total_with_prefs).
Proof.
  intros HW Hc Hf Hne Hs Hrun.
  rewrite (analyze_results_run g t w Hc), Hs in Hrun.
  cbn [default from_option id] in Hrun. injection Hrun as <- <- <-.
  set (tc := _course_teacher_cache w) in *.
  assert (Hcharged : Forall (has_teacher tc) s ->
            not_preferred (WEIGHTS g)
            * (how_many (has_preferences g) s - how_many (preference_met g) s)
            <= cost_value g tc s).
  { intros Hall. rewrite <- (unpreferred_count g tc s Hf Hne Hall).
    rewrite cost_value_closed. unfold closed_cost, loop_penalty. cbv zeta.
    destruct (closed_cost_parts g tc s HW) as (H0 & H1 & H2 & H3 & H4 & H5).
    cbv zeta in *. rewrite (filter_all _ _ Hall) in *.
    destruct HW as (W1 & W2 & W3 & W4 & W5 & _). nia. }
  split; [exact Hcharged|].
  intros Hm Hp Hzero.
  assert (Forall (has_teacher tc) s) as Hall.
  { apply Forall_forall. intros a Hin.
    destruct (decide (has_teacher tc a)) as [|Hna]; [assumption|]. exfalso.
    pose proof (filter_length_lt (has_teacher tc) s a Hin Hna) as Hlt.
    rewrite cost_value_closed in Hzero. unfold closed_cost, loop_penalty in Hzero.
    cbv zeta in Hzero.
    destruct (closed_cost_parts g tc s HW) as (H0 & H1 & H2 & H3 & H4 & H5).
    cbv zeta in *. destruct HW as (W1 & W2 & W3 & W4 & W5 & _). nia. }
  specialize (Hcharged Hall).
  assert (how_many (preference_met g) s <= how_many (has_preferences g) s) as Hle.
  { rewrite <- (unpreferred_count g tc s Hf Hne Hall). unfold how_many. lia. }
  nia.
Qed.

Lemma preference_misses_charged_witness :
  (analyze_results demo 0%nat demo_unpreferred_world).1 = Ok (2, 0, 1)
  ∧ not_preferred (WEIGHTS demo) * (1 - 0) <= 2.
Proof.
  split; [vm_compute; reflexivity|].
  apply (preference_misses_charged demo 0%nat demo_unpreferred demo_unpreferred_world
           2 0 1).
  - unfold non_negative. cbn. lia.
  - apply demo_world_caches.
  - apply demo_world_caches.
  - intros teacher. cbn [preferred_slots demo].
    destruct (decide (teacher = "Ali")) as [->|Hn].
    + rewrite lookup_singleton_eq. discriminate.
    + rewrite lookup_singleton_ne by congruence. discriminate.
  - reflexivity.
  - vm_compute. reflexivity.
  - repeat constructor; unfold has_teacher; vm_compute; discriminate.
Defined.

(** ** From the inputs to the timetable *)

(** With the requirements that [generate_timetable] sets, the sessions are
    every course twice, in the order of the catalogue. *)
Lemma sessions_generate g :
  sessions g (list_to_map ((λ c, (c, 2)) <$> courses g))
  = courses g ≫= (λ c, [c; c]).
Proof.
  unfold sessions.
  assert (H : ∀ cs, Forall (λ c, c ∈ courses g) cs ->
            cs ≫= (λ c, replicate (Z.to_nat (default 1
                     ((list_to_map ((λ c, (c, 2)) <$> courses g) : gmap string Z) !! c))) c)
            = cs ≫= (λ c, [c; c])).
  { induction 1 as [|c cs Hc _ IH]; [reflexivity|].
    cbn [mbind list_bind]. rewrite IH.
    rewrite lookup_requirements_2, decide_True by exact Hc. reflexivity. }
  apply H, Forall_forall. auto.
Qed.

Lemma generate_timetable_run g F (float_500 float_0_9997 : float F) w :
  courses g ≠ [] -> faculty g ≠ ∅ -> rooms g ≠ [] -> slots g ≠ [] ->
  wp (generate_timetable g F float_500 float_0_9997) w
    (λ o w', ∃ best_tt bc h init_cost lb,
       o = Done best_tt bc h init_cost
       ∧ cache_consistent (_slot_parsed w')
       ∧ teacher_cache_fresh g (_course_teacher_cache w')
       ∧ heap w' !! best_tt = Some lb
       ∧ complete g (courses g ≫= (λ c, [c; c])) lb
       ∧ bc = cost_value g (_course_teacher_cache w') lb
       ∧ hist_shape h bc true
       ∧ (length (h_best_cost h) <= Z.to_nat 120000)%nat
       ∧ (∀ r l, heap w !! r = Some l -> heap w' !! r = Some l))
    never.
Proof.
  intros Hcs Hfa Hro Hsl. unfold generate_timetable.
  rewrite (bool_decide_eq_false_2 _ Hcs), (bool_decide_eq_false_2 _ Hfa),
    (bool_decide_eq_false_2 _ Hro), (bool_decide_eq_false_2 _ Hsl).
  cbn [orb].
  apply wp_bind, wp_modify.
  set (w1 := set_requirements (list_to_map ((λ c, (c, 2)) <$> courses g)) w).
  destruct (refresh_caches_run g w1) as (c & tc & Hrefresh & Hc & Htc).
  apply wp_bind. eapply wp_of_run; [exact Hrefresh|].
  set (w2 := set_course_teacher_cache tc (set_slot_parsed c w1)).
  apply wp_bind. eapply wp_mono; [apply random_solution_exact | |].
  2: { intros e w3 [_ [H|H]]; contradiction. }
  intros init_sol w3 (_ & Hext & _).
  destruct Hext as ((Hreq & Hsp & Hct) & Hlen & Hkeep).
  assert (cache_consistent (_slot_parsed w3)) as Hc3 by (rewrite Hsp; exact Hc).
  destruct (cost_function_run g init_sol w3 Hc3) as (c' & Hcost & Hc').
  apply wp_bind. eapply wp_of_run; [exact Hcost|].
  set (w4 := set_slot_parsed c' w3).
  cbv zeta. change (if 50000 <? 120000 then 50 else if 20000 <? 120000 then 20 else 5)
    with 50.
  apply wp_bind.
  eapply wp_mono;
    [apply (simulated_annealing_exact g F 120000 float_500 float_0_9997 true true 50
              w4 Hc') | |].
  2: { intros e w5 [H|[H|[_ [H|H]]]]; try contradiction; discriminate H || lia. }
  intros [[best_tt bc] h] w5 (Hc5 & Htc5 & Hkeep5 & Hshape & Hlen5 & l0 & lb & _ & Hlb & Hcompl & Hbc & _).
  apply wp_ret. exists best_tt, bc, h. eexists. exists lb.
  split; [reflexivity|]. split; [exact Hc5|].
  assert (_course_teacher_cache w5 = tc) as Htc5'.
  { rewrite Htc5. subst w4. cbn [set_slot_parsed _course_teacher_cache]. rewrite Hct.
    reflexivity. }
  split; [rewrite Htc5'; exact Htc|]. split; [exact Hlb|].
  split.
  { assert (requirements w4 = list_to_map ((λ c, (c, 2)) <$> courses g)) as Hreq4.
    { subst w4. cbn [set_slot_parsed requirements]. rewrite Hreq. reflexivity. }
    rewrite Hreq4, sessions_generate in Hcompl. exact Hcompl. }
  split; [rewrite Htc5', Hbc; subst w4;
          cbn [set_slot_parsed _course_teacher_cache]; rewrite Hct; reflexivity|].
  split; [exact Hshape|]. split; [exact Hlen5|].
  intros r l Hr. apply Hkeep5. subst w4. cbn [set_slot_parsed heap].
  assert (r < length (heap w))%nat as Hlt by (eapply lookup_lt_Some; exact Hr).
  rewrite (Hkeep r) by exact Hlt. exact Hr.
Qed.

(** X18: With a course, a teacher, a room and a slot on record,
    [generate_timetable] runs to the end of the search without raising and
    without the error box.  The timetable that it hands over has exactly two
    sessions for every course of the catalogue, each in a room of the
    catalogue and a slot of the catalogue or of a preference list; the best
    cost is the cost of that timetable; the history has at most 120000
    entries, and a zero only as the last best cost; the caches are those of
    [refresh_caches], and the lists that were in the heap are kept. *)
Theorem generate_timetable_completes g F (float_500 float_0_9997 : float F) w :
  courses g ≠ [] -> faculty g ≠ ∅ -> rooms g ≠ [] -> slots g ≠ [] ->
  ∃ best_tt bc h init_cost w',
    generate_timetable g F float_500 float_0_9997 w
    = (Ok (Done best_tt bc h init_cost), w')
    ∧ (∃ lb, heap w' !! best_tt = Some lb
         ∧ course_of <$> lb ≡ₚ courses g ≫= (λ c, [c; c])
         ∧ Forall (from_catalogues g) lb)
    ∧ (cost_function g best_tt w').1 = Ok bc
    ∧ (length (h_best_cost h) <= Z.to_nat 120000)%nat
    ∧ (∀ i x, h_best_cost h !! i = Some x -> (S i < length (h_best_cost h))%nat -> x ≠ 0)
    ∧ cache_consistent (_slot_parsed w')
    ∧ teacher_cache_fresh g (_course_teacher_cache w')
    ∧ (∀ r l, heap w !! r = Some l -> heap w' !! r = Some l).
Proof.
  intros Hcs Hfa Hro Hsl.
  destruct (run_of_wp _ _ _ (generate_timetable_run g F float_500 float_0_9997 w
                               Hcs Hfa Hro Hsl))
    as (o & w' & Hrun & best_tt & bc & h & init_cost & lb & -> & Hc & Htc & Hlb
        & [Hcourses Hcat] & Hbc & Hshape & Hlen & Hkeep).
  exists best_tt, bc, h, init_cost, w'. split; [exact Hrun|].
  split; [eauto|]. split.
  { destruct (cost_function_run g best_tt w' Hc) as (c1 & -> & _). cbn [fst].
    unfold loc in *. rewrite Hlb. cbn [default from_option id]. congruence. }
  split; [exact Hlen|]. split; [|auto].
  destruct Hshape as (_ & _ & _ & _ & Hz). apply Hz. reflexivity.
Qed.

Lemma generate_timetable_completes_witness :
  ∃ best_tt bc h init_cost w',
    generate_timetable demo Qfloat (Qmake 500 1) (Qmake 9997 10000) (fresh_world [])
    = (Ok (Done best_tt bc h init_cost), w')
    ∧ ∃ lb, heap w' !! best_tt = Some lb
         ∧ course_of <$> lb ≡ₚ ["AI"; "AI"; "DB"; "DB"].
Proof.
  destruct (generate_timetable_completes demo Qfloat (Qmake 500 1) (Qmake 9997 10000)
              (fresh_world []))
    as (best_tt & bc & h & init_cost & w' & Hrun & (lb & Hlb & Hcourses & _) & _).
  - discriminate.
  - intros H. apply (f_equal (λ m : gmap string string, m !! "AI")) in H.
    vm_compute in H. discriminate.
  - discriminate.
  - discriminate.
  - exists best_tt, bc, h, init_cost, w'. split; [exact Hrun|].
    exists lb. split; [exact Hlb | exact Hcourses].
Defined.

(** ** A search without a turn *)

Lemma sa_loop_idle g F live_plot update_interval alpha stop max_iter it
    (st : sa_locals F) :
  max_iter <= 0 ∨ le_1e_8 F (T st) = true ->
  sa_loop g F live_plot update_interval alpha stop (Z.to_nat max_iter) it st = mret st.
Proof.
  intros [H|H].
  - replace (Z.to_nat max_iter) with 0%nat by lia. reflexivity.
  - destruct (Z.to_nat max_iter); [reflexivity|]. cbn [sa_loop]. rewrite H. reflexivity.
Qed.

(** The run of a search that has no turn to make, once the initial
    solution is drawn. *)
Lemma idle_run g F max_iter T0 alpha stop live_plot update_interval w w1 l :
  cache_consistent (_slot_parsed w1) ->
  max_iter <= 0 ∨ le_1e_8 F T0 = true ->
  random_solution g w = (Ok (length (heap w)), w1) ->
  heap w1 !! length (heap w) = Some l ->
  ∃ c, cache_consistent c
    ∧ simulated_annealing g F max_iter T0 alpha stop live_plot update_interval w
      = (if live_plot && (max_iter <? 1) then Raise UnboundLocalError
         else Ok (length (heap w1), cost_value g (_course_teacher_cache w1) l,
                  {| h_iter := []; h_current_cost := []; h_best_cost := [] |}),
         set_heap (heap w1 ++ [l])%list (set_slot_parsed c w1)).
Proof.
  intros Hc1 Hidle Hrs Hl.
  destruct (cost_function_run g (length (heap w)) w1 Hc1) as (c & Hcost & Hc').
  unfold loc in *. rewrite Hl in Hcost. cbn [default from_option id] in Hcost.
  exists c. split; [exact Hc'|].
  unfold simulated_annealing. rewrite bind_run, Hrs. rewrite bind_run, Hcost.
  rewrite bind_run. unfold elements_of, gets. cbv beta iota.
  cbn [set_slot_parsed heap]. unfold loc. rewrite Hl. cbn [default from_option id].
  rewrite bind_run. unfold new_list. cbv beta iota.
  rewrite bind_run, sa_loop_idle by exact Hidle.
  destruct (live_plot && (max_iter <? 1)); reflexivity.
Qed.

(** X15: When [max_iter] is not positive, or the initial temperature is at
    most [1e-8], the loop makes no turn.  A run that returns then has an
    empty history, and its best solution is the initial random solution,
    copied to a list object of its own, with its cost.  With a room and a
    slot to draw, the run returns unless the plot is live and [max_iter] is
    not positive: then the final update of the plot reads the loop variable,
    which was never bound, and the search raises [UnboundLocalError]. *)
Theorem search_without_iterations g F max_iter T0 alpha stop live_plot
    update_interval w :
  cache_consistent (_slot_parsed w) ->
  max_iter <= 0 ∨ le_1e_8 F T0 = true ->
  (∀ b bc h w',
     simulated_annealing g F max_iter T0 alpha stop live_plot update_interval w
     = (Ok (b, bc, h), w') ->
     h = {| h_iter := []; h_current_cost := []; h_best_cost := [] |}
     ∧ b ≠ length (heap w)
     ∧ (cost_function g b w').1 = Ok bc
     ∧ ∃ l, heap w' !! length (heap w) = Some l
         ∧ heap w' !! b = Some l
         ∧ course_of <$> l = sessions g (requirements w))
  ∧ (rooms g ≠ [] -> slots g ≠ [] ->
     if live_plot && (max_iter <? 1)
     then ∃ w', simulated_annealing g F max_iter T0 alpha stop live_plot
                  update_interval w = (Raise UnboundLocalError, w')
     else ∃ r w', simulated_annealing g F max_iter T0 alpha stop live_plot
                    update_interval w = (Ok r, w')).
Proof.
  intros Hc Hidle.
  pose proof (random_solution_exact g w) as Hrand. unfold wp in Hrand.
  destruct (random_solution g w) as [[t|e] w1] eqn:Hrs.
  - destruct Hrand as (-> & ((_ & Hsp & _) & Hlen & _) & l & Hl & Hcourses & _).
    assert (cache_consistent (_slot_parsed w1)) as Hc1 by (rewrite Hsp; exact Hc).
    destruct (idle_run g F max_iter T0 alpha stop live_plot update_interval w w1 l
                Hc1 Hidle Hrs Hl) as (c & Hc' & Heq).
    pose proof (lookup_lt_Some _ _ _ Hl) as Hlt.
    split.
    + intros b bc h w' Hrun. rewrite Heq in Hrun.
      destruct (live_plot && (max_iter <? 1)); [discriminate|].
      injection Hrun as <- <- <- <-.
      split; [reflexivity|]. split; [lia|].
      assert (heap (set_heap (heap w1 ++ [l])%list (set_slot_parsed c w1))
                !! length (heap w1) = Some l) as Hb.
      { cbn. apply list_lookup_middle. reflexivity. }
      split.
      * destruct (cost_function_run g (length (heap w1))
                    (set_heap (heap w1 ++ [l])%list (set_slot_parsed c w1)) Hc')
          as (c1 & -> & _).
        cbn [fst]. unfold loc in *. rewrite Hb. reflexivity.
      * exists l. split; [|split; [exact Hb | exact Hcourses]].
        cbn. rewrite lookup_app_l by exact Hlt. exact Hl.
    + intros _ _. rewrite Heq. destruct (live_plot && (max_iter <? 1)); eauto.
  - split.
    + intros b bc h w' Hrun. unfold simulated_annealing in Hrun.
      rewrite bind_run, Hrs in Hrun. discriminate.
    + intros Hrooms Hslots. destruct Hrand as [_ [H|H]]; contradiction.
Qed.

Lemma search_without_iterations_witness :
  (∃ b bc w',
     simulated_annealing demo Qfloat 0 (Qmake 500 1) (Qmake 9997 10000) true false 5
       (fresh_world [3; 1; 4]%N)
     = (Ok (b, bc, {| h_iter := []; h_current_cost := []; h_best_cost := [] |}), w'))
  ∧ ∃ w', simulated_annealing demo Qfloat 0 (Qmake 500 1) (Qmake 9997 10000) true true 5
            (fresh_world [3; 1; 4]%N)
          = (Raise UnboundLocalError, w').
Proof.
  split.
  - eexists _, _, _. vm_compute. reflexivity.
  - destruct (search_without_iterations demo Qfloat 0 (Qmake 500 1) (Qmake 9997 10000)
                true true 5 (fresh_world [3; 1; 4]%N)) as [_ H].
    + apply cache_consistent_empty.
    + left. lia.
    + apply H; discriminate.
Defined.
